(** * pi5-voice-assistant: keyword router, sentence segmenter, history window

    A shallow embedding of
    - [pipelines/robot/keyword_router.py] (the keyword-first command router),
    - the token loop of [InferenceEngine.generate_stream] in [app/engine.py],
    - [ConversationManager] in [app/conversation.py],
    together with the properties of the specification that concern them,
    and, with properties of their own,
    - the methods of the router results and the text processing of
      [InferenceEngine.generate],
    - the command handler of [pipelines/robot/pipeline.py],
    - the chunked audio response of [pipelines/assistant/pipeline.py],
    - the parsing of the settings in [app/main.py].

    Python strings are sequences of Unicode code points and the regular
    expressions of the sources are interpreted by a small backtracking
    matcher that follows the semantics of CPython's [re] module
    (leftmost match, ordered alternation, greedy and lazy repetition,
    [\b], [\w], [\s], [\d], IGNORECASE and DOTALL). *)

From Stdlib Require Import String Ascii.
From Stdlib Require Import List NArith ZArith Bool Arith Lia.
From Stdlib Require Strings.Byte.
Import ListNotations.

Set Implicit Arguments.

(** ** Code points and strings *)

Definition char := N.
Bind Scope N_scope with char.
Definition str := list char.

Definition str_eqb (a b : str) : bool :=
  if list_eq_dec N.eq_dec a b then true else false.


(** Source literals are written as Rocq strings (UTF-8 bytes) and decoded to
    code points; one-, two- and three-byte sequences are enough for the
    literals of the sources. *)
Fixpoint bytes_of (s : string) : list N :=
  match s with
  | EmptyString => []
  | String a r => N_of_ascii a :: bytes_of r
  end.

Fixpoint utf8 (bs : list N) : str :=
  match bs with
  | [] => []
  | b :: r =>
      if (b <? 128)%N then b :: utf8 r
      else if (b <? 224)%N then
        match r with
        | b2 :: r' => ((b - 192) * 64 + (b2 - 128))%N :: utf8 r'
        | [] => []
        end
      else
        match r with
        | b2 :: b3 :: r' =>
            ((b - 224) * 4096 + (b2 - 128) * 64 + (b3 - 128))%N :: utf8 r'
        | _ => []
        end
  end.

Definition u (s : string) : str := utf8 (bytes_of s).

(** ** The Unicode character database

    The tables are exact for Basic Latin and Latin-1 Supplement (code points
    below U+0100).  What CPython's database says about the other code points
    is a parameter of the development: every general theorem below holds for
    all values of it. *)

Class UnicodeExt := {
  (* Py_UNICODE_ISSPACE, used by str.strip and by \s *)
  x_isspace : char -> bool;
  (* Py_UNICODE_ISALNUM, used by \w and \b *)
  x_isalnum : char -> bool;
  (* Py_UNICODE_ISDECIMAL, used by \d *)
  x_isdecimal : char -> bool;
  (* Py_UNICODE_TODECIMAL, used by float() *)
  x_decimal : char -> N;
  (* [x_ci p c]: under IGNORECASE the pattern literal p accepts the
     character c (sre lowers c and compares with the lowered p and with
     its case-folding equivalents) *)
  x_ci : char -> char -> bool;
  (* str.lower() of one character given what precedes and follows it
     (full case mapping, final-sigma rule) *)
  x_lower : str -> char -> str -> str
}.

Definition latin1 (c : char) : bool := (c <? 256)%N.

Definition between (a b c : char) : bool := ((a <=? c) && (c <=? b))%N.

Definition l1_isspace (c : char) : bool :=
  between 9 13 c || between 28 31 c || (c =? 32)%N || (c =? 133)%N
  || (c =? 160)%N.

Definition l1_isdecimal (c : char) : bool := between 48 57 c.

Definition l1_isalnum (c : char) : bool :=
  between 48 57 c || between 65 90 c || between 97 122 c
  || (c =? 170)%N || (c =? 178)%N || (c =? 179)%N || (c =? 181)%N
  || (c =? 185)%N || (c =? 186)%N || between 188 190 c
  || between 192 214 c || between 216 246 c || between 248 255 c.

Definition l1_lower (c : char) : char :=
  if between 65 90 c then (c + 32)%N
  else if between 192 222 c && negb (c =? 215)%N then (c + 32)%N
  else c.

Section Unicode.
Context {X : UnicodeExt}.

Definition isspace (c : char) : bool :=
  if latin1 c then l1_isspace c else x_isspace c.

Definition isalnum (c : char) : bool :=
  if latin1 c then l1_isalnum c else x_isalnum c.

Definition isdecimal (c : char) : bool :=
  if latin1 c then l1_isdecimal c else x_isdecimal c.

Definition decimal (c : char) : N :=
  if latin1 c then (c - 48)%N else x_decimal c.

(** [\w]: alphanumeric or underscore. *)
Definition isword (c : char) : bool := isalnum c || (c =? 95)%N.

(** A pattern literal against a text character under IGNORECASE. *)
Definition ci_eq (p c : char) : bool :=
  if latin1 p && latin1 c then (l1_lower p =? l1_lower c)%N else x_ci p c.

(** str.lower() *)
Fixpoint lower_from (before_rev : str) (s : str) : str :=
  match s with
  | [] => []
  | c :: r =>
      (if latin1 c then [l1_lower c] else x_lower (rev before_rev) c r)
      ++ lower_from (c :: before_rev) r
  end.

Definition lower (s : str) : str := lower_from [] s.

(** str.strip() *)
Fixpoint lstrip (s : str) : str :=
  match s with
  | [] => []
  | c :: r => if isspace c then lstrip r else s
  end.

Definition rstrip (s : str) : str := rev (lstrip (rev s)).

Definition strip (s : str) : str := rstrip (lstrip s).

(** [a in s] for strings *)
Fixpoint startswith (a s : str) : bool :=
  match a, s with
  | [], _ => true
  | x :: a', y :: s' => (x =? y)%N && startswith a' s'
  | _ :: _, [] => false
  end.

Fixpoint contains (a s : str) : bool :=
  startswith a s ||
  match s with
  | [] => false
  | _ :: s' => contains a s'
  end.

(** str.replace(old, new) for one-character old and new *)
Definition replace1 (old new : char) (s : str) : str :=
  map (fun c => if (c =? old)%N then new else c) s.

(** ** Regular expressions *)

Inductive citem :=
| ILit (c : char)     (* a literal member of a class *)
| IWord               (* \w *)
| ISpace              (* \s *)
| IDigit.             (* \d *)

Inductive re :=
| Eps
| Lit (c : char)
| Cls (items : list citem)        (* [...] , or \w \s \d alone *)
| Dot
| Bound                           (* \b *)
| Cat (r1 r2 : re)
| Alt (r1 r2 : re)                (* r1|r2, r1 tried first *)
| Star (greedy : bool) (r : re)   (* r* and r*? *)
| Group (r : re).                 (* the capturing group whose text is read *)

Record flags := { ignorecase : bool; dotall : bool }.

(** The position of the matcher in the subject: the character before it
    (for [\b]), what is left, the index, and the span of the group. *)
Record cursor := {
  prev : option char;
  rest : str;
  pos : nat;
  grp : option (nat * nat)
}.

Definition lit_match (fl : flags) (p c : char) : bool :=
  if ignorecase fl then ci_eq p c else (p =? c)%N.

Definition item_match (fl : flags) (it : citem) (c : char) : bool :=
  match it with
  | ILit p => lit_match fl p c
  | IWord => isword c
  | ISpace => isspace c
  | IDigit => isdecimal c
  end.

Definition dot_match (fl : flags) (c : char) : bool :=
  dotall fl || negb (c =? 10)%N.

Definition word_at (o : option char) : bool :=
  match o with Some c => isword c | None => false end.

Definition at_boundary (c : cursor) : bool :=
  xorb (word_at (prev c)) (word_at (hd_error (rest c))).

Section Matcher.
Variable A : Type.
Variable fl : flags.

Definition eat (test : char -> bool) (c : cursor)
    (k : cursor -> option A) : option A :=
  match rest c with
  | x :: r =>
      if test x
      then k {| prev := Some x; rest := r; pos := S (pos c); grp := grp c |}
      else None
  | [] => None
  end.

Definition orelse (a b : option A) : option A :=
  match a with Some x => Some x | None => b end.

(** Repetition: each round must consume something, as in sre. *)
Fixpoint star_loop (body : cursor -> (cursor -> option A) -> option A)
    (greedy : bool) (n : nat) (c : cursor) (k : cursor -> option A)
    : option A :=
  match n with
  | O => k c
  | S n' =>
      let again :=
        body c (fun c' =>
          if pos c <? pos c' then star_loop body greedy n' c' k else None) in
      if greedy then orelse again (k c) else orelse (k c) again
  end.

Fixpoint m (r : re) : cursor -> (cursor -> option A) -> option A :=
  match r with
  | Eps => fun c k => k c
  | Lit p => eat (lit_match fl p)
  | Cls items => eat (fun x => existsb (fun it => item_match fl it x) items)
  | Dot => eat (dot_match fl)
  | Bound => fun c k => if at_boundary c then k c else None
  | Cat r1 r2 => fun c k => m r1 c (fun c' => m r2 c' k)
  | Alt r1 r2 => fun c k => orelse (m r1 c k) (m r2 c k)
  | Star g r' => fun c k => star_loop (m r') g (S (length (rest c))) c k
  | Group r' => fun c k =>
      m r' c (fun c' =>
        k {| prev := prev c'; rest := rest c'; pos := pos c';
             grp := Some (pos c, pos c') |})
  end.

End Matcher.

(** pattern.match at a position *)
Definition match_at (fl : flags) (r : re) (c : cursor) : option cursor :=
  m fl r c (fun c' => Some c').

Definition start_cursor (p : option char) (i : nat) (s : str) : cursor :=
  {| prev := p; rest := s; pos := i; grp := None |}.

(** pattern.search: the leftmost position with a match; the result is the
    start index and the cursor at the end of the match. *)
Fixpoint search_from (fl : flags) (r : re) (p : option char) (i : nat)
    (s : str) : option (nat * cursor) :=
  match match_at fl r (start_cursor p i s) with
  | Some e => Some (i, e)
  | None =>
      match s with
      | [] => None
      | x :: s' => search_from fl r (Some x) (S i) s'
      end
  end.

Definition search (fl : flags) (r : re) (s : str) : option (nat * cursor) :=
  search_from fl r None 0 s.

Definition found (fl : flags) (r : re) (s : str) : bool :=
  match search fl r s with Some _ => true | None => false end.

Definition substr (s : str) (a b : nat) : str := firstn (b - a) (skipn a s).

(** match.group(1) of a successful search *)
Definition group1 (s : str) (e : cursor) : str :=
  match grp e with
  | Some (a, b) => substr s a b
  | None => []
  end.

(** pattern.sub("", s): scan left to right, [skip] counts the characters of
    the current match still to drop.  An empty match removes nothing. *)
Fixpoint sub_scan (fl : flags) (r : re) (p : option char) (i skip : nat)
    (s : str) : str :=
  match s with
  | [] => []
  | x :: s' =>
      match skip with
      | S k => sub_scan fl r (Some x) (S i) k s'
      | O =>
          match match_at fl r (start_cursor p i s) with
          | Some e =>
              match pos e - i with
              | S k => sub_scan fl r (Some x) (S i) k s'
              | O => x :: sub_scan fl r (Some x) (S i) 0 s'
              end
          | None => x :: sub_scan fl r (Some x) (S i) 0 s'
          end
      end
  end.

Definition sub_empty (fl : flags) (r : re) (s : str) : str :=
  sub_scan fl r None 0 0 s.

(** pattern.split(s) for a pattern without capturing groups. *)
Fixpoint split_scan (fl : flags) (r : re) (p : option char) (i skip : nat)
    (cur_rev : str) (s : str) : list str :=
  match s with
  | [] => [rev cur_rev]
  | x :: s' =>
      match skip with
      | S k => split_scan fl r (Some x) (S i) k cur_rev s'
      | O =>
          match match_at fl r (start_cursor p i s) with
          | Some e =>
              match pos e - i with
              | S k => rev cur_rev :: split_scan fl r (Some x) (S i) k [] s'
              | O => split_scan fl r (Some x) (S i) 0 (x :: cur_rev) s'
              end
          | None => split_scan fl r (Some x) (S i) 0 (x :: cur_rev) s'
          end
      end
  end.

Definition split (fl : flags) (r : re) (s : str) : list str :=
  split_scan fl r None 0 0 [] s.

End Unicode.

(** Building patterns from the source text of the regular expressions. *)
Fixpoint cat_all (rs : list re) : re :=
  match rs with
  | [] => Eps
  | [r] => r
  | r :: rs' => Cat r (cat_all rs')
  end.

Fixpoint alt_all (rs : list re) : re :=
  match rs with
  | [] => Eps
  | [r] => r
  | r :: rs' => Alt r (alt_all rs')
  end.

Definition word (s : string) : re := cat_all (map Lit (u s)).
Definition words (l : list string) : re := alt_all (map word l).
Definition opt (r : re) : re := Alt r Eps.           (* r? *)
Definition plus (r : re) : re := Cat r (Star true r). (* r+ *)
Definition spaces0 : re := Star true (Cls [ISpace]).  (* \s* *)
Definition spaces1 : re := plus (Cls [ISpace]).       (* \s+ *)

Definition re_I : flags := {| ignorecase := true; dotall := false |}.
Definition re_none : flags := {| ignorecase := false; dotall := false |}.
Definition re_DOTALL : flags := {| ignorecase := false; dotall := true |}.

(** ** Values, dictionaries and exceptions *)

Inductive exn := ValueError | OverflowError.

Inductive res (A : Type) :=
| Ok (a : A)
| Raise (e : exn).
Arguments Ok {A} a.
Arguments Raise {A} e.

Definition bind {A B : Type} (x : res A) (f : A -> res B) : res B :=
  match x with
  | Ok a => f a
  | Raise e => Raise e
  end.

Notation "x <- c ;; k" := (bind c (fun x => k))
  (at level 61, c at next level, right associativity).

(** Parameter values: strings, ints, and floats.  [VFloat m e] is the float
    that [float()] returns for the decimal literal of mantissa [m] with [e]
    fractional digits (0.5 is [VFloat 5 1]); the literal is kept, so no
    rounding is modelled. *)
Inductive value :=
| VStr (s : string)
| VInt (z : Z)
| VFloat (mant : N) (scale : nat).

Definition dict := list (string * value).

Fixpoint dict_set (k : string) (v : value) (d : dict) : dict :=
  match d with
  | [] => [(k, v)]
  | (k', v') :: d' =>
      if String.eqb k k' then (k, v) :: d' else (k', v') :: dict_set k v d'
  end.

Fixpoint dict_get (k : string) (d : dict) : option value :=
  match d with
  | [] => None
  | (k', v) :: d' => if String.eqb k k' then Some v else dict_get k d'
  end.

(** ** keyword_router.py *)

Module Router.

Local Open Scope string_scope.
Local Open Scope list_scope.

Definition WORD_NUMBERS : list (str * value) :=
  [ (u "cero", VInt 0); (u "medio", VFloat 5 1); (u "media", VFloat 5 1);
    (u "un", VInt 1); (u "uno", VInt 1); (u "una", VInt 1);
    (u "dos", VInt 2); (u "tres", VInt 3); (u "cuatro", VInt 4);
    (u "cinco", VInt 5);
    (u "seis", VInt 6); (u "siete", VInt 7); (u "ocho", VInt 8);
    (u "nueve", VInt 9); (u "diez", VInt 10);
    (u "quince", VInt 15); (u "veinte", VInt 20); (u "veinticinco", VInt 25);
    (u "treinta", VInt 30); (u "cuarenta", VInt 40);
    (u "cuarenta y cinco", VInt 45);
    (u "cincuenta", VInt 50); (u "sesenta", VInt 60); (u "noventa", VInt 90);
    (u "cien", VInt 100); (u "ciento", VInt 100);
    (u "ciento ochenta", VInt 180); (u "ciento veinte", VInt 120);
    (u "trescientos sesenta", VInt 360); (u "trescientos", VInt 300) ].

Fixpoint word_number (k : str) (d : list (str * value)) : option value :=
  match d with
  | [] => None
  | (k', v) :: d' => if str_eqb k k' then Some v else word_number k d'
  end.

Definition digit : re := Cls [IDigit].

(* \b(\d+(?:[.,]\d+)?)\b *)
Definition DIGIT_NUMBER : re :=
  cat_all [Bound;
           Group (Cat (plus digit)
                      (opt (Cat (Cls [ILit 46; ILit 44]) (plus digit))));
           Bound].

(* \b(vuelta completa|giro completo|360)\b *)
Definition FULL_TURN : re :=
  cat_all [Bound; words ["vuelta completa"; "giro completo"; "360"]; Bound].
(* \b(media vuelta)\b *)
Definition HALF_TURN : re := cat_all [Bound; word "media vuelta"; Bound].
(* \b(cuarto de vuelta)\b *)
Definition QUARTER_TURN : re := cat_all [Bound; word "cuarto de vuelta"; Bound].

(* (\w[\w\s]*?)\s*metros? *)
Definition unit_pattern (unit : string) : re :=
  cat_all [Group (Cat (Cls [IWord]) (Star false (Cls [IWord; ISpace])));
           spaces0; word unit; opt (Lit 115)].
Definition METERS_PATTERN : re := unit_pattern "metro".
(* (\w[\w\s]*?)\s*grados? *)
Definition DEGREES_PATTERN : re := unit_pattern "grado".

Definition kw (l : list string) : re := cat_all [Bound; words l; Bound].

Definition turn_verbs : re :=
  words ["gira"; "tuerce"; "rota"; "dobla"; "voltea"; "da la vuelta";
         "date la vuelta"].

Definition any0 : re := Star true Dot.  (* .* *)

Record rule := {
  pattern : re;
  rule_action : string;
  default_params : dict;
  rule_confirmation : str
}.

Definition mk_rule (p : re) (a : string) (d : dict) (c : string) : rule :=
  {| pattern := p; rule_action := a; default_params := d;
     rule_confirmation := u c |}.

Definition stop_rule : rule :=
  mk_rule (kw ["para"; "stop"; "detente"; "quieto"; "frena"; "basta"; "alto";
               "no te muevas"])
          "stop" [] "Detenido".

Definition COMMAND_PATTERNS : list rule :=
  [ (* Stop (highest priority, safety first) *)
    stop_rule;
    (* Sleep / Wake *)
    mk_rule (kw ["duerme"; "duérmete"; "a dormir"; "descansa"; "reposo";
                 "modo reposo"; "relájate"])
            "sleep" [] "Entrando en reposo";
    mk_rule (kw ["despierta"; "arriba"; "actívate"; "espabila"; "levanta";
                 "vamos"])
            "wake" [] "Despertando";
    (* Dance *)
    mk_rule (kw ["baila"; "bailar"; "menéate"; "mueve el esqueleto"])
            "dance" [] "¡A bailar!";
    (* Movement *)
    mk_rule (cat_all [Bound;
               alt_all [word "avanza"; word "adelante"; word "hacia adelante";
                        word "camina"; word "muévete"; word "ve"; word "anda";
                        word "sigue";
                        cat_all [word "pa"; opt (Lit 39); word "lante"]];
               Bound])
            "move" [("direction", VStr "forward"); ("distance", VInt 1)]
            "Avanzando";
    mk_rule (cat_all [Bound;
               alt_all [word "retrocede"; word "atrás"; word "hacia atrás";
                        word "marcha atrás";
                        cat_all [word "pa"; opt (Lit 39); word "trás"];
                        word "recular"];
               Bound])
            "move" [("direction", VStr "backward"); ("distance", VInt 1)]
            "Retrocediendo";
    (* Turn *)
    mk_rule (cat_all [Bound; turn_verbs; any0; word "izquierda"; Bound])
            "turn" [("direction", VStr "left"); ("angle", VInt 90)]
            "Girando a la izquierda";
    mk_rule (kw ["izquierda"])
            "turn" [("direction", VStr "left"); ("angle", VInt 90)]
            "Girando a la izquierda";
    mk_rule (cat_all [Bound; turn_verbs; any0; word "derecha"; Bound])
            "turn" [("direction", VStr "right"); ("angle", VInt 90)]
            "Girando a la derecha";
    mk_rule (kw ["derecha"])
            "turn" [("direction", VStr "right"); ("angle", VInt 90)]
            "Girando a la derecha";
    (* Generic turn (no direction specified), default right *)
    mk_rule (cat_all [Bound; turn_verbs; Bound])
            "turn" [("direction", VStr "right"); ("angle", VInt 90)]
            "Girando";
    (* Grab / Release *)
    mk_rule (kw ["agarra"; "coge"; "sujeta"; "toma"])
            "grab" [] "Agarrando";
    mk_rule (kw ["suelta"; "libera"; "deja"; "soltar"])
            "release" [] "Soltando";
    (* Look *)
    mk_rule (cat_all [Bound;
               Alt (cat_all [word "mira"; any0; word "arriba"])
                   (cat_all [word "levanta"; any0; word "cabeza"]);
               Bound])
            "look_up" [("angle", VInt 30)] "Mirando arriba";
    mk_rule (cat_all [Bound;
               Alt (cat_all [word "mira"; any0; word "abajo"])
                   (cat_all [word "baja"; any0; word "cabeza"]);
               Bound])
            "look_down" [("angle", VInt 30)] "Mirando abajo" ].

(* (?:luego\s+|después\s+)? *)
Definition then_opt : re :=
  opt (Alt (Cat (word "luego") spaces1) (Cat (word "después") spaces1)).

(* \s+(?:y\s+(?:luego\s+|después\s+)?|,\s*(?:luego\s+|después\s+)?
        |luego\s+|después\s+) *)
Definition COMPOUND_SPLITTER : re :=
  Cat spaces1
      (alt_all [cat_all [word "y"; spaces1; then_opt];
                cat_all [Lit 44; spaces0; then_opt];
                Cat (word "luego") spaces1;
                Cat (word "después") spaces1]).

(* \b(oye|eh|hey|robot|por favor|porfa|venga|¿puedes\??|puedes)\b *)
Definition FILLER : re :=
  cat_all [Bound;
           alt_all [word "oye"; word "eh"; word "hey"; word "robot";
                    word "por favor"; word "porfa"; word "venga";
                    Cat (word "¿puedes") (opt (Lit 63)); word "puedes"];
           Bound].

Record ActionResult := {
  action : string;
  params : dict;
  confirmation : str
}.

Record RouterResult := {
  matched : bool;
  actions : list ActionResult
}.

Definition is_empty (s : str) : bool :=
  match s with [] => true | _ => false end.

Section WithUnicode.
Context {X : UnicodeExt}.

(** [float(s)] for the literals [digits], [digits.digits], [digits.] and
    [.digits] written with decimal digits of any script.  The other
    strings float() accepts (signs, exponents, inf, nan, underscores,
    surrounding blanks) are not needed by the router and count as
    rejected here. *)
Fixpoint digits_val (acc : N) (s : str) : N :=
  match s with
  | [] => acc
  | c :: r => digits_val (acc * 10 + decimal c)%N r
  end.

Fixpoint take_digits (s : str) : str * str :=
  match s with
  | c :: r =>
      if isdecimal c then let (d, t) := take_digits r in (c :: d, t)
      else ([], s)
  | [] => ([], [])
  end.

Definition float_of (s : str) : res value :=
  let (ip, r) := take_digits s in
  match r with
  | [] =>
      if is_empty ip then Raise ValueError else Ok (VFloat (digits_val 0 ip) 0)
  | c :: t =>
      let (fp, r') := take_digits t in
      if (c =? 46)%N && is_empty r' && negb (is_empty ip && is_empty fp)
      then Ok (VFloat (digits_val 0 (ip ++ fp)) (length fp))
      else Raise ValueError
  end.

(** _extract_number *)
Definition _extract_number (text : str) (pat : re) : res (option value) :=
  match search re_I pat text with
  | None => Ok None
  | Some (_, e) =>
      let number_str := lower (strip (group1 text e)) in
      (* Try word numbers first *)
      match word_number number_str WORD_NUMBERS with
      | Some v => Ok (Some v)
      | None =>
          (* Try digit match within the captured group *)
          match search re_none DIGIT_NUMBER number_str with
          | Some (_, d) =>
              v <- float_of (replace1 44 46 (group1 number_str d)) ;;
              Ok (Some v)
          | None => Ok None
          end
      end
  end.

Definition set_if (k : string) (o : option value) (d : dict) : dict :=
  match o with
  | Some v => dict_set k v d
  | None => d
  end.

(** The parameter refinement of _match_single for a matched rule. *)
Definition refine (act : string) (text_clean : str) (d : dict) : res dict :=
  (* Extract distance for move commands *)
  d1 <- (if String.eqb act "move"
         then distance <- _extract_number text_clean METERS_PATTERN ;;
              Ok (set_if "distance" distance d)
         else Ok d) ;;
  (* Extract angle for turn commands *)
  d2 <- (if String.eqb act "turn"
         then if found re_I FULL_TURN text_clean
              then Ok (dict_set "angle" (VInt 360) d1)
              else if found re_I HALF_TURN text_clean
              then Ok (dict_set "angle" (VInt 180) d1)
              else if found re_I QUARTER_TURN text_clean
              then Ok (dict_set "angle" (VInt 90) d1)
              else angle <- _extract_number text_clean DEGREES_PATTERN ;;
                   Ok (set_if "angle" angle d1)
         else Ok d1) ;;
  (* Extract angle for look commands *)
  if String.eqb act "look_up" || String.eqb act "look_down"
  then angle <- _extract_number text_clean DEGREES_PATTERN ;;
       Ok (set_if "angle" angle d2)
  else Ok d2.

(** The loop of _match_single over COMMAND_PATTERNS: first match wins. *)
Fixpoint first_match (text_clean : str) (rules : list rule)
    : res (option ActionResult) :=
  match rules with
  | [] => Ok None
  | r :: rules' =>
      if found re_I (pattern r) text_clean
      then p <- refine (rule_action r) text_clean (default_params r) ;;
           Ok (Some {| action := rule_action r; params := p;
                       confirmation := rule_confirmation r |})
      else first_match text_clean rules'
  end.

Definition _match_single (text : str) : res (option ActionResult) :=
  let text_clean := lower (strip text) in
  if is_empty text_clean then Ok None
  else first_match text_clean COMMAND_PATTERNS.

(** The loop of route_command over the parts of a compound command. *)
Fixpoint match_parts (parts : list str) (acc : list ActionResult)
    : res (option RouterResult) :=
  match parts with
  | [] => Ok (Some {| matched := true; actions := acc |})
  | part :: parts' =>
      result <- _match_single part ;;
      match result with
      | None => Ok None
      | Some a => match_parts parts' (acc ++ [a])
      end
  end.

(** Strip noise: vocatives and courtesy. *)
Definition strip_noise (text : str) : str :=
  strip (sub_empty re_I FILLER text).

(** [p.strip() for p in parts if p.strip()] *)
Definition compound_parts (text_clean : str) : list str :=
  filter (fun p => negb (is_empty p))
         (map strip (split re_I COMPOUND_SPLITTER text_clean)).

Definition route_command (text : str) : res (option RouterResult) :=
  let text_clean := strip_noise text in
  if is_empty text_clean then Ok None
  else
    let parts := compound_parts text_clean in
    if (1 <? length parts)%nat
    then match_parts parts []
    else
      result <- _match_single text_clean ;;
      match result with
      | Some a => Ok (Some {| matched := true; actions := [a] |})
      | None => Ok None
      end.

End WithUnicode.
End Router.

(** ** engine.py: the sentence loop of generate_stream *)

Module Engine.

Local Open Scope string_scope.
Local Open Scope list_scope.

(* <think>.*?</think> with re.DOTALL *)
Definition THINK_PATTERN : re :=
  cat_all [word "<think>"; Star false Dot; word "</think>"].

(* [.!?;。]\s*|\n *)
Definition SENTENCE_END : re :=
  Alt (Cat (Cls [ILit 46; ILit 33; ILit 63; ILit 59; ILit 12290]) spaces0)
      (Lit 10).

Definition think_open : str := u "<think>".
Definition think_close : str := u "</think>".

(** The two local variables of the generator. *)
Record state := {
  buffer : str;
  in_think_block : bool
}.

Definition init : state := {| buffer := []; in_think_block := false |}.

Section WithUnicode.
Context {X : UnicodeExt}.

(** Check for sentence boundary: at most one sentence per token. *)
Definition boundary (buf : str) : state * list str :=
  match search re_none SENTENCE_END buf with
  | Some (_, e) =>
      let end_pos := pos e in
      let sentence := strip (firstn end_pos buf) in
      ({| buffer := skipn end_pos buf; in_think_block := false |},
       if Router.is_empty sentence then [] else [sentence])
  | None => ({| buffer := buf; in_think_block := false |}, [])
  end.

(** One round of the loop [for chunk in stream]; the second component is
    what the round yields. *)
Definition step (st : state) (token : str) : state * list str :=
  if Router.is_empty token then (st, [])
  else
    let buf := buffer st ++ token in
    let thinking := in_think_block st || contains think_open buf in
    if thinking then
      if contains think_close buf
      then boundary (sub_empty re_DOTALL THINK_PATTERN buf)
      else ({| buffer := buf; in_think_block := true |}, [])
    else boundary buf.

(** Yield any remaining text. *)
Definition finish (st : state) : list str :=
  let remaining := strip (buffer st) in
  if negb (Router.is_empty remaining) && negb (in_think_block st)
  then [remaining] else [].

(** The loop over the chunks: the state it ends in and what it yielded. *)
Fixpoint loop (st : state) (tokens : list str) : state * list str :=
  match tokens with
  | [] => (st, [])
  | t :: ts =>
      let (st1, out1) := step st t in
      let (st2, out2) := loop st1 ts in
      (st2, out1 ++ out2)
  end.

(** The loop followed by the flush of the remaining text. *)
Definition run (st : state) (tokens : list str) : list str :=
  let (st', out) := loop st tokens in out ++ finish st'.

(** The sentences generate_stream yields for the contents of the chunks of
    the stream, in the order it yields them. *)
Definition generate_stream (tokens : list str) : list str := run init tokens.

End WithUnicode.
End Engine.

(** ** conversation.py *)

Module Conversation.

Local Open Scope string_scope.
Local Open Scope list_scope.

Record message := { role : string; content : str }.

(** collections.deque with a maximum length *)
Record deque := { items : list message; maxlen : nat }.

(** The largest Py_ssize_t of a 64-bit CPython: 2^63 - 1. *)
Definition PY_SSIZE_T_MAX : Z := 9223372036854775807.

(** deque(maxlen=n): the int is converted to a Py_ssize_t (OverflowError
    when it does not fit), and a negative maxlen is refused. *)
Definition deque_new (n : Z) : res deque :=
  if ((n <? - PY_SSIZE_T_MAX - 1) || (PY_SSIZE_T_MAX <? n))%Z
  then Raise OverflowError
  else if (n <? 0)%Z then Raise ValueError
  else Ok {| items := []; maxlen := Z.to_nat n |}.

Definition deque_append (d : deque) (x : message) : deque :=
  let l := items d ++ [x] in
  {| items := if (maxlen d <? length l)%nat then tl l else l;
     maxlen := maxlen d |}.

Definition deque_clear (d : deque) : deque :=
  {| items := []; maxlen := maxlen d |}.

Record ConversationManager := {
  name : string;
  system_prompt : str;
  max_turns : Z;
  history : deque;
  (* whether a persist_path was given, and what the file holds for [name] *)
  persist : bool;
  disk : list message
}.

Definition set_history (cm : ConversationManager) (h : deque)
    : ConversationManager :=
  {| name := name cm; system_prompt := system_prompt cm;
     max_turns := max_turns cm; history := h;
     persist := persist cm; disk := disk cm |}.

Definition _load_from_disk (cm : ConversationManager) : ConversationManager :=
  set_history cm (fold_left deque_append (disk cm) (history cm)).

Definition _save_to_disk (cm : ConversationManager) : ConversationManager :=
  if persist cm
  then {| name := name cm; system_prompt := system_prompt cm;
          max_turns := max_turns cm; history := history cm;
          persist := persist cm; disk := items (history cm) |}
  else cm.

(** __init__; [stored] is what the history file holds for this project
    (empty when there is no file), read only when a path is given. *)
Definition new (nm : string) (prompt : str) (turns : Z)
    (persist_path : bool) (stored : list message) : res ConversationManager :=
  h <- deque_new (turns * 2) ;;
  let cm := {| name := nm; system_prompt := prompt; max_turns := turns;
               history := h; persist := persist_path; disk := stored |} in
  Ok (if persist_path then _load_from_disk cm else cm).

Definition add_exchange (cm : ConversationManager)
    (user_text assistant_text : str) : ConversationManager :=
  let h1 := deque_append (history cm)
              {| role := "user"; content := user_text |} in
  let h2 := deque_append h1
              {| role := "assistant"; content := assistant_text |} in
  _save_to_disk (set_history cm h2).

Definition get_messages (cm : ConversationManager) (user_text : str)
    : list message :=
  [{| role := "system"; content := system_prompt cm |}]
  ++ items (history cm)
  ++ [{| role := "user"; content := user_text |}].

Definition clear (cm : ConversationManager) : ConversationManager :=
  _save_to_disk (set_history cm (deque_clear (history cm))).

End Conversation.

(** ** A database instance for evaluating examples

    Outside Latin-1 it knows U+0130 (capital I with dot above: a letter
    whose lowercase is i followed by U+0307) and treats every other code
    point as a caseless symbol. *)
Definition py_ext : UnicodeExt := {|
  x_isspace := fun _ => false;
  x_isalnum := fun c => (c =? 304)%N;
  x_isdecimal := fun _ => false;
  x_decimal := fun _ => 0%N;
  x_ci := fun p c => (p =? c)%N || ((c =? 304) && (p =? 105))%N
                     || ((c =? 304) && (p =? 73))%N;
  x_lower := fun _ c _ => if (c =? 304)%N then [105; 775]%N else [c]
|}.

(** ** Notions used in the statements *)

(** [Subseq a b]: a is obtained from b by deleting characters. *)
Inductive Subseq {A : Type} : list A -> list A -> Prop :=
| Subseq_nil : Subseq [] []
| Subseq_skip x a b : Subseq a b -> Subseq a (x :: b)
| Subseq_keep x a b : Subseq a b -> Subseq (x :: a) (x :: b).

Definition advance (c : cursor) (x : char) (r : str) : cursor :=
  {| prev := Some x; rest := r; pos := S (pos c); grp := grp c |}.

Definition with_grp (c : cursor) (g : nat * nat) : cursor :=
  {| prev := prev c; rest := rest c; pos := pos c; grp := Some g |}.

(** The cursor after the characters of w have been consumed one by one. *)
Fixpoint advance_over (c : cursor) (w : str) : cursor :=
  match w with
  | [] => c
  | x :: w' => advance_over (advance c x (tl (rest c))) w'
  end.

(** [Matches fl r c w c']: from cursor c the expression r can consume the
    word w and reach c'.  The matcher only ever returns such matches. *)
Inductive Matches {X : UnicodeExt} (fl : flags)
    : re -> cursor -> str -> cursor -> Prop :=
| M_eps c : Matches fl Eps c [] c
| M_lit p c x r :
    rest c = x :: r -> lit_match fl p x = true ->
    Matches fl (Lit p) c [x] (advance c x r)
| M_cls items c x r :
    rest c = x :: r -> existsb (fun it => item_match fl it x) items = true ->
    Matches fl (Cls items) c [x] (advance c x r)
| M_dot c x r :
    rest c = x :: r -> dot_match fl x = true ->
    Matches fl Dot c [x] (advance c x r)
| M_bound c : at_boundary c = true -> Matches fl Bound c [] c
| M_cat r1 r2 c w1 c1 w2 c2 :
    Matches fl r1 c w1 c1 -> Matches fl r2 c1 w2 c2 ->
    Matches fl (Cat r1 r2) c (w1 ++ w2) c2
| M_alt_l r1 r2 c w c' : Matches fl r1 c w c' -> Matches fl (Alt r1 r2) c w c'
| M_alt_r r1 r2 c w c' : Matches fl r2 c w c' -> Matches fl (Alt r1 r2) c w c'
| M_star_0 g r c : Matches fl (Star g r) c [] c
| M_star_S g r c w1 c1 w2 c2 :
    Matches fl r c w1 c1 -> Matches fl (Star g r) c1 w2 c2 ->
    Matches fl (Star g r) c (w1 ++ w2) c2
| M_group r c w c' :
    Matches fl r c w c' -> Matches fl (Group r) c w (with_grp c' (pos c, pos c')).

(** A string of Basic Latin and Latin-1 Supplement characters. *)
Definition Latin1 (s : str) : Prop := Forall (fun c => latin1 c = true) s.

(** Lowercasing of the Latin-1 letters only. *)
Definition fold1 (c : char) : char := if latin1 c then l1_lower c else c.

Definition cmap (c : cursor) : cursor :=
  {| prev := option_map fold1 (prev c); rest := map fold1 (rest c);
     pos := pos c; grp := grp c |}.

(** All the literals of an expression are Latin-1 characters. *)
Fixpoint re_latin1 (r : re) : bool :=
  match r with
  | Eps | Dot | Bound => true
  | Lit p => latin1 p
  | Cls items =>
      forallb (fun it => match it with ILit p => latin1 p | _ => true end) items
  | Cat r1 r2 | Alt r1 r2 => re_latin1 r1 && re_latin1 r2
  | Star _ r' | Group r' => re_latin1 r'
  end.

(** The router: the action of the stop rule, a result made of one action,
    the text a fragment is matched against, and the fragments that
    route_command hands to _match_single. *)
Module RouterSpec.
Import Router.
Local Open Scope string_scope.
Local Open Scope list_scope.

Definition stop_action : ActionResult :=
  {| action := "stop"; params := []; confirmation := u "Detenido" |}.

Definition single (a : ActionResult) : res (option RouterResult) :=
  Ok (Some {| matched := true; actions := [a] |}).

Definition move_forward (distance : value) : ActionResult :=
  {| action := "move";
     params := [("direction", VStr "forward"); ("distance", distance)];
     confirmation := u "Avanzando" |}.

Definition turn_right (angle : value) : ActionResult :=
  {| action := "turn";
     params := [("direction", VStr "right"); ("angle", angle)];
     confirmation := u "Girando a la derecha" |}.

Definition turn_generic (angle : value) : ActionResult :=
  {| action := "turn";
     params := [("direction", VStr "right"); ("angle", angle)];
     confirmation := u "Girando" |}.

Definition several (l : list ActionResult) : res (option RouterResult) :=
  Ok (Some {| matched := true; actions := l |}).

Section WithUnicode.
Context {X : UnicodeExt}.

Definition normal (p : str) : str := lower (strip p).

Definition has_keyword (r : rule) (p : str) : bool :=
  found re_I (pattern r) (normal p).

(** No rule of the table matches the fragment. *)
Definition unmatched (p : str) : bool :=
  forallb (fun r => negb (has_keyword r p)) COMMAND_PATTERNS.

Definition has_move_keyword (p : str) : bool :=
  existsb (fun r => String.eqb (rule_action r) "move" && has_keyword r p)
          COMMAND_PATTERNS.

Definition segments (t : str) : list str :=
  let c := strip_noise t in
  if is_empty c then []
  else if (1 <? length (compound_parts c))%nat then compound_parts c
  else [c].

Definition resolves (p : str) (a : ActionResult) : Prop :=
  _match_single p = Ok (Some a).

Definition all_digits (ds : str) : Prop :=
  Forall (fun x => isdecimal x = true) ds.

End WithUnicode.
End RouterSpec.

(** The segmenter: boundary markers, and all the ways of cutting a text
    into non-empty tokens. *)
Module EngineSpec.

(** . ! ? ; the ideographic full stop, and newline *)
Definition is_marker (c : char) : bool :=
  existsb (N.eqb c) [46; 33; 63; 59; 12290; 10]%N.

Definition has_marker (s : str) : bool := existsb is_marker s.

Fixpoint tokenizations (s : str) : list (list str) :=
  match s with
  | [] => [[]]
  | x :: r =>
      flat_map (fun ts =>
                  match ts with
                  | [] => [[[x]]]
                  | t :: ts' => [[x] :: t :: ts'; (x :: t) :: ts']
                  end)
               (tokenizations r)
  end.

(** Some proper suffix of a is also a prefix of a. *)
Definition has_border (a : str) : bool :=
  existsb (fun k => startswith (skipn k a) a) (seq 1 (length a - 1)).

Definition strs_eqb (a b : list str) : bool :=
  if list_eq_dec (list_eq_dec N.eq_dec) a b then true else false.

End EngineSpec.

(** The history: sequences of operations, the unbounded record of what
    they append, and the last n elements of a list. *)
Module ConversationSpec.
Import Conversation.
Local Open Scope string_scope.
Local Open Scope list_scope.

Inductive op :=
| Add (user_text assistant_text : str)
| Clear.

Definition apply_op (cm : ConversationManager) (o : op) : ConversationManager :=
  match o with
  | Add user_text assistant_text => add_exchange cm user_text assistant_text
  | Clear => clear cm
  end.

Definition run_ops (cm : ConversationManager) (ops : list op)
    : ConversationManager :=
  fold_left apply_op ops cm.

Definition exchange (p : str * str) : list message :=
  [{| role := "user"; content := fst p |};
   {| role := "assistant"; content := snd p |}].

(** Everything appended since the last clear, never evicted. *)
Fixpoint log_ops (l : list message) (ops : list op) : list message :=
  match ops with
  | [] => l
  | Add user_text assistant_text :: ops' =>
      log_ops (l ++ exchange (user_text, assistant_text)) ops'
  | Clear :: ops' => log_ops [] ops'
  end.

(** The exchanges recorded since the last clear. *)
Fixpoint pairs_ops (l : list (str * str)) (ops : list op) : list (str * str) :=
  match ops with
  | [] => l
  | Add user_text assistant_text :: ops' =>
      pairs_ops (l ++ [(user_text, assistant_text)]) ops'
  | Clear :: ops' => pairs_ops [] ops'
  end.

(** The last n elements. *)
Definition window {A : Type} (n : nat) (l : list A) : list A :=
  skipn (length l - n) l.

Definition valid (d : deque) : Prop := length (items d) <= maxlen d.

(** A manager and a sequence of operations for the examples. *)
Definition demo_manager : ConversationManager :=
  {| name := "assistant"; system_prompt := u "Eres un asistente.";
     max_turns := 2;
     history := {| items := []; maxlen := 4 |};
     persist := false; disk := [] |}.

Definition demo_ops : list op :=
  [Add (u "uno") (u "1"); Add (u "dos") (u "2"); Add (u "tres") (u "3")].

End ConversationSpec.

(** What the Latin-1 table has to satisfy for lowercasing to be invisible
    to the character tests of the matcher. *)
Definition l1_ok (x : char) : bool :=
  latin1 (l1_lower x)
  && Bool.eqb (l1_isspace (l1_lower x)) (l1_isspace x)
  && Bool.eqb (l1_isalnum (l1_lower x)) (l1_isalnum x)
  && Bool.eqb (l1_isdecimal (l1_lower x)) (l1_isdecimal x)
  && (l1_lower (l1_lower x) =? l1_lower x)%N
  && Bool.eqb (l1_lower x =? 10)%N (x =? 10)%N
  && Bool.eqb (l1_lower x =? 95)%N (x =? 95)%N.

(** ** More of the sources: values, methods of the router results *)

(** str.join *)
Fixpoint join (sep : str) (l : list str) : str :=
  match l with
  | [] => []
  | [s] => s
  | s :: l' => s ++ sep ++ join sep l'
  end.

(** Python values built from dicts, lists and scalars, as the handlers
    build them for a JSON body and as json.loads returns them.  A dict
    keeps its keys in insertion order.  [OFloat m e] is the float of the
    decimal literal of mantissa m with e fractional digits, [OFloatNeg]
    its negative; NaN and the infinities are the values json.loads reads
    from NaN, Infinity and -Infinity. *)
#[local] Unset Elimination Schemes.
Inductive obj :=
| ONone
| OBool (b : bool)
| OInt (z : Z)
| OFloat (mant : N) (scale : nat)
| OFloatNeg (mant : N) (scale : nat)
| ONaN
| OInf (negative : bool)
| OStr (s : str)
| OList (l : list obj)
| ODict (d : list (str * obj)).
#[local] Set Elimination Schemes.

(** d[k] = v *)
Fixpoint obj_set (k : str) (v : obj) (d : list (str * obj))
    : list (str * obj) :=
  match d with
  | [] => [(k, v)]
  | (k', v') :: d' =>
      if str_eqb k k' then (k, v) :: d' else (k', v') :: obj_set k v d'
  end.

(** d.get(k) *)
Fixpoint obj_get (k : str) (d : list (str * obj)) : option obj :=
  match d with
  | [] => None
  | (k', v) :: d' => if str_eqb k k' then Some v else obj_get k d'
  end.

Module RouterMethods.
Import Router.
Local Open Scope string_scope.
Local Open Scope list_scope.

Definition obj_of_value (v : value) : obj :=
  match v with
  | VStr s => OStr (u s)
  | VInt z => OInt z
  | VFloat mant scale => OFloat mant scale
  end.

Definition obj_of_params (d : dict) : obj :=
  ODict (map (fun kv => (u (fst kv), obj_of_value (snd kv))) d).

(** ActionResult.to_dict *)
Definition to_dict (a : ActionResult) : obj :=
  ODict [(u "action", OStr (u (action a)));
         (u "params", obj_of_params (params a))].

(** RouterResult.to_actions_json *)
Definition to_actions_json (r : RouterResult) : obj :=
  ODict [(u "actions", OList (map to_dict (actions r)))].

(** RouterResult.confirmation *)
Definition RouterResult_confirmation (r : RouterResult) : str :=
  join (u ". ")
       (filter (fun c => negb (is_empty c)) (map confirmation (actions r))).

(** What the refinement of _match_single needs of a rule: the parameter it
    may overwrite is among the defaults. *)
Definition refined_key (act : string) : option string :=
  if String.eqb act "move" then Some "distance"
  else if String.eqb act "turn" || String.eqb act "look_up"
          || String.eqb act "look_down" then Some "angle"
  else None.

Definition has_key (k : string) (d : dict) : bool :=
  existsb (String.eqb k) (map fst d).

(** The default of the parameter a rule lets the refinement overwrite. *)
Definition refined_default (act : string) : option value :=
  if String.eqb act "move" then Some (VInt 1)
  else if String.eqb act "turn" then Some (VInt 90)
  else if String.eqb act "look_up" || String.eqb act "look_down"
  then Some (VInt 30)
  else None.

Definition value_eqb (a b : value) : bool :=
  match a, b with
  | VStr s, VStr s' => String.eqb s s'
  | VInt z, VInt z' => (z =? z')%Z
  | VFloat m e, VFloat m' e' => (m =? m')%N && (e =? e')%nat
  | _, _ => false
  end.

Definition rule_default_ok (r : rule) : bool :=
  match refined_key (rule_action r), refined_default (rule_action r) with
  | Some k, Some v =>
      match dict_get k (default_params r) with
      | Some v' => value_eqb v v'
      | None => false
      end
  | _, _ => true
  end.

Definition rule_ok (r : rule) : bool :=
  match refined_key (rule_action r) with
  | Some k => has_key k (default_params r)
  | None => true
  end
  && negb (is_empty (rule_confirmation r)).

End RouterMethods.

(** ** More of the sources: the blocking generation, the assistant *)

Module EngineMore.
Import Engine.
Local Open Scope string_scope.
Local Open Scope list_scope.

Section WithUnicode.
Context {X : UnicodeExt}.

(** What InferenceEngine.generate does with the content of the completion:
    [content or ""], the reasoning blocks removed, the result trimmed. *)
Definition generate_content (content : option str) : str :=
  let content := match content with Some c => c | None => [] end in
  strip (sub_empty re_DOTALL THINK_PATTERN content).

(** A text that does not start with white space. *)
Definition lclean (s : str) : Prop :=
  match s with
  | [] => True
  | c :: _ => isspace c = false
  end.

(** The characters of a text that are not white space. *)
Definition nonspace (s : str) : str := filter (fun c => negb (isspace c)) s.

(** [" ".join(response_parts)] over the sentences of generate_stream, as
    the assistant handlers build the response text. *)
Definition full_response (tokens : list str) : str :=
  join (u " ") (generate_stream tokens).

End WithUnicode.
End EngineMore.

(** ** pipelines/assistant/pipeline.py: the chunked audio response *)

Module Assistant.
Import Engine Conversation.
Local Open Scope string_scope.
Local Open Scope list_scope.

Definition bytes := list Byte.byte.

Definition byte_of (n : N) : Byte.byte :=
  match Byte.of_N (n mod 256) with
  | Some b => b
  | None => Byte.x00
  end.

(** struct.pack("<I", n): four bytes, least significant first; [None] is
    struct.error, raised when n does not fit 32 bits. *)
Definition pack_u32 (n : N) : option bytes :=
  if (n <? 2 ^ 32)%N
  then Some [byte_of n; byte_of (n / 256); byte_of (n / 65536);
             byte_of (n / 16777216)]
  else None.

(** struct.pack("<I", 0) *)
Definition end_marker : bytes := [Byte.x00; Byte.x00; Byte.x00; Byte.x00].

(** The loop of audio_chunk_generator over the synthesized sentences: what
    it yields, and whether it ran to its end. *)
Fixpoint yield_frames (results : list (str * bytes)) : list bytes * bool :=
  match results with
  | [] => ([], true)
  | (sentence, wav_bytes) :: results' =>
      match pack_u32 (N.of_nat (length wav_bytes)) with
      | None => ([], false)
      | Some prefix =>
          let (chunks, done) := yield_frames results' in
          ((prefix ++ wav_bytes) :: chunks, done)
      end
  end.

Section WithUnicode.
Context {X : UnicodeExt}.

(** assistant_chat_stream for a transcription [text].  [llm] gives the
    tokens the model streams for the messages, [synthesize] the WAV bytes
    of a sentence.  [None] is the HTTP 400 answer; otherwise the chunks
    the response streams and the manager afterwards. *)
Definition assistant_chat_stream (llm : list message -> list str)
    (synthesize : str -> bytes) (convo : ConversationManager) (text : str)
    : option (list bytes * ConversationManager) :=
  if Router.is_empty (strip text) then None
  else
    let messages := get_messages convo text in
    let results :=
      map (fun sentence => (sentence, synthesize sentence))
          (generate_stream (llm messages)) in
    let (chunks, done) := yield_frames results in
    if done
    then Some (chunks ++ [end_marker],
               add_exchange convo text (join (u " ") (map fst results)))
    else Some (chunks, convo).

End WithUnicode.

(** The bytes a client receives when the generator runs to its end. *)
Definition stream_bytes (results : list (str * bytes)) : bytes :=
  concat (fst (yield_frames results)) ++ end_marker.

(** A chunk the length prefix can announce: not empty, shorter than 2^32. *)
Definition framed (wav_bytes : bytes) : Prop :=
  wav_bytes <> [] /\ (N.of_nat (length wav_bytes) < 2 ^ 32)%N.

End Assistant.

(** ** app/main.py: the configured pipeline names, the model file name *)

Module Main.
Local Open Scope string_scope.
Local Open Scope list_scope.

(** str.split(sep) for a one-character separator *)
Fixpoint split_on (sep : char) (s : str) : list str :=
  match s with
  | [] => [[]]
  | c :: s' =>
      if (c =? sep)%N then [] :: split_on sep s'
      else match split_on sep s' with
           | w :: ws => (c :: w) :: ws
           | [] => [[c]]
           end
  end.

Section WithUnicode.
Context {X : UnicodeExt}.

(** [n.strip() for n in settings.PIPELINES.split(",") if n.strip()] *)
Definition pipeline_names (PIPELINES : str) : list str :=
  map strip
      (filter (fun n => negb (Router.is_empty (strip n)))
              (split_on 44 PIPELINES)).

End WithUnicode.

(** settings.MODEL_PATH.split("/")[-1] *)
Definition model_file (MODEL_PATH : str) : str :=
  last (split_on 47 MODEL_PATH) [].

End Main.

(** ** pipelines/robot/pipeline.py: the command handler *)

Module Robot.
Import Router RouterMethods Conversation EngineMore.
Local Open Scope string_scope.
Local Open Scope list_scope.

(** What the handler ends with. *)
Inductive outcome :=
| HTTP400                       (* HTTPException(status_code=400) *)
| JSONContent (content : obj)   (* JSONResponse(content=...) *)
| Unhandled.                    (* an exception the handler does not catch *)

(** What json.loads does with a text. *)
Inductive parsed :=
| Loaded (x : obj)
| DecodeError                   (* json.JSONDecodeError *)
| OtherError.                   (* any other exception, as RecursionError *)

(** What the handler takes from outside the sources. *)
Record world := {
  (* result["choices"][0]["message"]["content"] of the completion *)
  completion : list message -> option str;
  (* json.loads *)
  loads : str -> parsed;
  (* json.dumps(..., ensure_ascii=False) *)
  dumps : obj -> str;
  (* whether JSONResponse accepts a content: it renders the content when
     the response is built, with allow_nan=False, and raises for a NaN or
     an infinity (the float of a literal too large for a double is one) *)
  renders : obj -> bool;
  (* the "_timing" dicts of the two answers *)
  keyword_timing : obj;
  llm_timing : obj
}.

(** JSONResponse(content=...); an exception of the rendering is not
    caught by the handler. *)
Definition JSONResponse (w : world) (content : obj) : outcome :=
  if renders w content then JSONContent content else Unhandled.

Definition is_str (k : str) (o : obj) : bool :=
  match o with
  | OStr s => str_eqb s k
  | _ => false
  end.

(** [k in x] for a string k; [None] is the TypeError of a value that is
    no container. *)
Definition obj_in (k : str) (x : obj) : option bool :=
  match x with
  | ODict d => Some (existsb (fun kv => str_eqb k (fst kv)) d)
  | OList l => Some (existsb (is_str k) l)
  | OStr s => Some (contains k s)
  | _ => None
  end.

(** A dict display: the items are set from left to right. *)
Definition dict_of (entries : list (str * obj)) : list (str * obj) :=
  fold_left (fun d kv => obj_set (fst kv) (snd kv) d) entries [].

Definition error_action (response_text : str) : obj :=
  ODict [(u "actions",
          OList [ODict [(u "action", OStr (u "error"));
                        (u "params",
                         ODict [(u "raw", OStr response_text)])]])].

(** What the try block leaves in command_data; [None] is an exception
    that leaves the handler: one of json.loads that is no
    JSONDecodeError, or the TypeError of the membership test. *)
Definition command_data (reply : parsed) (response_text : str)
    : option obj :=
  match reply with
  | DecodeError => Some (error_action response_text)
  | OtherError => None
  | Loaded x =>
      match obj_in (u "actions") x with
      | None => None
      | Some true => Some x
      | Some false => Some (ODict [(u "actions", OList [x])])
      end
  end.

(** The content of the answer of the fallback path, for a command_data
    that is a dict. *)
Definition llm_content (w : world) (text : str) (d : list (str * obj))
    : obj :=
  ODict (dict_of
           ([(u "transcription", OStr text)] ++ d ++
            [(u "_routed_by", OStr (u "llm"));
             (u "_timing", llm_timing w)])).

Section WithUnicode.
Context {X : UnicodeExt}.

(** robot_command for a transcription [text]: the outcome and the manager
    afterwards. *)
Definition robot_command (w : world) (convo : ConversationManager)
    (text : str) : outcome * ConversationManager :=
  if is_empty (strip text) then (HTTP400, convo)
  else
    match route_command text with
    | Raise _ => (Unhandled, convo)
    | Ok (Some router_result) =>
        let actions_data := to_actions_json router_result in
        let convo' := add_exchange convo text (dumps w actions_data) in
        match actions_data with
        | ODict d =>
            (JSONResponse w
               (ODict (dict_of
                  ([(u "transcription", OStr text)] ++ d ++
                   [(u "confirmation",
                     OStr (RouterResult_confirmation router_result));
                    (u "_routed_by", OStr (u "keyword"));
                    (u "_timing", keyword_timing w)]))),
             convo')
        | _ => (Unhandled, convo')
        end
    | Ok None =>
        let messages := get_messages convo text in
        let response_text := generate_content (completion w messages) in
        let convo' := add_exchange convo text response_text in
        match command_data (loads w response_text) response_text with
        | Some (ODict d) => (JSONResponse w (llm_content w text d), convo')
        | _ => (Unhandled, convo')
        end
    end.

End WithUnicode.

(** The parsed replies the membership test or the dict display does not
    survive: a scalar, a string that contains "actions", a list that holds
    the string "actions". *)
Definition fatal_reply (x : obj) : bool :=
  match x with
  | ODict _ => false
  | OList l => existsb (is_str (u "actions")) l
  | OStr s => contains (u "actions") s
  | _ => true
  end.

(** A value without NaN and without an infinity. *)
Fixpoint no_nan (o : obj) : bool :=
  match o with
  | ONaN | OInf _ => false
  | OList l => forallb no_nan l
  | ODict d => forallb (fun kv => no_nan (snd kv)) d
  | _ => true
  end.

(** The text of the reply of the examples, an object with the key "a"
    and the value NaN. *)
Definition demo_reply : str :=
  [123; 34; 97; 34; 58; 78; 97; 78; 125]%N.

(** A world for the examples: the model answers with demo_reply, which
    json.loads reads as a dict holding NaN, and JSONResponse refuses NaN
    and the infinities. *)
Definition demo_world : world :=
  {| completion := fun _ => Some demo_reply;
     loads := fun s => if str_eqb s demo_reply
                       then Loaded (ODict [(u "a", ONaN)])
                       else DecodeError;
     dumps := fun _ => u "{}";
     renders := no_nan;
     keyword_timing := ODict [];
     llm_timing := ODict [] |}.

End Robot.

(** * Properties *)

(** ** Lists *)

Lemma str_eqb_eq (a b : str) : str_eqb a b = true <-> a = b.
Proof.
  unfold str_eqb. destruct (list_eq_dec N.eq_dec a b); split; congruence.
Qed.

Section SubseqFacts.
Context {A : Type}.
Implicit Types a b c d : list A.

Lemma Subseq_nil_l b : Subseq [] b.
Proof. induction b; constructor; assumption. Qed.

Lemma Subseq_refl a : Subseq a a.
Proof. induction a; [constructor | apply Subseq_keep; assumption]. Qed.

Lemma Subseq_app a b c d : Subseq a b -> Subseq c d -> Subseq (a ++ c) (b ++ d).
Proof.
  intros Hab Hcd.
  induction Hab; simpl;
    [assumption | apply Subseq_skip; assumption
    | apply Subseq_keep; assumption].
Qed.

Lemma Subseq_app_l a b : Subseq a (a ++ b).
Proof.
  rewrite <- (app_nil_r a) at 1.
  apply Subseq_app; [apply Subseq_refl | apply Subseq_nil_l].
Qed.

Lemma Subseq_app_r a b : Subseq b (a ++ b).
Proof.
  change b with ([] ++ b) at 1.
  apply Subseq_app; [apply Subseq_nil_l | apply Subseq_refl].
Qed.

Lemma Subseq_trans a b c : Subseq a b -> Subseq b c -> Subseq a c.
Proof.
  intros Hab Hbc. revert a Hab.
  induction Hbc as [|x b c Hbc IH|x b c Hbc IH]; intros a Hab.
  - assumption.
  - constructor. apply IH. assumption.
  - inversion Hab; subst.
    + apply Subseq_skip. apply IH. assumption.
    + apply Subseq_keep. apply IH. assumption.
Qed.

Lemma Subseq_Forall (P : A -> Prop) a b :
  Subseq a b -> Forall P b -> Forall P a.
Proof.
  induction 1; intros HF; try assumption.
  - inversion HF; subst. auto.
  - inversion HF; subst. apply Forall_cons; auto.
Qed.

Lemma Subseq_rev a b : Subseq a b -> Subseq (rev a) (rev b).
Proof.
  induction 1; simpl.
  - constructor.
  - eapply Subseq_trans; [eassumption | apply Subseq_app_l].
  - apply Subseq_app; [assumption | apply Subseq_refl].
Qed.

Lemma Subseq_firstn n a : Subseq (firstn n a) a.
Proof.
  rewrite <- (firstn_skipn n a) at 2. apply Subseq_app_l.
Qed.

Lemma Subseq_skipn n a : Subseq (skipn n a) a.
Proof.
  rewrite <- (firstn_skipn n a) at 2. apply Subseq_app_r.
Qed.

End SubseqFacts.

(** ** The matcher returns matches *)

Section MatcherSound.
Context {X : UnicodeExt}.
Variable fl : flags.

Lemma eat_inv A (test : char -> bool) c (k : cursor -> option A) a :
  eat test c k = Some a ->
  exists x r, rest c = x :: r /\ test x = true /\ k (advance c x r) = Some a.
Proof.
  unfold eat. destruct (rest c) as [|x r]; [discriminate|].
  destruct (test x) eqn:T; [|discriminate].
  intros H. exists x, r. auto.
Qed.

Lemma orelse_inv A (a b : option A) v :
  orelse a b = Some v -> a = Some v \/ (a = None /\ b = Some v).
Proof. destruct a; simpl; intros H; [left | right]; auto. Qed.

Lemma star_loop_sound A (body : cursor -> (cursor -> option A) -> option A)
    g r :
  (forall c k a, body c k = Some a ->
     exists w c', Matches fl r c w c' /\ k c' = Some a) ->
  forall n c k a, star_loop body g n c k = Some a ->
     exists w c', Matches fl (Star g r) c w c' /\ k c' = Some a.
Proof.
  intros Hbody. induction n as [|n IH]; intros c k a H; simpl in H.
  - exists [], c. split; [constructor | assumption].
  - assert (Hagain : forall v,
      body c (fun c' => if pos c <? pos c'
                        then star_loop body g n c' k else None) = Some v ->
      exists w c', Matches fl (Star g r) c w c' /\ k c' = Some v).
    { intros v Hv. apply Hbody in Hv. destruct Hv as (w1 & c1 & M1 & Hk).
      destruct (pos c <? pos c1); [|discriminate].
      apply IH in Hk. destruct Hk as (w2 & c2 & M2 & Hk).
      exists (w1 ++ w2), c2. split; [econstructor; eassumption | assumption]. }
    assert (Hstop : forall v, k c = Some v ->
      exists w c', Matches fl (Star g r) c w c' /\ k c' = Some v).
    { intros v Hv. exists [], c. split; [constructor | assumption]. }
    destruct g; apply orelse_inv in H; destruct H as [H|[_ H]]; auto.
Qed.

Lemma m_sound A r : forall c (k : cursor -> option A) a,
  m fl r c k = Some a -> exists w c', Matches fl r c w c' /\ k c' = Some a.
Proof.
  induction r as [|p|items| | |r1 IH1 r2 IH2|r1 IH1 r2 IH2|g r IH|r IH];
    intros c k a H; cbn [m] in H.
  - exists [], c. split; [constructor | assumption].
  - apply eat_inv in H. destruct H as (x & t & Hr & Ht & Hk).
    exists [x], (advance c x t). split; [constructor; assumption | assumption].
  - apply eat_inv in H. destruct H as (x & t & Hr & Ht & Hk).
    exists [x], (advance c x t). split; [constructor; assumption | assumption].
  - apply eat_inv in H. destruct H as (x & t & Hr & Ht & Hk).
    exists [x], (advance c x t). split; [constructor; assumption | assumption].
  - destruct (at_boundary c) eqn:B; [|discriminate].
    exists [], c. split; [constructor; assumption | assumption].
  - apply IH1 in H. destruct H as (w1 & c1 & M1 & H).
    apply IH2 in H. destruct H as (w2 & c2 & M2 & H).
    exists (w1 ++ w2), c2. split; [econstructor; eassumption | assumption].
  - apply orelse_inv in H. destruct H as [H|[_ H]].
    + apply IH1 in H. destruct H as (w & c' & M & H).
      exists w, c'. split; [apply M_alt_l; assumption | assumption].
    + apply IH2 in H. destruct H as (w & c' & M & H).
      exists w, c'. split; [apply M_alt_r; assumption | assumption].
  - eapply star_loop_sound; [|eassumption]. exact IH.
  - apply IH in H. destruct H as (w & c' & M & H).
    exists w, (with_grp c' (pos c, pos c')).
    split; [constructor; assumption | assumption].
Qed.

Lemma match_at_sound r c e :
  match_at fl r c = Some e -> exists w, Matches fl r c w e.
Proof.
  unfold match_at. intros H. apply m_sound in H.
  destruct H as (w & c' & M & H). injection H as <-. exists w. assumption.
Qed.

Lemma Matches_consumes r c w c' :
  Matches fl r c w c' -> rest c = w ++ rest c' /\ pos c' = pos c + length w.
Proof.
  induction 1; simpl; try (split; [assumption || reflexivity | lia]).
  - destruct IHMatches1 as [E1 P1], IHMatches2 as [E2 P2].
    rewrite E1, E2, <- app_assoc, length_app. split; [reflexivity | lia].
  - assumption.
  - assumption.
  - destruct IHMatches1 as [E1 P1], IHMatches2 as [E2 P2].
    rewrite E1, E2, <- app_assoc, length_app. split; [reflexivity | lia].
  - assumption.
Qed.

Lemma search_from_sound r : forall s p i st e,
  search_from fl r p i s = Some (st, e) ->
  exists p', i <= st /\
    match_at fl r (start_cursor p' st (skipn (st - i) s)) = Some e.
Proof.
  induction s as [|x s IH]; intros p i st e H; simpl in H.
  - destruct (match_at fl r (start_cursor p i [])) eqn:E; [|discriminate].
    injection H as <- <-. exists p. rewrite Nat.sub_diag. auto.
  - destruct (match_at fl r (start_cursor p i (x :: s))) eqn:E.
    + injection H as <- <-. exists p. rewrite Nat.sub_diag. auto.
    + apply IH in H. destruct H as (p' & Hle & H). exists p'.
      split; [lia|].
      replace (st - i) with (S (st - S i)) by lia. exact H.
Qed.

Lemma Matches_star_cls g items c w c' :
  Matches fl (Star g (Cls items)) c w c' ->
  Forall (fun x => existsb (fun it => item_match fl it x) items = true) w.
Proof.
  intros H. remember (Star g (Cls items)) as r eqn:Er.
  induction H; try discriminate.
  - constructor.
  - injection Er as -> ->. apply Forall_app. split; auto.
    inversion H; subst. constructor; [assumption | constructor].
Qed.

End MatcherSound.

(** ** Lowercasing Latin-1 text is invisible to a case-insensitive match *)

Lemma l1_table : forallb l1_ok (map N.of_nat (seq 0 256)) = true.
Proof. vm_compute. reflexivity. Qed.

Lemma l1_facts x :
  latin1 x = true ->
  latin1 (l1_lower x) = true
  /\ l1_isspace (l1_lower x) = l1_isspace x
  /\ l1_isalnum (l1_lower x) = l1_isalnum x
  /\ l1_isdecimal (l1_lower x) = l1_isdecimal x
  /\ l1_lower (l1_lower x) = l1_lower x
  /\ (l1_lower x =? 10)%N = (x =? 10)%N
  /\ (l1_lower x =? 95)%N = (x =? 95)%N.
Proof.
  intros L. unfold latin1 in L. apply N.ltb_lt in L.
  assert (Hin : In x (map N.of_nat (seq 0 256))).
  { apply in_map_iff. exists (N.to_nat x). split; [apply N2Nat.id|].
    apply in_seq. lia. }
  pose proof (proj1 (forallb_forall _ _) l1_table x Hin) as H.
  unfold l1_ok in H.
  repeat (apply andb_true_iff in H; destruct H as [H ?]).
  repeat match goal with
         | H : Bool.eqb _ _ = true |- _ => apply eqb_prop in H
         | H : (_ =? _)%N = true |- _ => apply N.eqb_eq in H
         end.
  auto 10.
Qed.

Section Fold.
Context {X : UnicodeExt}.

Lemma fold1_latin1 x : latin1 (fold1 x) = latin1 x.
Proof.
  unfold fold1. destruct (latin1 x) eqn:L; [|exact L].
  apply l1_facts in L. tauto.
Qed.

Ltac fold1_tac x :=
  unfold fold1; destruct (latin1 x) eqn:L;
    [|cbv iota; rewrite ?L; reflexivity];
  pose proof (l1_facts x L) as (F1 & F2 & F3 & F4 & F5 & F6 & F7).

Lemma fold1_isspace x : isspace (fold1 x) = isspace x.
Proof. fold1_tac x. unfold isspace. rewrite F1, L. assumption. Qed.

Lemma fold1_isdecimal x : isdecimal (fold1 x) = isdecimal x.
Proof. fold1_tac x. unfold isdecimal. rewrite F1, L. assumption. Qed.

Lemma fold1_isword x : isword (fold1 x) = isword x.
Proof.
  fold1_tac x. unfold isword, isalnum. rewrite F1, L, F3, F7. reflexivity.
Qed.

Lemma fold1_newline x : (fold1 x =? 10)%N = (x =? 10)%N.
Proof. fold1_tac x. assumption. Qed.

Lemma fold1_idem x : fold1 (fold1 x) = fold1 x.
Proof.
  fold1_tac x. unfold fold1. rewrite F1. assumption.
Qed.

Lemma fold1_ci p x : latin1 p = true -> ci_eq p (fold1 x) = ci_eq p x.
Proof.
  intros Lp. fold1_tac x. unfold ci_eq. rewrite Lp, F1, L, F5. reflexivity.
Qed.

Section Sim.
Variable fl : flags.
Hypothesis fl_I : ignorecase fl = true.

Lemma fold1_lit p x : latin1 p = true -> lit_match fl p (fold1 x) = lit_match fl p x.
Proof. intros Lp. unfold lit_match. rewrite fl_I. apply fold1_ci. exact Lp. Qed.

Lemma fold1_items items x :
  forallb (fun it => match it with ILit p => latin1 p | _ => true end) items
  = true ->
  existsb (fun it => item_match fl it (fold1 x)) items
  = existsb (fun it => item_match fl it x) items.
Proof.
  induction items as [|it items IH]; simpl; [reflexivity|].
  intros H. apply andb_true_iff in H. destruct H as [H1 H2].
  rewrite IH by assumption. f_equal.
  destruct it; simpl.
  - apply fold1_lit. assumption.
  - apply fold1_isword.
  - apply fold1_isspace.
  - apply fold1_isdecimal.
Qed.

Lemma fold1_dot x : dot_match fl (fold1 x) = dot_match fl x.
Proof. unfold dot_match. rewrite fold1_newline. reflexivity. Qed.

Lemma cmap_boundary c : at_boundary (cmap c) = at_boundary c.
Proof.
  unfold at_boundary, cmap. simpl.
  destruct (prev c), (rest c); simpl; rewrite ?fold1_isword; reflexivity.
Qed.

(** The matcher on the lowered subject against the matcher on the subject,
    for results related by any relation that [orelse] respects. *)
Section Rel.
Variables A B : Type.
Variable R : option A -> option B -> Prop.
Hypothesis R_none : R None None.
Hypothesis R_orelse : forall a b a' b',
  R a b -> R a' b' -> R (orelse a a') (orelse b b').

Lemma eat_sim test test' c k k' :
  (forall x, test (fold1 x) = test' x) ->
  (forall c', R (k (cmap c')) (k' c')) ->
  R (eat test (cmap c) k) (eat test' c k').
Proof.
  intros Ht Hk. unfold eat. simpl.
  destruct (rest c) as [|x r]; simpl; [exact R_none|].
  rewrite Ht. destruct (test' x); [|exact R_none].
  apply (Hk (advance c x r)).
Qed.

Lemma star_loop_sim body body' g :
  (forall c k k', (forall c', R (k (cmap c')) (k' c')) ->
                  R (body (cmap c) k) (body' c k')) ->
  forall n c k k', (forall c', R (k (cmap c')) (k' c')) ->
    R (star_loop body g n (cmap c) k) (star_loop body' g n c k').
Proof.
  intros Hbody. induction n as [|n IH]; intros c k k' Hk; simpl.
  - apply Hk.
  - assert (Hagain :
      R (body (cmap c)
           (fun c' => if pos c <? pos c'
                      then star_loop body g n c' k else None))
        (body' c
           (fun c' => if pos c <? pos c'
                      then star_loop body' g n c' k' else None))).
    { apply Hbody. intros c'. simpl.
      destruct (pos c <? pos c'); [apply IH; exact Hk | exact R_none]. }
    destruct g; apply R_orelse; auto.
Qed.

Lemma m_sim r :
  re_latin1 r = true ->
  forall c k k', (forall c', R (k (cmap c')) (k' c')) ->
    R (m fl r (cmap c) k) (m fl r c k').
Proof.
  induction r as [|p|items| | |r1 IH1 r2 IH2|r1 IH1 r2 IH2|g r IH|r IH];
    intros L c k k' Hk; cbn [m]; simpl in L.
  - apply Hk.
  - apply eat_sim; [|exact Hk]. intros x. apply fold1_lit. exact L.
  - apply eat_sim; [|exact Hk]. intros x. apply fold1_items. exact L.
  - apply eat_sim; [|exact Hk]. intros x. apply fold1_dot.
  - rewrite cmap_boundary. destruct (at_boundary c); [apply Hk | exact R_none].
  - apply andb_true_iff in L. destruct L as [L1 L2].
    apply IH1; [exact L1|]. intros c'. apply IH2; assumption.
  - apply andb_true_iff in L. destruct L as [L1 L2].
    apply R_orelse; [apply IH1 | apply IH2]; assumption.
  - replace (length (rest (cmap c))) with (length (rest c))
      by (simpl; symmetry; apply length_map).
    apply star_loop_sim; [|exact Hk]. intros c0 k0 k0' Hk0.
    apply IH; assumption.
  - apply IH; [exact L|]. intros c'.
    apply (Hk (with_grp c' (pos c, pos c'))).
Qed.

End Rel.

Lemma match_at_cmap r c :
  re_latin1 r = true ->
  match_at fl r (cmap c) = option_map cmap (match_at fl r c).
Proof.
  intros L. unfold match_at.
  apply (@m_sim _ _ (fun a b => a = option_map cmap b)); auto.
  intros a b a' b' -> ->. destruct b; reflexivity.
Qed.

Lemma search_from_cmap r :
  re_latin1 r = true ->
  forall s p i,
    search_from fl r (option_map fold1 p) i (map fold1 s)
    = option_map (fun se => (fst se, cmap (snd se))) (search_from fl r p i s).
Proof.
  intros L. induction s as [|x s IH]; intros p i; simpl.
  - change (start_cursor (option_map fold1 p) i [])
      with (cmap (start_cursor p i [])).
    rewrite match_at_cmap by assumption.
    destruct (match_at fl r (start_cursor p i [])); reflexivity.
  - change (start_cursor (option_map fold1 p) i (fold1 x :: map fold1 s))
      with (cmap (start_cursor p i (x :: s))).
    rewrite match_at_cmap by assumption.
    destruct (match_at fl r (start_cursor p i (x :: s))); simpl;
      [reflexivity|].
    apply (IH (Some x)).
Qed.

Lemma found_fold1 r s :
  re_latin1 r = true -> found fl r (map fold1 s) = found fl r s.
Proof.
  intros L. unfold found, search.
  pose proof (search_from_cmap r L s None 0) as H. cbn [option_map] in H.
  rewrite H.
  destruct (search_from fl r None 0 s); reflexivity.
Qed.

Lemma sub_scan_fold1 r :
  re_latin1 r = true ->
  forall s p i skip,
    sub_scan fl r (option_map fold1 p) i skip (map fold1 s)
    = map fold1 (sub_scan fl r p i skip s).
Proof.
  intros L. induction s as [|x s IH]; intros p i skip; simpl; [reflexivity|].
  destruct skip as [|k].
  - change (start_cursor (option_map fold1 p) i (fold1 x :: map fold1 s))
      with (cmap (start_cursor p i (x :: s))).
    rewrite match_at_cmap by assumption.
    destruct (match_at fl r (start_cursor p i (x :: s))) as [e|]; simpl.
    + destruct (pos e - i); simpl; rewrite <- (IH (Some x)); reflexivity.
    + rewrite <- (IH (Some x)). reflexivity.
  - apply (IH (Some x)).
Qed.

Lemma split_scan_fold1 r :
  re_latin1 r = true ->
  forall s p i skip cur,
    split_scan fl r (option_map fold1 p) i skip (map fold1 cur) (map fold1 s)
    = map (map fold1) (split_scan fl r p i skip cur s).
Proof.
  intros L. induction s as [|x s IH]; intros p i skip cur; simpl.
  - rewrite map_rev. reflexivity.
  - destruct skip as [|k].
    + change (start_cursor (option_map fold1 p) i (fold1 x :: map fold1 s))
        with (cmap (start_cursor p i (x :: s))).
      rewrite match_at_cmap by assumption.
      destruct (match_at fl r (start_cursor p i (x :: s))) as [e|]; simpl.
      * destruct (pos e - i); simpl.
        -- apply (IH (Some x) (S i) 0 (x :: cur)).
        -- rewrite map_rev. f_equal. apply (IH (Some x) (S i) n []).
      * apply (IH (Some x) (S i) 0 (x :: cur)).
    + apply (IH (Some x)).
Qed.

End Sim.

Lemma lstrip_fold1 s : lstrip (map fold1 s) = map fold1 (lstrip s).
Proof.
  induction s as [|x s IH]; simpl; [reflexivity|].
  rewrite fold1_isspace. destruct (isspace x); [exact IH | reflexivity].
Qed.

Lemma strip_fold1 s : strip (map fold1 s) = map fold1 (strip s).
Proof.
  unfold strip, rstrip.
  rewrite lstrip_fold1, <- map_rev, lstrip_fold1, map_rev. reflexivity.
Qed.

Lemma lstrip_Subseq s : Subseq (lstrip s) s.
Proof.
  induction s as [|x s IH]; simpl; [constructor|].
  destruct (isspace x); [constructor; exact IH | apply Subseq_refl].
Qed.

Lemma strip_Subseq s : Subseq (strip s) s.
Proof.
  unfold strip, rstrip.
  eapply Subseq_trans; [|apply lstrip_Subseq].
  rewrite <- (rev_involutive (lstrip s)) at 2.
  apply Subseq_rev. apply lstrip_Subseq.
Qed.

Lemma sub_scan_Subseq fl r : forall s p i skip,
  Subseq (sub_scan fl r p i skip s) s.
Proof.
  induction s as [|x s IH]; intros p i skip; simpl; [constructor|].
  destruct skip; [|apply Subseq_skip; apply IH].
  destruct (match_at fl r (start_cursor p i (x :: s))) as [e|].
  - destruct (pos e - i); [apply Subseq_keep | apply Subseq_skip]; apply IH.
  - apply Subseq_keep. apply IH.
Qed.

Lemma split_scan_Forall (P : char -> Prop) fl r : forall s p i skip cur,
  Forall P cur -> Forall P s ->
  Forall (Forall P) (split_scan fl r p i skip cur s).
Proof.
  induction s as [|x s IH]; intros p i skip cur Hc Hs; simpl.
  - constructor; [|constructor]. apply Forall_rev. exact Hc.
  - inversion Hs as [|? ? Hx Hs']; subst.
    assert (Hxc : Forall P (x :: cur)) by (constructor; assumption).
    destruct skip; [|apply IH; assumption].
    destruct (match_at fl r (start_cursor p i (x :: s))) as [e|].
    + destruct (pos e - i); [apply IH; assumption|].
      constructor; [apply Forall_rev; exact Hc|].
      apply IH; [constructor | assumption].
    + apply IH; assumption.
Qed.

End Fold.

(** ** The router never raises *)

Module RouterFacts.
Import Router RouterSpec.
Local Open Scope string_scope.
Local Open Scope list_scope.

Section WithUnicode.
Context {X : UnicodeExt}.

Lemma digit_not_sep x : isdecimal x = true -> (x =? 44)%N = false /\ (x =? 46)%N = false.
Proof.
  intros H. split; apply N.eqb_neq; intros ->; vm_compute in H; discriminate.
Qed.

Lemma replace1_app a b (l1 l2 : str) :
  replace1 a b (l1 ++ l2) = replace1 a b l1 ++ replace1 a b l2.
Proof. apply map_app. Qed.

Lemma replace1_cons a b x (l : str) :
  replace1 a b (x :: l) = (if (x =? a)%N then b else x) :: replace1 a b l.
Proof. reflexivity. Qed.

Lemma replace1_digits ds : all_digits ds -> replace1 44 46 ds = ds.
Proof.
  induction 1 as [|x ds Hx _ IH]; simpl; [reflexivity|].
  destruct (digit_not_sep x Hx) as [-> _]. rewrite IH. reflexivity.
Qed.

Lemma take_digits_app ds t :
  all_digits ds ->
  take_digits (ds ++ t)
  = (ds ++ fst (take_digits t), snd (take_digits t)).
Proof.
  induction 1 as [|x ds Hx _ IH]; simpl.
  - destruct (take_digits t); reflexivity.
  - rewrite Hx, IH. reflexivity.
Qed.

Lemma take_digits_all ds : all_digits ds -> take_digits ds = (ds, []).
Proof.
  intros H. rewrite <- (app_nil_r ds) at 1.
  rewrite take_digits_app by assumption. simpl. rewrite app_nil_r. reflexivity.
Qed.

Lemma float_of_int x ds :
  all_digits (x :: ds) -> exists v, float_of (x :: ds) = Ok v.
Proof.
  intros H. unfold float_of. rewrite take_digits_all by assumption.
  simpl. eauto.
Qed.

Lemma float_of_frac x ds y fs :
  all_digits (x :: ds) -> all_digits (y :: fs) ->
  exists v, float_of ((x :: ds) ++ 46%N :: y :: fs) = Ok v.
Proof.
  intros H1 H2. unfold float_of. rewrite take_digits_app by assumption.
  assert (E : take_digits (46%N :: y :: fs) = ([], 46%N :: y :: fs)).
  { reflexivity. }
  rewrite E. cbn [fst snd]. rewrite app_nil_r.
  rewrite take_digits_all by assumption. simpl. eauto.
Qed.

Ltac inv_match H := inversion H; subst; clear H.

Ltac inv_matches :=
  repeat match goal with
  | H : Matches _ (Cat _ _) _ _ _ |- _ => inv_match H
  | H : Matches _ (Alt _ _) _ _ _ |- _ => inv_match H
  | H : Matches _ (Group _) _ _ _ |- _ => inv_match H
  | H : Matches _ Bound _ _ _ |- _ => inv_match H
  | H : Matches _ Eps _ _ _ |- _ => inv_match H
  | H : Matches _ (Cls _) _ _ _ |- _ => inv_match H
  | H : Matches _ (Lit _) _ _ _ |- _ => inv_match H
  end.

Lemma cls_digit x :
  existsb (fun it => item_match re_none it x) [IDigit] = true ->
  isdecimal x = true.
Proof. simpl. rewrite orb_false_r. auto. Qed.

Lemma star_digits g c w c' :
  Matches re_none (Star g (Cls [IDigit])) c w c' -> all_digits w.
Proof.
  intros H. apply Matches_star_cls in H.
  eapply Forall_impl; [|exact H]. apply cls_digit.
Qed.

(** Group 1 of a match of \b(r)\b is the text that r consumed. *)
Lemma bounded_group fl r s p st w e :
  Matches fl (Cat Bound (Cat (Group r) Bound))
          (start_cursor p st (skipn st s)) w e ->
  exists c1, Matches fl r (start_cursor p st (skipn st s)) w c1
             /\ group1 s e = w.
Proof.
  intros M. inv_matches.
  match goal with H : Matches _ r _ ?w1 ?c1 |- _ =>
    exists c1; rewrite app_nil_r; split; [exact H|];
    destruct (Matches_consumes H) as [Hrest Hpos];
    simpl in Hrest, Hpos; unfold group1, substr; simpl;
    rewrite Hpos, Hrest;
    replace (st + length w1 - st) with (length w1) by lia;
    rewrite firstn_app, firstn_all, Nat.sub_diag; simpl; apply app_nil_r
  end.
Qed.

(** What group 1 of a DIGIT_NUMBER match holds. *)
Lemma digit_number_group s st d :
  search re_none DIGIT_NUMBER s = Some (st, d) ->
  exists x ds, all_digits (x :: ds) /\
    (group1 s d = x :: ds \/
     exists sep y fs, (sep = 46 \/ sep = 44)%N /\ all_digits (y :: fs) /\
       group1 s d = (x :: ds) ++ sep :: y :: fs).
Proof.
  unfold search. intros H. apply search_from_sound in H.
  destruct H as (p' & _ & H). rewrite Nat.sub_0_r in H.
  apply match_at_sound in H. destruct H as (w & M).
  cbv [DIGIT_NUMBER cat_all] in M. apply bounded_group in M.
  destruct M as (c1 & M & ->).
  cbv [plus opt digit] in M. inv_matches.
  all: repeat match goal with
       | H : existsb _ [IDigit] = true |- _ => apply cls_digit in H
       | H : Matches _ (Star _ (Cls [IDigit])) _ _ _ |- _ =>
           apply star_digits in H
       end.
  - match goal with
    | |- exists _ _, _ /\ (([?a] ++ ?b) ++ [?c] ++ [?e] ++ ?f = _ \/ _) =>
        exists a, b; split; [constructor; assumption|];
        right; exists c, e, f; split; [|split];
          [|constructor; assumption|reflexivity]
    end.
    match goal with
    | H : existsb _ [ILit 46; ILit 44] = true |- _ =>
        simpl in H; rewrite orb_false_r in H;
        apply orb_true_iff in H; destruct H as [E|E];
        apply N.eqb_eq in E; auto
    end.
  - match goal with
    | |- exists _ _, _ /\ (([?a] ++ ?b) ++ [] = _ \/ _) =>
        exists a, b; split; [constructor; assumption|];
        left; apply app_nil_r
    end.
Qed.

Lemma digit_number_float s st d :
  search re_none DIGIT_NUMBER s = Some (st, d) ->
  exists v, float_of (replace1 44 46 (group1 s d)) = Ok v.
Proof.
  intros H. apply digit_number_group in H.
  destruct H as (x & ds & Hd & [->|(sep & y & fs & Hsep & Hf & ->)]).
  - rewrite replace1_digits by assumption. apply float_of_int. assumption.
  - rewrite replace1_app, replace1_digits by assumption.
    rewrite replace1_cons, replace1_digits by assumption.
    destruct Hsep as [-> | ->];
      [change (46 =? 44)%N with false | change (44 =? 44)%N with true];
      cbv iota; apply float_of_frac; assumption.
Qed.

Lemma _extract_number_total text pat :
  exists o, _extract_number text pat = Ok o.
Proof.
  unfold _extract_number.
  destruct (search re_I pat text) as [[st e]|]; [|eauto].
  destruct (word_number _ WORD_NUMBERS); [eauto|].
  destruct (search re_none DIGIT_NUMBER _) as [[st' d]|] eqn:E; [|eauto].
  apply digit_number_float in E. destruct E as [v ->]. simpl. eauto.
Qed.

Lemma refine_total act text d : exists d', refine act text d = Ok d'.
Proof.
  unfold refine.
  destruct (_extract_number_total text METERS_PATTERN) as [o1 E1].
  destruct (_extract_number_total text DEGREES_PATTERN) as [o2 E2].
  rewrite E1, E2.
  destruct (String.eqb act "move"); simpl;
  destruct (String.eqb act "turn"); simpl;
  repeat match goal with |- context [found ?f ?r ?t] =>
           destruct (found f r t); simpl end;
  destruct (String.eqb act "look_up" || String.eqb act "look_down"); simpl;
  eauto.
Qed.

(** first_match returns None exactly when no pattern of the list is found,
    and otherwise the action of the first rule whose pattern is found. *)
Lemma first_match_none text rules :
  forallb (fun r => negb (found re_I (pattern r) text)) rules = true ->
  first_match text rules = Ok None.
Proof.
  induction rules as [|r rules IH]; simpl; [reflexivity|].
  intros H. apply andb_true_iff in H. destruct H as [H1 H2].
  apply negb_true_iff in H1. rewrite H1. auto.
Qed.

Lemma first_match_some text rules :
  forallb (fun r => negb (found re_I (pattern r) text)) rules = false ->
  exists a, first_match text rules = Ok (Some a).
Proof.
  induction rules as [|r rules IH]; simpl; [discriminate|].
  destruct (found re_I (pattern r) text); simpl.
  - intros _. destruct (refine_total (rule_action r) text (default_params r))
      as [d ->]. simpl. eauto.
  - exact IH.
Qed.

Lemma normal_empty_unmatched p : normal p = [] -> unmatched p = true.
Proof.
  intros E. unfold unmatched, has_keyword. rewrite E. vm_compute. reflexivity.
Qed.

Lemma _match_single_none p : unmatched p = true -> _match_single p = Ok None.
Proof.
  intros H. unfold _match_single. fold (normal p).
  destruct (is_empty (normal p)); [reflexivity|].
  apply first_match_none. exact H.
Qed.

Lemma _match_single_some p :
  unmatched p = false -> exists a, _match_single p = Ok (Some a).
Proof.
  intros H. unfold _match_single. fold (normal p).
  destruct (normal p) eqn:E.
  - rewrite normal_empty_unmatched in H by assumption. discriminate.
  - cbn [is_empty]. rewrite <- E. apply first_match_some. exact H.
Qed.

Lemma _match_single_total p : exists o, _match_single p = Ok o.
Proof.
  destruct (unmatched p) eqn:E.
  - rewrite _match_single_none by assumption. eauto.
  - destruct (_match_single_some p E) as [a ->]. eauto.
Qed.

Lemma _match_single_none_iff p :
  _match_single p = Ok None <-> unmatched p = true.
Proof.
  split; [|apply _match_single_none].
  destruct (unmatched p) eqn:E; [reflexivity|].
  destruct (_match_single_some p E) as [a ->]. discriminate.
Qed.

(** ** The shape of the result of route_command *)

Lemma match_parts_cases parts : forall acc,
  (match_parts parts acc = Ok None
   /\ exists p, In p parts /\ unmatched p = true)
  \/
  (exists acts,
     match_parts parts acc
     = Ok (Some {| matched := true; actions := acc ++ acts |})
     /\ Forall2 resolves parts acts).
Proof.
  induction parts as [|p parts IH]; intros acc; simpl.
  - right. exists []. rewrite app_nil_r. split; [reflexivity | constructor].
  - destruct (unmatched p) eqn:U.
    + left. rewrite _match_single_none by assumption. simpl.
      split; [reflexivity|]. exists p. auto.
    + destruct (_match_single_some p U) as [a Ea]. rewrite Ea. simpl.
      destruct (IH (acc ++ [a])) as [[E (q & Hq & Uq)]|(acts & E & F)].
      * left. split; [exact E|]. exists q. auto.
      * right. exists (a :: acts). rewrite <- app_assoc in E.
        split; [exact E|]. constructor; assumption.
Qed.

Lemma compound_parts_nil : compound_parts [] = [].
Proof. reflexivity. Qed.

Lemma segments_nil t : segments t = [] <-> strip_noise t = [].
Proof.
  unfold segments. destruct (strip_noise t) as [|c s] eqn:E; simpl.
  - tauto.
  - destruct (compound_parts (c :: s)) as [|p [|q l]]; simpl;
      split; discriminate.
Qed.

Lemma route_command_cases t :
  (route_command t = Ok None
   /\ (segments t = [] \/ exists p, In p (segments t) /\ unmatched p = true))
  \/
  (exists acts,
     route_command t = Ok (Some {| matched := true; actions := acts |})
     /\ Forall2 resolves (segments t) acts).
Proof.
  unfold route_command, segments.
  destruct (is_empty (strip_noise t)); [left; auto|].
  destruct (1 <? length (compound_parts (strip_noise t)))%nat.
  - destruct (match_parts_cases (compound_parts (strip_noise t)) [])
      as [[E H]|(acts & E & F)].
    + left. auto.
    + right. exists acts. auto.
  - destruct (unmatched (strip_noise t)) eqn:U.
    + left. rewrite _match_single_none by assumption. simpl.
      split; [reflexivity|]. right. exists (strip_noise t). simpl. auto.
    + right. destruct (_match_single_some _ U) as [a Ea]. rewrite Ea. simpl.
      exists [a]. split; [reflexivity|]. repeat constructor. exact Ea.
Qed.

Lemma resolves_matched p a : resolves p a -> unmatched p = false.
Proof.
  unfold resolves. intros H. destruct (unmatched p) eqn:U; [|reflexivity].
  rewrite _match_single_none in H by assumption. discriminate.
Qed.

Lemma Forall2_In_l A B (R : A -> B -> Prop) l1 l2 x :
  Forall2 R l1 l2 -> In x l1 ->
  exists i y, nth_error l1 i = Some x /\ nth_error l2 i = Some y /\ R x y.
Proof.
  induction 1 as [|a b l1 l2 Hab _ IH]; intros Hin; [destruct Hin|].
  destruct Hin as [->|Hin].
  - exists 0, b. auto.
  - destruct (IH Hin) as (i & y & H1 & H2 & H3). exists (S i), y. auto.
Qed.

Lemma first_match_head r rules text :
  found re_I (pattern r) text = true ->
  first_match text (r :: rules)
  = (p <- refine (rule_action r) text (default_params r) ;;
     Ok (Some {| action := rule_action r; params := p;
                 confirmation := rule_confirmation r |})).
Proof. intros H. simpl. rewrite H. reflexivity. Qed.

Lemma stop_resolves p :
  has_keyword stop_rule p = true -> resolves p stop_action.
Proof.
  unfold has_keyword, resolves, _match_single. fold (normal p). intros H.
  destruct (normal p) as [|c s] eqn:E; [vm_compute in H; discriminate|].
  cbn [is_empty]. unfold COMMAND_PATTERNS.
  rewrite first_match_head by assumption. reflexivity.
Qed.

(** ** Priority, compound commands and totality of route_command *)

Lemma Forall2_nth_l A B (R : A -> B -> Prop) l1 l2 :
  Forall2 R l1 l2 ->
  forall i x, nth_error l1 i = Some x ->
  exists y, nth_error l2 i = Some y /\ R x y.
Proof.
  induction 1 as [|a b l1 l2 Hab _ IH]; intros [|i] x Hx;
    try discriminate.
  - injection Hx as <-. exists b. auto.
  - apply (IH i x Hx).
Qed.

(** C1 (as amended): within one fragment the stop rule wins over every other
    rule.  For every input and every fragment p that route_command hands to
    _match_single (the whole de-noised text, or each part of a compound
    command), if p contains a stop keyword then p resolves to the stop
    action whatever else it contains; if p is the only fragment the result
    is the single stop action; and in every result the action at the
    position of p is the stop action.  When the input has two or more
    fragments the result is never the single stop action: it is None when
    some fragment matches no rule, and otherwise it has exactly one action
    per fragment, in order, each what its fragment resolves to, with the
    stop action at the position of every fragment that contains a stop
    keyword. *)
Theorem stop_wins_within_fragment t p :
  In p (segments t) ->
  has_keyword stop_rule p = true ->
  resolves p stop_action
  /\ (segments t = [p] -> route_command t = single stop_action)
  /\ (forall r, route_command t = Ok (Some r) ->
       exists i, nth_error (segments t) i = Some p
                 /\ nth_error (actions r) i = Some stop_action)
  /\ (2 <= length (segments t) ->
      route_command t <> single stop_action
      /\ ((exists q, In q (segments t) /\ unmatched q = true) ->
          route_command t = Ok None)
      /\ ((forall q, In q (segments t) -> unmatched q = false) ->
          exists acts,
            route_command t = several acts
            /\ length acts = length (segments t)
            /\ Forall2 resolves (segments t) acts
            /\ (forall i q,
                  nth_error (segments t) i = Some q ->
                  has_keyword stop_rule q = true ->
                  nth_error acts i = Some stop_action))).
Proof.
  intros Hin Hstop. pose proof (stop_resolves p Hstop) as Hres.
  assert (Hfun : forall a, resolves p a -> a = stop_action).
  { unfold resolves in *. intros a Ha. congruence. }
  split; [exact Hres|].
  destruct (route_command_cases t) as [[E H]|(acts & E & F)];
    (split; [|split]).
  - intros Hseg. exfalso. rewrite Hseg in H.
    destruct H as [H|(q & [<-|[]] & Uq)]; [discriminate|].
    rewrite (resolves_matched Hres) in Uq. discriminate.
  - intros r Hr. congruence.
  - intros Hlen. split; [rewrite E; discriminate|].
    split; [intros _; exact E|].
    intros Hall. exfalso. destruct H as [H|(q & Hq & Uq)].
    + rewrite H in Hlen. cbn in Hlen. lia.
    + rewrite (Hall q Hq) in Uq. discriminate.
  - intros Hseg. rewrite Hseg in F. inversion F as [|? a ? l Ha Hl]; subst.
    inversion Hl; subst. rewrite E, (Hfun a Ha). reflexivity.
  - intros r Hr. rewrite E in Hr. injection Hr as <-.
    destruct (Forall2_In_l p F Hin) as (i & y & H1 & H2 & H3).
    exists i. rewrite (Hfun y H3) in H2. auto.
  - intros Hlen. pose proof (Forall2_length F) as Hl.
    split; [|split].
    + rewrite E. unfold single. intros H. injection H as H.
      rewrite H in Hl. cbn in Hl. lia.
    + intros (q & Hq & Uq). exfalso.
      destruct (Forall2_In_l q F Hq) as (i & y & _ & _ & Hy).
      rewrite (resolves_matched Hy) in Uq. discriminate.
    + intros _. exists acts. split; [exact E|].
      split; [symmetry; exact Hl|]. split; [exact F|].
      intros i q Hi Hq. destruct (Forall2_nth_l F i Hi) as (y & Hy & Ry).
      rewrite Hy. f_equal. pose proof (stop_resolves q Hq) as Hs.
      unfold resolves in *. congruence.
Qed.

(** C3: for a compound utterance (two or more non-empty parts after the
    split on the conjunctive separators), if some part matches no rule then
    route_command returns None; and whenever it returns a result, every part
    has been resolved, in order: a partial list is never returned. *)
Theorem compound_all_or_nothing t :
  2 <= length (compound_parts (strip_noise t)) ->
  ((exists p, In p (compound_parts (strip_noise t)) /\ unmatched p = true) ->
   route_command t = Ok None)
  /\ (forall r, route_command t = Ok (Some r) ->
       Forall2 resolves (compound_parts (strip_noise t)) (actions r)).
Proof.
  intros Hlen.
  assert (Hseg : segments t = compound_parts (strip_noise t)).
  { unfold segments. destruct (strip_noise t) as [|c s].
    - rewrite compound_parts_nil in Hlen. simpl in Hlen. lia.
    - cbn [is_empty].
      destruct (Nat.ltb_spec 1 (length (compound_parts (c :: s))));
        [reflexivity | lia]. }
  rewrite <- Hseg.
  destruct (route_command_cases t) as [[E H]|(acts & E & F)]; split.
  - auto.
  - intros r Hr. congruence.
  - intros (p & Hin & U).
    destruct (Forall2_In_l p F Hin) as (i & y & _ & _ & H3).
    rewrite (resolves_matched H3) in U. discriminate.
  - intros r Hr. rewrite E in Hr. injection Hr as <-. exact F.
Qed.

(** C7: route_command never raises, whatever the input string; it returns
    None exactly when nothing is left after the noise words are removed or
    some fragment is matched by no rule of the table; in particular the
    empty string, a blank string and a question return None. *)
Theorem route_command_never_raises t :
  (exists o, route_command t = Ok o)
  /\ (route_command t = Ok None <->
      strip_noise t = [] \/
      exists p, In p (segments t) /\ unmatched p = true)
  /\ route_command (u "") = Ok None
  /\ route_command (u "   ") = Ok None
  /\ route_command (u "cuál es la capital de Francia") = Ok None.
Proof.
  split; [|split; [|repeat split; vm_compute; reflexivity]].
  - destruct (route_command_cases t) as [[E _]|(acts & E & _)];
      rewrite E; eauto.
  - rewrite <- segments_nil.
    destruct (route_command_cases t) as [[E H]|(acts & E & F)].
    + tauto.
    + split; [rewrite E; discriminate|].
      intros [H|(p & Hin & U)]; exfalso.
      * rewrite H in F. inversion F; subst.
        revert E. unfold route_command.
        apply segments_nil in H. rewrite H. discriminate.
      * destruct (Forall2_In_l p F Hin) as (i & y & _ & _ & H3).
        rewrite (resolves_matched H3) in U. discriminate.
Qed.

(** ** Case of the input *)

Lemma lower_from_latin1 s : forall b, Latin1 s -> lower_from b s = map fold1 s.
Proof.
  induction s as [|c s IH]; intros b H; simpl; [reflexivity|].
  inversion H as [|? ? Hc Hs]; subst.
  unfold fold1 at 1. rewrite Hc, IH by assumption. reflexivity.
Qed.

Lemma lower_latin1 s : Latin1 s -> lower s = map fold1 s.
Proof. apply lower_from_latin1. Qed.

Lemma Latin1_fold1 s : Latin1 s -> Latin1 (map fold1 s).
Proof.
  intros H. apply Forall_map. eapply Forall_impl; [|exact H].
  intros c Hc. simpl. rewrite fold1_latin1. exact Hc.
Qed.

Lemma Latin1_strip s : Latin1 s -> Latin1 (strip s).
Proof. apply Subseq_Forall. apply strip_Subseq. Qed.

Lemma map_fold1_idem s : map fold1 (map fold1 s) = map fold1 s.
Proof.
  rewrite map_map. apply map_ext. apply fold1_idem.
Qed.

Lemma normal_fold1 p : Latin1 p -> normal (map fold1 p) = normal p.
Proof.
  intros H. unfold normal.
  rewrite strip_fold1.
  rewrite !lower_latin1
    by (try apply Latin1_fold1; apply Latin1_strip; exact H).
  apply map_fold1_idem.
Qed.

Lemma _match_single_normal p q :
  normal p = normal q -> _match_single p = _match_single q.
Proof.
  intros H. unfold _match_single. fold (normal p). fold (normal q).
  rewrite H. reflexivity.
Qed.

Lemma is_empty_map (f : char -> char) s : is_empty (map f s) = is_empty s.
Proof. destruct s; reflexivity. Qed.

Lemma strip_noise_fold1 t : strip_noise (map fold1 t) = map fold1 (strip_noise t).
Proof.
  unfold strip_noise, sub_empty.
  pose proof (@sub_scan_fold1 X re_I eq_refl FILLER eq_refl t None 0 0) as H.
  cbn [option_map] in H. rewrite H. apply strip_fold1.
Qed.

Lemma filter_nonempty_map (f : char -> char) (l : list str) :
  filter (fun p => negb (is_empty p)) (map (map f) l)
  = map (map f) (filter (fun p => negb (is_empty p)) l).
Proof.
  induction l as [|p l IH]; simpl; [reflexivity|].
  rewrite is_empty_map. destruct (is_empty p); simpl; rewrite IH; reflexivity.
Qed.

Lemma compound_parts_fold1 c :
  compound_parts (map fold1 c) = map (map fold1) (compound_parts c).
Proof.
  unfold compound_parts, split.
  pose proof (@split_scan_fold1 X re_I eq_refl COMPOUND_SPLITTER eq_refl
                c None 0 0 []) as H.
  cbn [option_map map] in H. rewrite H.
  rewrite <- filter_nonempty_map. f_equal.
  rewrite !map_map. apply map_ext. intros p. apply strip_fold1.
Qed.

Lemma compound_parts_Latin1 c :
  Latin1 c -> Forall Latin1 (compound_parts c).
Proof.
  intros H. unfold compound_parts, split.
  apply Forall_forall. intros p Hp. apply filter_In in Hp.
  destruct Hp as [Hp _]. apply in_map_iff in Hp.
  destruct Hp as (q & <- & Hq). apply Latin1_strip.
  pose proof (@split_scan_Forall X (fun c => latin1 c = true) re_I
                COMPOUND_SPLITTER c None 0 0 [] (Forall_nil _) H) as HF.
  rewrite Forall_forall in HF. apply HF. exact Hq.
Qed.

Lemma match_parts_fold1 parts : forall acc,
  Forall Latin1 parts ->
  match_parts (map (map fold1) parts) acc = match_parts parts acc.
Proof.
  induction parts as [|p parts IH]; intros acc H; simpl; [reflexivity|].
  inversion H as [|? ? Hp Hps]; subst.
  rewrite (_match_single_normal _ p (normal_fold1 Hp)).
  destruct (_match_single p) as [[a|]|e]; simpl; auto.
Qed.

Lemma route_command_fold1 t :
  Latin1 t -> route_command (map fold1 t) = route_command t.
Proof.
  intros H. unfold route_command.
  assert (Hc : Latin1 (strip_noise t)).
  { unfold strip_noise. apply Latin1_strip.
    eapply Subseq_Forall; [apply sub_scan_Subseq | exact H]. }
  rewrite strip_noise_fold1, is_empty_map, compound_parts_fold1, length_map.
  rewrite match_parts_fold1 by (apply compound_parts_Latin1; exact Hc).
  rewrite (_match_single_normal _ (strip_noise t) (normal_fold1 Hc)).
  reflexivity.
Qed.

(** C10 (as amended): on input written with Basic Latin and Latin-1
    Supplement characters route_command is insensitive to letter case: the
    result for t is the result for lowercase(t), hence the same for any two
    such inputs with equal lowercase forms. *)
Theorem route_command_case_insensitive t :
  Latin1 t ->
  route_command (lower t) = route_command t
  /\ (forall t', Latin1 t' -> lower t' = lower t ->
       route_command t' = route_command t).
Proof.
  intros H.
  assert (E : forall s, Latin1 s -> route_command (lower s) = route_command s).
  { intros s Hs. rewrite lower_latin1 by assumption.
    apply route_command_fold1. assumption. }
  split; [apply E; exact H|].
  intros t' H' El. rewrite <- (E t' H'), <- (E t H), El. reflexivity.
Qed.

End WithUnicode.
End RouterFacts.

(** ** The sentence segmenter *)

Module EngineFacts.
Import Engine EngineSpec.
Local Open Scope string_scope.
Local Open Scope list_scope.

Lemma startswith_app a s1 s2 :
  startswith a s1 = true -> startswith a (s1 ++ s2) = true.
Proof.
  revert s1. induction a as [|x a IH]; intros s1 H; [reflexivity|].
  destruct s1 as [|y s1]; [discriminate|]. simpl in *.
  apply andb_true_iff in H. destruct H as [H1 H2].
  rewrite H1, IH by assumption. reflexivity.
Qed.

Lemma contains_app a s1 s2 :
  contains a s1 = true -> contains a (s1 ++ s2) = true.
Proof.
  induction s1 as [|y s1 IH]; intros H.
  - simpl in H. rewrite orb_false_r in H.
    destruct a; [|discriminate]. destruct s2; reflexivity.
  - cbn [contains app] in *. apply orb_true_iff in H.
    destruct H as [H|H].
    + pose proof (startswith_app a (y :: s1) s2 H) as H'.
      cbn [app] in H'. rewrite H'. reflexivity.
    + rewrite IH by assumption. apply orb_true_r.
Qed.

Lemma contains_app_false a s1 s2 :
  contains a (s1 ++ s2) = false -> contains a s1 = false.
Proof.
  intros H. destruct (contains a s1) eqn:E; [|reflexivity].
  rewrite contains_app in H by assumption. discriminate.
Qed.

Lemma startswith_self a r : startswith a (a ++ r) = true.
Proof.
  induction a as [|x a IH]; [reflexivity|]. simpl.
  rewrite N.eqb_refl. exact IH.
Qed.

Lemma startswith_length a : forall s,
  startswith a s = true -> length a <= length s.
Proof.
  induction a as [|x a IH]; intros s H; simpl; [lia|].
  destruct s as [|y s]; [discriminate|]. simpl in *.
  apply andb_true_iff in H. destruct H as [_ H]. apply IH in H. lia.
Qed.

Lemma startswith_short a : forall s t,
  length a <= length s -> startswith a (s ++ t) = startswith a s.
Proof.
  induction a as [|x a IH]; intros s t H; [reflexivity|].
  destruct s as [|y s]; simpl in *; [lia|].
  rewrite IH by lia. reflexivity.
Qed.

(** A prefix of s ++ t either is a prefix of s or runs over into t. *)
Lemma startswith_split a : forall s t,
  startswith a (s ++ t) = true ->
  startswith a s = true
  \/ (length s < length a /\ startswith (skipn (length s) a) t = true).
Proof.
  induction a as [|x a IH]; intros s t H; [left; reflexivity|].
  destruct s as [|y s].
  - right. simpl. split; [lia | exact H].
  - simpl in H. apply andb_true_iff in H. destruct H as [H1 H2].
    destruct (IH s t H2) as [E|[L E]].
    + left. simpl. rewrite H1, E. reflexivity.
    + right. simpl. split; [lia | exact E].
Qed.

Lemma contains_startswith a s : contains a s = false -> startswith a s = false.
Proof.
  destruct s; simpl; intros H; apply orb_false_iff in H; tauto.
Qed.

Lemma contains_short a : forall s, length s < length a -> contains a s = false.
Proof.
  induction s as [|y s IH]; intros H.
  - destruct a; [simpl in H; lia | reflexivity].
  - cbn [contains]. rewrite IH by (simpl in H; lia).
    destruct (startswith a (y :: s)) eqn:E; [|reflexivity].
    apply startswith_length in E. lia.
Qed.

Lemma contains_suffix_false a s1 s2 :
  contains a (s1 ++ s2) = false -> contains a s2 = false.
Proof.
  induction s1 as [|y s1 IH]; [auto|]. cbn [app contains].
  intros H. apply orb_false_iff in H. tauto.
Qed.

Lemma contains_end a s : contains a (s ++ a) = true.
Proof.
  induction s as [|y s IH]; cbn [app].
  - destruct a as [|x a]; [reflexivity|]. cbn [contains].
    pose proof (startswith_self (x :: a) []) as H. rewrite app_nil_r in H.
    rewrite H. reflexivity.
  - cbn [contains]. rewrite IH. apply orb_true_r.
Qed.

(** A text without a occurrence of a, followed by a proper prefix of a, has
    no occurrence of a either when a has no border. *)
Lemma contains_proper_prefix a c r :
  has_border a = false -> a = c ++ r -> r <> [] ->
  forall s, contains a s = false -> contains a (s ++ c) = false.
Proof.
  intros Hb Ea Hr.
  assert (Hc : length c < length a).
  { rewrite Ea, length_app. destruct r; [congruence | simpl; lia]. }
  induction s as [|y s IH]; intros H.
  - apply contains_short. exact Hc.
  - cbn [app contains] in *. apply orb_false_iff in H. destruct H as [H1 H2].
    rewrite (IH H2), orb_false_r.
    destruct (startswith a (y :: s ++ c)) eqn:E; [|reflexivity].
    exfalso. destruct (startswith_split a (y :: s) c E) as [E'|[L E']].
    + congruence.
    + assert (Eb : startswith (skipn (length (y :: s)) a) a = true).
      { rewrite Ea at 2. apply startswith_app. exact E'. }
      unfold has_border in Hb.
      assert (Hex : existsb (fun k => startswith (skipn k a) a)
                            (seq 1 (length a - 1)) = true).
      { apply existsb_exists. exists (length (y :: s)). split; [|exact Eb].
        apply in_seq. simpl in *. lia. }
      congruence.
Qed.

Lemma has_marker_app s1 s2 :
  has_marker (s1 ++ s2) = has_marker s1 || has_marker s2.
Proof. apply existsb_app. Qed.

Section WithUnicode.
Context {X : UnicodeExt}.

Lemma match_sentence_end_none p i s :
  has_marker (firstn 1 s) = false ->
  match_at re_none SENTENCE_END (start_cursor p i s) = None.
Proof.
  destruct s as [|x s]; [reflexivity|].
  unfold has_marker, is_marker. cbn [firstn existsb].
  rewrite !orb_false_r. intros H.
  repeat (apply orb_false_iff in H; destruct H as [? H]).
  assert (T1 : existsb (fun it => item_match re_none it x)
                 [ILit 46; ILit 33; ILit 63; ILit 59; ILit 12290] = false).
  { cbn [existsb item_match]. unfold lit_match. cbn [ignorecase re_none].
    rewrite (N.eqb_sym 46), (N.eqb_sym 33), (N.eqb_sym 63), (N.eqb_sym 59),
      (N.eqb_sym 12290).
    repeat match goal with
           | E : (x =? _)%N = false |- _ => rewrite E; clear E
           end.
    reflexivity. }
  assert (T2 : lit_match re_none 10 x = false).
  { unfold lit_match. cbn [ignorecase re_none]. rewrite N.eqb_sym.
    assumption. }
  unfold match_at, SENTENCE_END. cbn [m]. unfold eat.
  cbn [rest start_cursor]. rewrite T1, T2. reflexivity.
Qed.

Lemma search_sentence_end_none s : forall p i,
  has_marker s = false -> search_from re_none SENTENCE_END p i s = None.
Proof.
  induction s as [|x s IH]; intros p i H; simpl.
  - reflexivity.
  - rewrite match_sentence_end_none.
    + apply IH. simpl in H. apply orb_false_iff in H. tauto.
    + simpl in *. apply orb_false_iff in H. rewrite orb_false_r. tauto.
Qed.

Lemma boundary_none buf :
  has_marker buf = false ->
  boundary buf = ({| buffer := buf; in_think_block := false |}, []).
Proof.
  intros H. unfold boundary, search.
  rewrite search_sentence_end_none by assumption. reflexivity.
Qed.

Lemma run_nil st : run st [] = finish st.
Proof. reflexivity. Qed.

Lemma run_cons st t ts :
  run st (t :: ts) = snd (step st t) ++ run (fst (step st t)) ts.
Proof.
  unfold run. cbn [loop]. destruct (step st t) as [st1 out1]. cbn [fst snd].
  destruct (loop st1 ts) as [st2 out2]. apply eq_sym, app_assoc.
Qed.

Lemma loop_unmarked ts : forall b,
  has_marker (b ++ concat ts) = false ->
  contains think_open (b ++ concat ts) = false ->
  loop {| buffer := b; in_think_block := false |} ts
  = ({| buffer := b ++ concat ts; in_think_block := false |}, []).
Proof.
  induction ts as [|t ts IH]; intros b Hm Hc; cbn [loop].
  - cbn [concat]. rewrite app_nil_r. reflexivity.
  - assert (Hs : step {| buffer := b; in_think_block := false |} t
                 = ({| buffer := b ++ t; in_think_block := false |}, [])).
    { unfold step. destruct t as [|x t].
      - cbn [Router.is_empty]. rewrite app_nil_r. reflexivity.
      - cbn [Router.is_empty buffer in_think_block orb].
        cbn [concat] in Hm, Hc. rewrite app_assoc in Hm, Hc.
        rewrite (contains_app_false _ _ _ Hc).
        apply boundary_none.
        rewrite has_marker_app in Hm. apply orb_false_iff in Hm. tauto. }
    rewrite Hs. cbn [concat] in Hm, Hc. rewrite app_assoc in Hm, Hc.
    rewrite (IH (b ++ t) Hm Hc), <- app_assoc. reflexivity.
Qed.

(** C8: for a stream with no sentence-boundary marker and no reasoning
    delimiter, whose text is not blank, the loop yields nothing and keeps
    the whole text in the buffer, and generate_stream yields exactly one
    sentence, the trimmed text of the whole stream, when the stream ends. *)
Theorem unmarked_stream_one_sentence ts :
  has_marker (concat ts) = false ->
  contains think_open (concat ts) = false ->
  strip (concat ts) <> [] ->
  loop init ts = ({| buffer := concat ts; in_think_block := false |}, [])
  /\ generate_stream ts = [strip (concat ts)].
Proof.
  intros Hm Hc Hne.
  pose proof (loop_unmarked ts [] Hm Hc) as H. cbn [app] in H.
  split; [exact H|].
  unfold generate_stream, run, init. rewrite H. unfold finish. simpl.
  destruct (strip (concat ts)); [congruence | reflexivity].
Qed.

(** Empty tokens are skipped. *)
Lemma run_skip_empty ts : forall st,
  run st (filter (fun t => negb (Router.is_empty t)) ts) = run st ts.
Proof.
  induction ts as [|t ts IH]; intros st; [reflexivity|].
  destruct t as [|x t]; cbn [filter Router.is_empty negb].
  - rewrite (run_cons st [] ts). apply IH.
  - rewrite !run_cons, IH. reflexivity.
Qed.

Lemma concat_skip_empty (ts : list str) :
  concat (filter (fun t => negb (Router.is_empty t)) ts) = concat ts.
Proof.
  induction ts as [|t ts IH]; [reflexivity|].
  destruct t as [|x t]; simpl; rewrite IH; reflexivity.
Qed.

Lemma filter_nonempty (ts : list str) :
  Forall (fun t => t <> [])
         (filter (fun t => negb (Router.is_empty t)) ts).
Proof.
  apply Forall_forall. intros t Ht. apply filter_In in Ht.
  destruct Ht as [_ Ht]. destruct t; [discriminate | discriminate].
Qed.

Lemma tokenizations_single x ts :
  In ts (tokenizations (concat ts)) ->
  In ([x] :: ts) (tokenizations (x :: concat ts)).
Proof.
  intros H. cbn [tokenizations]. apply in_flat_map. exists ts.
  split; [exact H|]. destruct ts; simpl; auto.
Qed.

Lemma tokenizations_extend x t ts :
  In (t :: ts) (tokenizations (concat (t :: ts))) ->
  In ((x :: t) :: ts) (tokenizations (x :: concat (t :: ts))).
Proof.
  intros H. cbn [tokenizations]. apply in_flat_map. exists (t :: ts).
  split; [exact H|]. simpl. auto.
Qed.

Lemma tokenizations_complete (ts : list str) :
  Forall (fun t => t <> []) ts -> In ts (tokenizations (concat ts)).
Proof.
  induction 1 as [|t ts Ht _ IH]; [simpl; auto|].
  destruct t as [|x t]; [congruence|]. clear Ht.
  revert x. induction t as [|y t IHt]; intros x.
  - apply (tokenizations_single x ts IH).
  - apply (tokenizations_extend x (y :: t) ts). apply IHt.
Qed.

(** Whatever the segmenter yields was generated, in that order, and no
    character of the stream is used twice. *)
Lemma boundary_Subseq buf :
  Subseq (concat (snd (boundary buf)) ++ buffer (fst (boundary buf))) buf.
Proof.
  unfold boundary.
  destruct (search re_none SENTENCE_END buf) as [[st e]|]; simpl.
  - apply (@Subseq_trans _ _ (firstn (pos e) buf ++ skipn (pos e) buf));
      [|rewrite firstn_skipn; apply Subseq_refl].
    apply Subseq_app; [|apply Subseq_refl].
    destruct (strip (firstn (pos e) buf)) eqn:E; simpl.
    + apply Subseq_nil_l.
    + rewrite app_nil_r, <- E. apply strip_Subseq.
  - apply Subseq_refl.
Qed.

Lemma step_Subseq st t :
  Subseq (concat (snd (step st t)) ++ buffer (fst (step st t)))
         (buffer st ++ t).
Proof.
  unfold step. destruct t as [|x t]; simpl Router.is_empty; cbv iota.
  - simpl. rewrite app_nil_r. apply Subseq_refl.
  - destruct (in_think_block st || contains think_open (buffer st ++ x :: t)).
    + destruct (contains think_close (buffer st ++ x :: t)).
      * eapply Subseq_trans; [apply boundary_Subseq|].
        apply sub_scan_Subseq.
      * simpl. apply Subseq_refl.
    + apply boundary_Subseq.
Qed.

Lemma run_Subseq ts : forall st,
  Subseq (concat (run st ts)) (buffer st ++ concat ts).
Proof.
  induction ts as [|t ts IH]; intros st.
  - rewrite run_nil. cbn [concat]. rewrite app_nil_r. unfold finish.
    destruct (negb (Router.is_empty (strip (buffer st)))
              && negb (in_think_block st)); simpl.
    + rewrite app_nil_r. apply strip_Subseq.
    + apply Subseq_nil_l.
  - rewrite run_cons. pose proof (step_Subseq st t) as Hs.
    destruct (step st t) as [st' out]. cbn [fst snd] in *.
    cbn [concat]. rewrite concat_app, app_assoc.
    eapply Subseq_trans;
      [|apply Subseq_app; [exact Hs | apply Subseq_refl]].
    rewrite <- app_assoc. apply Subseq_app; [apply Subseq_refl | apply IH].
Qed.

Lemma hola_adios_check :
  forallb (fun ts => strs_eqb (generate_stream ts) [u "Hola."; u "Adiós"])
          (tokenizations (u "Hola. Adiós")) = true.
Proof. vm_compute. reflexivity. Qed.

(** C4: every stream whose tokens spell "Hola. Adiós", however it is cut
    into tokens, yields exactly the sentences "Hola." and "Adiós" in that
    order; and for every stream the sentences, read one after the other,
    are a subsequence of the generated text: they come out in generation
    order and no part of the stream is yielded twice. *)
Theorem sentences_in_generation_order ts :
  (concat ts = u "Hola. Adiós" ->
   generate_stream ts = [u "Hola."; u "Adiós"])
  /\ Subseq (concat (generate_stream ts)) (concat ts).
Proof.
  split.
  - intros E. unfold generate_stream. rewrite <- run_skip_empty.
    pose proof (tokenizations_complete (filter_nonempty ts)) as Hin.
    rewrite concat_skip_empty, E in Hin.
    pose proof (proj1 (forallb_forall _ _) hola_adios_check _ Hin) as H.
    unfold strs_eqb, generate_stream in H.
    destruct (list_eq_dec _ _ _) as [Eq|]; [exact Eq | discriminate].
  - apply (run_Subseq ts init).
Qed.

(** *** A stream that is one reasoning block *)

Lemma advance_over_rest w : forall c r,
  rest c = w ++ r ->
  rest (advance_over c w) = r /\ pos (advance_over c w) = pos c + length w.
Proof.
  induction w as [|x w IH]; intros c r H; simpl.
  - split; [exact H | lia].
  - rewrite H. simpl. destruct (IH (advance c x (w ++ r)) r eq_refl) as [E P].
    split; [exact E|]. rewrite P. simpl. lia.
Qed.

(** A literal word, matched case-sensitively. *)
Lemma m_word A fl (w : str) :
  ignorecase fl = false ->
  forall c (k : cursor -> option A),
    m fl (cat_all (map Lit w)) c k
    = if startswith w (rest c) then k (advance_over c w) else None.
Proof.
  intros Hfl. induction w as [|x w IH]; intros c k; [reflexivity|].
  assert (Heat : forall k' : cursor -> option A,
    eat (lit_match fl x) c k'
    = match rest c with
      | z :: r => if (x =? z)%N then k' (advance c x (tl (rest c))) else None
      | [] => None
      end).
  { intros k'. unfold eat, lit_match. rewrite Hfl.
    destruct (rest c) as [|z r]; [reflexivity|].
    destruct (N.eqb_spec x z) as [->|]; reflexivity. }
  destruct w as [|y w].
  - cbn [map cat_all m advance_over]. rewrite Heat.
    destruct (rest c) as [|z r]; [reflexivity|]. cbn [startswith tl].
    destruct (x =? z)%N; reflexivity.
  - change (cat_all (map Lit (x :: y :: w)))
      with (Cat (Lit x) (cat_all (map Lit (y :: w)))).
    cbn [m]. rewrite Heat.
    change (advance_over c (x :: y :: w))
      with (advance_over (advance c x (tl (rest c))) (y :: w)).
    destruct (rest c) as [|z r]; [reflexivity|].
    cbn [startswith tl]. destruct (x =? z)%N; [|reflexivity].
    rewrite IH. reflexivity.
Qed.

(** The lazy [.*?] before a literal word stops at the first occurrence of
    the word. *)
Lemma lazy_until_word (a : str) : forall b n c,
  rest c = b ++ a ->
  length b <= n ->
  (forall b1 b2, b = b1 ++ b2 -> b2 <> [] -> startswith a (b2 ++ a) = false) ->
  exists e,
    star_loop (eat (dot_match re_DOTALL)) false n c
      (fun c2 => m re_DOTALL (cat_all (map Lit a)) c2 (fun c' => Some c'))
    = Some e
    /\ pos e = pos c + length b + length a.
Proof.
  induction b as [|y b IH]; intros n c Hr Hn Hb.
  - assert (Hk : m re_DOTALL (cat_all (map Lit a)) c (fun c' => Some c')
                 = Some (advance_over c a)).
    { rewrite m_word by reflexivity. rewrite Hr. simpl.
      pose proof (startswith_self a []) as H. rewrite app_nil_r in H.
      rewrite H. reflexivity. }
    exists (advance_over c a). split.
    + destruct n; simpl; rewrite Hk; reflexivity.
    + simpl in Hr. rewrite <- (app_nil_r a) in Hr.
      destruct (advance_over_rest a c [] Hr) as [_ P]. rewrite P. simpl. lia.
  - destruct n as [|n]; [simpl in Hn; lia|].
    assert (Hk : m re_DOTALL (cat_all (map Lit a)) c (fun c' => Some c')
                 = None).
    { rewrite m_word by reflexivity. rewrite Hr.
      rewrite (Hb [] (y :: b) eq_refl) by discriminate. reflexivity. }
    cbn [star_loop]. rewrite Hk. cbn [orelse].
    unfold eat at 1. rewrite Hr. cbn [app].
    change (dot_match re_DOTALL y) with true. cbv iota.
    cbn [pos]. rewrite (proj2 (Nat.ltb_lt (pos c) (S (pos c)))) by lia.
    destruct (IH n {| prev := Some y; rest := b ++ a; pos := S (pos c);
                      grp := grp c |} eq_refl) as (e & He & Pe).
    + simpl in Hn. lia.
    + intros b1 b2 E Hne. apply (Hb (y :: b1) b2); [rewrite E; reflexivity|].
      exact Hne.
    + exists e. split; [exact He|]. rewrite Pe. simpl. lia.
Qed.

Lemma sub_scan_skip fl r : forall s p i k,
  length s <= k -> sub_scan fl r p i k s = [].
Proof.
  induction s as [|x s IH]; intros p i k H; [reflexivity|].
  destruct k as [|k]; [simpl in H; lia|]. simpl. apply IH. simpl in H. lia.
Qed.

Lemma think_close_no_border : has_border think_close = false.
Proof. vm_compute. reflexivity. Qed.

Lemma close_after_open z :
  contains think_close (think_open ++ z) = contains think_close z.
Proof. reflexivity. Qed.

(** No suffix of a text without "</think>" runs into a following
    "</think>" before its start. *)
Lemma close_not_early body b1 b2 :
  contains think_close body = false ->
  body = b1 ++ b2 -> b2 <> [] ->
  startswith think_close (b2 ++ think_close) = false.
Proof.
  intros Hc -> Hne. apply contains_suffix_false in Hc.
  assert (E : think_close = firstn 7 think_close ++ [62%N]) by reflexivity.
  pose proof (@contains_proper_prefix think_close _ _
                think_close_no_border E ltac:(discriminate) b2 Hc) as H.
  apply contains_startswith in H.
  rewrite E at 2. rewrite app_assoc, startswith_short; [exact H|].
  rewrite length_app. destruct b2; [congruence|]. simpl. lia.
Qed.

Lemma block_removed body :
  contains think_close body = false ->
  sub_empty re_DOTALL THINK_PATTERN (think_open ++ body ++ think_close) = [].
Proof.
  intros Hc.
  assert (Hm : exists e,
    match_at re_DOTALL THINK_PATTERN
      (start_cursor None 0 (think_open ++ body ++ think_close)) = Some e
    /\ pos e = length (think_open ++ body ++ think_close)).
  { unfold match_at.
    change THINK_PATTERN
      with (Cat (cat_all (map Lit think_open))
                (Cat (Star false Dot) (cat_all (map Lit think_close)))).
    cbn [m]. rewrite m_word by reflexivity.
    cbn [rest start_cursor]. rewrite startswith_self.
    set (c1 := advance_over _ think_open).
    destruct (advance_over_rest think_open
                (start_cursor None 0 (think_open ++ body ++ think_close))
                (body ++ think_close) eq_refl) as [R P].
    fold c1 in R, P.
    destruct (@lazy_until_word think_close body (S (length (rest c1))) c1 R)
      as (e & He & Pe).
    - rewrite R, length_app. lia.
    - intros b1 b2. apply close_not_early. exact Hc.
    - exists e. split; [exact He|].
      rewrite Pe, P, !length_app. simpl. lia. }
  destruct Hm as (e & He & Pe). unfold sub_empty.
  change (think_open ++ body ++ think_close)
    with (60%N :: tl think_open ++ body ++ think_close) in *.
  cbn [sub_scan]. rewrite He, Pe, Nat.sub_0_r. cbn [length].
  apply sub_scan_skip. lia.
Qed.

Lemma loop_empty_tokens ts : forall st, concat ts = [] -> loop st ts = (st, []).
Proof.
  induction ts as [|t ts IH]; intros st H; [reflexivity|].
  cbn [concat] in H. apply app_eq_nil in H. destruct H as [-> H].
  cbn [loop]. unfold step at 1. cbn [Router.is_empty].
  rewrite IH by assumption. reflexivity.
Qed.

Lemma before_open_no_marker p q z :
  p ++ q = think_open ++ z -> contains think_open p = false ->
  has_marker p = false.
Proof.
  intros E Hc. apply app_eq_app in E.
  destruct E as (l & [[-> _]|[E _]]).
  - rewrite contains_app in Hc; [discriminate | reflexivity].
  - assert (H : has_marker think_open = false) by reflexivity.
    rewrite E, has_marker_app in H. apply orb_false_iff in H. tauto.
Qed.

Lemma proper_prefix_no_close body p q :
  contains think_close body = false ->
  p ++ q = think_open ++ body ++ think_close -> q <> [] ->
  contains think_close p = false.
Proof.
  intros Hc E Hq. apply app_eq_app in E.
  destruct E as (l & [[-> E]|[E _]]).
  - rewrite close_after_open. symmetry in E. apply app_eq_app in E.
    destruct E as (l2 & [[-> E]|[E _]]).
    + apply (@contains_proper_prefix think_close _ _
               think_close_no_border E Hq).
      exact Hc.
    + rewrite E in Hc. apply contains_app_false in Hc. exact Hc.
  - apply contains_short.
    assert (H : length think_open = 7) by reflexivity.
    rewrite E, length_app in H. change (length think_close) with 8. lia.
Qed.

Lemma loop_block body :
  contains think_close body = false ->
  forall ts p,
    p ++ concat ts = think_open ++ body ++ think_close ->
    concat ts <> [] ->
    loop {| buffer := p; in_think_block := contains think_open p |} ts
    = ({| buffer := []; in_think_block := false |}, []).
Proof.
  intros Hc. induction ts as [|t ts IH]; intros p E Hne;
    [exfalso; apply Hne; reflexivity|].
  cbn [concat] in E, Hne. cbn [loop]. destruct t as [|x t].
  - unfold step at 1. cbn [Router.is_empty].
    rewrite (IH p E Hne). reflexivity.
  - unfold step at 1. cbn [Router.is_empty buffer in_think_block].
    rewrite app_assoc in E.
    destruct (concat ts) as [|y l] eqn:Ec.
    + rewrite app_nil_r in E. rewrite E.
      rewrite (contains_app think_open think_open (body ++ think_close))
        by reflexivity.
      rewrite orb_true_r.
      rewrite (app_assoc think_open body think_close), contains_end.
      rewrite <- app_assoc, block_removed by assumption.
      change (boundary []) with
        ({| buffer := []; in_think_block := false |}, @nil str).
      cbv beta iota. rewrite loop_empty_tokens by assumption. reflexivity.
    + assert (Hs :
        (if contains think_open p || contains think_open (p ++ x :: t)
         then if contains think_close (p ++ x :: t)
              then boundary (sub_empty re_DOTALL THINK_PATTERN (p ++ x :: t))
              else ({| buffer := p ++ x :: t; in_think_block := true |}, [])
         else boundary (p ++ x :: t))
        = ({| buffer := p ++ x :: t;
              in_think_block := contains think_open (p ++ x :: t) |}, [])).
      { destruct (contains think_open (p ++ x :: t)) eqn:E1.
        - rewrite orb_true_r.
          rewrite (@proper_prefix_no_close body (p ++ x :: t) (y :: l) Hc E)
            by discriminate.
          reflexivity.
        - rewrite (contains_app_false _ _ _ E1). cbn [orb].
          apply boundary_none.
          apply (@before_open_no_marker _ _ _ E E1). }
      rewrite Hs. cbv beta iota.
      rewrite (IH (p ++ x :: t) E) by discriminate.
      reflexivity.
Qed.

(** The part of C2 about a stream that is one reasoning block: however the
    text "<think>" body "</think>" is cut into tokens, nothing is yielded. *)
Lemma reasoning_only_stream body ts :
  contains think_close body = false ->
  concat ts = think_open ++ body ++ think_close ->
  generate_stream ts = [].
Proof.
  intros Hc E. unfold generate_stream, run, init.
  change false with (contains think_open []) at 1.
  rewrite (loop_block body Hc ts [] E) by (rewrite E; discriminate).
  reflexivity.
Qed.

(** The part of C2 about the end of the stream: when the loop ends with
    the flag in_think_block set, nothing more is yielded. *)
Lemma unterminated_block_dropped ts :
  in_think_block (fst (loop init ts)) = true ->
  generate_stream ts = snd (loop init ts).
Proof.
  unfold generate_stream, run. destruct (loop init ts) as [st out].
  cbn [fst snd]. intros H. unfold finish. rewrite H, andb_false_r.
  apply app_nil_r.
Qed.

End WithUnicode.
End EngineFacts.

(** ** The conversation history *)

Module ConversationFacts.
Import Conversation ConversationSpec.
Local Open Scope string_scope.
Local Open Scope list_scope.

Lemma window_all A n (l : list A) : length l <= n -> window n l = l.
Proof.
  intros H. unfold window. replace (length l - n) with 0 by lia. reflexivity.
Qed.

Lemma window_length A n (l : list A) : length (window n l) <= n.
Proof. unfold window. rewrite length_skipn. lia. Qed.

Lemma window_app A n (l l' : list A) :
  window n (window n l ++ l') = window n (l ++ l').
Proof.
  destruct (Nat.le_gt_cases (length l) n) as [H|H].
  - rewrite (window_all l H). reflexivity.
  - assert (Hk : length (window n l) = n).
    { unfold window. rewrite length_skipn. lia. }
    unfold window at 1 3. rewrite !length_app, Hk. unfold window.
    replace (n + length l' - n) with (length l') by lia.
    replace (length l + length l' - n) with (length l' + (length l - n))
      by lia.
    rewrite <- skipn_skipn, (skipn_app (length l - n) l l').
    replace (length l - n - length l) with 0 by lia. reflexivity.
Qed.

Lemma deque_append_items d x :
  valid d -> items (deque_append d x) = window (maxlen d) (items d ++ [x]).
Proof.
  unfold valid, deque_append, window. intros H. cbn [items].
  rewrite length_app. cbn [length].
  destruct (Nat.ltb_spec (maxlen d) (length (items d) + 1)) as [L|L].
  - replace (length (items d) + 1 - maxlen d) with 1 by lia. reflexivity.
  - replace (length (items d) + 1 - maxlen d) with 0 by lia. reflexivity.
Qed.

Lemma deque_append_valid d x : valid d -> valid (deque_append d x).
Proof.
  intros H. unfold valid. rewrite deque_append_items by assumption.
  apply window_length.
Qed.

Lemma deque_append_maxlen d x : maxlen (deque_append d x) = maxlen d.
Proof. reflexivity. Qed.

Lemma history_save cm : history (_save_to_disk cm) = history cm.
Proof. unfold _save_to_disk. destruct (persist cm); reflexivity. Qed.

Lemma history_add cm user_text assistant_text :
  history (add_exchange cm user_text assistant_text)
  = deque_append
      (deque_append (history cm) {| role := "user"; content := user_text |})
      {| role := "assistant"; content := assistant_text |}.
Proof. unfold add_exchange. rewrite history_save. reflexivity. Qed.

Lemma history_clear cm : history (clear cm) = deque_clear (history cm).
Proof. unfold clear. rewrite history_save. reflexivity. Qed.

Lemma add_exchange_items cm user_text assistant_text :
  valid (history cm) ->
  items (history (add_exchange cm user_text assistant_text))
  = window (maxlen (history cm))
           (items (history cm) ++ exchange (user_text, assistant_text)).
Proof.
  intros H. rewrite history_add.
  rewrite deque_append_items by (apply deque_append_valid; exact H).
  rewrite deque_append_maxlen, deque_append_items by assumption.
  rewrite window_app, <- app_assoc. reflexivity.
Qed.

Lemma apply_op_valid cm o : valid (history cm) -> valid (history (apply_op cm o)).
Proof.
  intros H. destruct o; simpl.
  - rewrite history_add. repeat apply deque_append_valid. exact H.
  - rewrite history_clear. unfold valid. simpl. lia.
Qed.

Lemma apply_op_maxlen cm o :
  maxlen (history (apply_op cm o)) = maxlen (history cm).
Proof.
  destruct o; simpl; [rewrite history_add | rewrite history_clear];
    reflexivity.
Qed.

Lemma log_ops_window n ops : forall l,
  window n (log_ops (window n l) ops) = window n (log_ops l ops).
Proof.
  induction ops as [|o ops IH]; intros l; simpl.
  - unfold window at 1 2. apply window_all. apply window_length.
  - destruct o; [|reflexivity].
    rewrite <- IH, window_app, IH. reflexivity.
Qed.

Lemma run_ops_items ops : forall cm,
  valid (history cm) ->
  items (history (run_ops cm ops))
  = window (maxlen (history cm)) (log_ops (items (history cm)) ops).
Proof.
  induction ops as [|o ops IH]; intros cm H.
  - symmetry. apply window_all. exact H.
  - change (run_ops cm (o :: ops)) with (run_ops (apply_op cm o) ops).
    rewrite IH by (apply apply_op_valid; exact H).
    rewrite apply_op_maxlen. destruct o; cbn [apply_op log_ops].
    + rewrite add_exchange_items by assumption. apply log_ops_window.
    + rewrite history_clear. reflexivity.
Qed.

Lemma run_ops_valid ops : forall cm,
  valid (history cm) ->
  valid (history (run_ops cm ops))
  /\ maxlen (history (run_ops cm ops)) = maxlen (history cm).
Proof.
  induction ops as [|o ops IH]; intros cm H; [auto|].
  change (run_ops cm (o :: ops)) with (run_ops (apply_op cm o) ops).
  destruct (IH (apply_op cm o) (apply_op_valid cm o H)) as [V M].
  split; [exact V|]. rewrite M. apply apply_op_maxlen.
Qed.

Lemma log_ops_pairs ops : forall ps,
  log_ops (flat_map exchange ps) ops = flat_map exchange (pairs_ops ps ops).
Proof.
  induction ops as [|o ops IH]; intros ps; simpl; [reflexivity|].
  destruct o.
  - rewrite <- IH, flat_map_app. simpl. reflexivity.
  - apply (IH []).
Qed.

Lemma skipn_exchanges k : forall ps,
  skipn (2 * k) (flat_map exchange ps) = flat_map exchange (skipn k ps).
Proof.
  induction k as [|k IH]; intros ps; [reflexivity|].
  destruct ps as [|p ps]; [reflexivity|].
  replace (2 * S k) with (S (S (2 * k))) by lia. simpl. apply IH.
Qed.

Lemma length_exchanges ps : length (flat_map exchange ps) = 2 * length ps.
Proof. induction ps as [|p ps IH]; simpl; [reflexivity | rewrite IH; lia]. Qed.

Lemma window_exchanges n ps :
  window (2 * n) (flat_map exchange ps) = flat_map exchange (window n ps).
Proof.
  unfold window. rewrite length_exchanges, <- skipn_exchanges.
  f_equal. lia.
Qed.

Lemma load_valid stored : forall d,
  valid d ->
  valid (fold_left deque_append stored d)
  /\ maxlen (fold_left deque_append stored d) = maxlen d.
Proof.
  induction stored as [|x stored IH]; intros d H; simpl; [auto|].
  destruct (IH (deque_append d x) (deque_append_valid x H)) as [V M].
  auto.
Qed.

Lemma deque_new_cases n :
  ((n < - PY_SSIZE_T_MAX - 1 \/ PY_SSIZE_T_MAX < n)%Z
   /\ deque_new n = Raise OverflowError)
  \/ ((- PY_SSIZE_T_MAX - 1 <= n < 0)%Z /\ deque_new n = Raise ValueError)
  \/ ((0 <= n <= PY_SSIZE_T_MAX)%Z
      /\ deque_new n = Ok {| items := []; maxlen := Z.to_nat n |}).
Proof.
  unfold deque_new.
  destruct (Z.ltb_spec n (- PY_SSIZE_T_MAX - 1)) as [A|A]; cbn [orb].
  - left. auto.
  - destruct (Z.ltb_spec PY_SSIZE_T_MAX n) as [B|B].
    + left. auto.
    + right. destruct (Z.ltb_spec n 0) as [C|C]; [left | right]; auto.
Qed.

Lemma deque_new_ok n d :
  deque_new n = Ok d ->
  (0 <= n <= PY_SSIZE_T_MAX)%Z /\ d = {| items := []; maxlen := Z.to_nat n |}.
Proof.
  destruct (deque_new_cases n) as [[_ E]|[[_ E]|[L E]]]; rewrite E;
    try discriminate.
  intros H. injection H as <-. auto.
Qed.

Lemma new_valid nm prompt turns path stored cm :
  new nm prompt turns path stored = Ok cm ->
  valid (history cm) /\ maxlen (history cm) = 2 * Z.to_nat turns
  /\ (path = false -> items (history cm) = []).
Proof.
  unfold new.
  destruct (deque_new (turns * 2)) as [h|e] eqn:D; [|discriminate].
  apply deque_new_ok in D. destruct D as [L ->].
  simpl. intros H. injection H as <-.
  assert (V0 : valid {| items := []; maxlen := Z.to_nat (turns * 2) |}).
  { unfold valid. simpl. lia. }
  destruct path; simpl.
  - destruct (load_valid stored V0) as [V M].
    split; [exact V|]. split; [|discriminate]. rewrite M. simpl. lia.
  - split; [exact V0|]. split; [lia | reflexivity].
Qed.

(** C9: the history is a bounded sliding window.  For a manager built with
    max_turns = n, after any sequence of add_exchange and clear the history
    holds at most 2n messages and is the last 2n messages of everything
    appended since the last clear; add_exchange puts one user message
    followed by one assistant message at the end, evicting from the front;
    and when the manager started without stored messages the history is
    exactly the last n exchanges, oldest first. *)
Theorem history_sliding_window nm prompt turns path stored cm ops :
  new nm prompt turns path stored = Ok cm ->
  let n := Z.to_nat turns in
  let h := items (history (run_ops cm ops)) in
  length h <= 2 * n
  /\ h = window (2 * n) (log_ops (items (history cm)) ops)
  /\ (forall user_text assistant_text,
       items (history (add_exchange (run_ops cm ops) user_text assistant_text))
       = window (2 * n) (h ++ exchange (user_text, assistant_text)))
  /\ (items (history cm) = [] ->
       h = flat_map exchange (window n (pairs_ops [] ops))).
Proof.
  intros Hnew n h. destruct (new_valid _ _ _ _ _ Hnew) as (V & M & _).
  destruct (run_ops_valid ops cm V) as [V' M'].
  assert (Hh : h = window (2 * n) (log_ops (items (history cm)) ops)).
  { unfold h. rewrite run_ops_items by assumption. rewrite M. reflexivity. }
  split; [rewrite Hh; apply window_length|].
  split; [exact Hh|]. split.
  - intros user_text assistant_text.
    rewrite add_exchange_items by assumption. rewrite M', M. reflexivity.
  - intros E. rewrite Hh, E.
    pose proof (log_ops_pairs ops []) as Hl. cbn [flat_map] in Hl.
    rewrite Hl. apply window_exchanges.
Qed.

End ConversationFacts.

(** ** Evaluations

    Inputs on which the sources do not do what the specification says, and
    instances of the theorems above.  The inputs are Latin-1 text, so the
    results do not depend on the database outside Latin-1, except for the
    one input that contains U+0130. *)

Module Examples.
Import Router RouterSpec RouterFacts.
Import Engine EngineSpec EngineFacts.
Import Conversation ConversationSpec ConversationFacts.
Local Open Scope string_scope.
Local Open Scope list_scope.

Section AnyDatabase.
Context {X : UnicodeExt}.

(** C5: neither "da una vuelta completa" nor "da media vuelta" is matched by
    a rule of the table (the turn rules want "da la vuelta", "date la
    vuelta", a turn verb or a side), so route_command returns None for both
    and the angle refinement is never reached. *)
Theorem turn_phrases_unmatched :
  route_command (u "da una vuelta completa") = Ok None
  /\ route_command (u "da media vuelta") = Ok None
  /\ unmatched (u "da una vuelta completa") = true
  /\ unmatched (u "da media vuelta") = true.
Proof. repeat split; vm_compute; reflexivity. Qed.

(** The part of C5 that holds: once a turn rule has matched, the fixed
    phrases decide the angle before any quantity in degrees. *)
Lemma turn_phrases_after_a_turn_verb :
  route_command (u "gira una vuelta completa") = single (turn_generic (VInt 360))
  /\ route_command (u "gira media vuelta") = single (turn_generic (VInt 180))
  /\ route_command (u "gira un cuarto de vuelta")
     = single (turn_generic (VInt 90))
  /\ route_command (u "gira media vuelta de 45 grados")
     = single (turn_generic (VInt 180)).
Proof. repeat split; vm_compute; reflexivity. Qed.

(** C6: the group of METERS_PATTERN starts at the first word character of
    the fragment, so for "avanza dos metros" it holds "avanza dos", which is
    neither in the lexicon nor a digit literal: the distance stays at the
    default 1 in both examples. *)
Theorem word_quantity_after_keyword_lost :
  route_command (u "avanza dos metros y gira a la derecha")
  = several [move_forward (VInt 1); turn_right (VInt 90)]
  /\ route_command (u "avanza medio metro") = single (move_forward (VInt 1))
  /\ _extract_number (u "avanza dos metros") METERS_PATTERN = Ok None
  /\ _extract_number (u "avanza medio metro") METERS_PATTERN = Ok None.
Proof. repeat split; vm_compute; reflexivity. Qed.

(** The lexicon is consulted before the digits when the quantity opens the
    fragment. *)
Lemma word_quantity_first :
  route_command (u "dos metros adelante") = single (move_forward (VInt 2))
  /\ route_command (u "medio metro adelante")
     = single (move_forward (VFloat 5 1))
  /\ route_command (u "avanza 3 metros") = single (move_forward (VFloat 3 0)).
Proof. repeat split; vm_compute; reflexivity. Qed.

(** C2: the stream "<think>a</think>b<think>c.d</think>" cut after "c."
    yields the sentence "b<think>c." (and then "d</think>"), although the
    text outside the reasoning blocks is only "b". *)
Theorem think_block_leak :
  generate_stream [u "<think>a</think>b<think>c."; u "d</think>"]
  = [u "b<think>c."; u "d</think>"]
  /\ sub_empty re_DOTALL THINK_PATTERN (u "<think>a</think>b<think>c.d</think>")
     = u "b"
  /\ generate_stream [u "</think>"; u "<think>"; u "secreto."; u "</think>"]
     = [u "</think><think>secreto."; u "</think>"].
Proof. repeat split; vm_compute; reflexivity. Qed.

(** The examples of the specification for the reasoning block. *)
Lemma think_block_examples :
  generate_stream [u "<think>ignore this</think>Hola."] = [u "Hola."]
  /\ generate_stream [u "<think>"; u "ignore. this"; u "</think>"; u "Hola";
                      u "."] = [u "Hola."]
  /\ generate_stream [u "<think>"; u "solo. esto"; u "</think>"] = []
  /\ generate_stream [u "Hola."; u "<think>"; u "sin. cerrar"] = [u "Hola."].
Proof. repeat split; vm_compute; reflexivity. Qed.

End AnyDatabase.

#[local] Existing Instance py_ext.

(** C1, as stated, fails: "avanza y para" contains a stop keyword and a
    movement keyword and resolves to two actions, the move first. *)
Lemma stop_in_compound_not_single :
  has_keyword stop_rule (u "avanza y para") = true
  /\ has_move_keyword (u "avanza y para") = true
  /\ route_command (u "avanza y para")
     = several [move_forward (VInt 1); stop_action]
  /\ route_command (u "avanza y para") <> single stop_action.
Proof. repeat split; try (vm_compute; reflexivity). vm_compute. discriminate. Qed.

Lemma stop_wins_within_fragment_witness :
  In (u "avanza pero para ya") (segments (u "oye robot avanza pero para ya"))
  /\ has_keyword stop_rule (u "avanza pero para ya") = true
  /\ has_move_keyword (u "avanza pero para ya") = true
  /\ route_command (u "oye robot avanza pero para ya") = single stop_action.
Proof.
  assert (Hin : In (u "avanza pero para ya")
                   (segments (u "oye robot avanza pero para ya"))).
  { vm_compute. left. reflexivity. }
  assert (Hs : has_keyword stop_rule (u "avanza pero para ya") = true).
  { vm_compute. reflexivity. }
  split; [exact Hin|]. split; [exact Hs|].
  split; [vm_compute; reflexivity|].
  apply (@stop_wins_within_fragment py_ext
           (u "oye robot avanza pero para ya") (u "avanza pero para ya")
           Hin Hs).
  vm_compute. reflexivity.
Defined.

Lemma compound_all_or_nothing_witness :
  2 <= length (compound_parts (strip_noise (u "avanza y canta una canción")))
  /\ unmatched (u "canta una canción") = true
  /\ route_command (u "avanza y canta una canción") = Ok None.
Proof.
  assert (Hl : 2 <= length (compound_parts
                             (strip_noise (u "avanza y canta una canción")))).
  { vm_compute. constructor. }
  split; [exact Hl|]. split; [vm_compute; reflexivity|].
  apply (@compound_all_or_nothing py_ext (u "avanza y canta una canción") Hl).
  exists (u "canta una canción"). split.
  - vm_compute. right. left. reflexivity.
  - vm_compute. reflexivity.
Defined.

Lemma unmarked_stream_witness :
  generate_stream [u "Hola "; u "amigo "] = [u "Hola amigo"].
Proof.
  apply (@unmarked_stream_one_sentence py_ext [u "Hola "; u "amigo "]).
  - vm_compute. reflexivity.
  - vm_compute. reflexivity.
  - vm_compute. discriminate.
Defined.

Lemma history_sliding_window_witness :
  items (history (run_ops demo_manager demo_ops))
  = exchange (u "dos", u "2") ++ exchange (u "tres", u "3").
Proof.
  destruct (history_sliding_window "assistant" (u "Eres un asistente.") 2
              false [] demo_ops (cm := demo_manager) eq_refl)
    as (_ & _ & _ & H).
  apply H. reflexivity.
Defined.

(** C10, as stated, fails: lowercasing U+0130 yields "i" followed by the
    combining dot U+0307, which is not a word character, so "robot" becomes a
    word of its own in the lowercased input and is removed as noise; the
    quantity "dos" then opens the group of METERS_PATTERN. *)
Lemma lowercase_changes_distance :
  route_command (u "İrobot dos metros avanza") = single (move_forward (VInt 1))
  /\ route_command (lower (u "İrobot dos metros avanza"))
     = single (move_forward (VInt 2)).
Proof. split; vm_compute; reflexivity. Qed.

Lemma route_command_case_insensitive_witness :
  Latin1 (u "AVANZA Tres Metros Y GIRA a la Derecha")
  /\ route_command (u "AVANZA Tres Metros Y GIRA a la Derecha")
     = route_command (u "avanza tres metros y gira a la derecha").
Proof.
  assert (HL : Latin1 (u "AVANZA Tres Metros Y GIRA a la Derecha")).
  { apply Forall_forall. intros c Hc. vm_compute in Hc.
    repeat (destruct Hc as [<-|Hc]; [reflexivity|]). destruct Hc. }
  split; [exact HL|].
  destruct (@route_command_case_insensitive py_ext
              (u "AVANZA Tres Metros Y GIRA a la Derecha") HL) as [H _].
  rewrite <- H. vm_compute. reflexivity.
Defined.

End Examples.

(** * More properties of the sources *)

(** ** The router: origin of the actions, parameters, confirmation *)

Module RouterMore.
Import Router RouterSpec RouterFacts RouterMethods.
Local Open Scope string_scope.
Local Open Scope list_scope.

Lemma dict_set_keys k v d :
  has_key k d = true -> map fst (dict_set k v d) = map fst d.
Proof.
  unfold has_key. induction d as [|[k' v'] d IH]; simpl; [discriminate|].
  destruct (String.eqb_spec k k') as [->|N]; simpl; [reflexivity|].
  intros H. rewrite IH by assumption. reflexivity.
Qed.

Lemma dict_get_set_same k v d : dict_get k (dict_set k v d) = Some v.
Proof.
  induction d as [|[k' v'] d IH]; simpl.
  - rewrite String.eqb_refl. reflexivity.
  - destruct (String.eqb_spec k k') as [->|N]; simpl.
    + rewrite String.eqb_refl. reflexivity.
    + destruct (String.eqb_spec k k'); [contradiction | exact IH].
Qed.

Lemma dict_get_set_other k k' v d :
  k' <> k -> dict_get k' (dict_set k v d) = dict_get k' d.
Proof.
  intros N. induction d as [|[k2 v2] d IH]; simpl.
  - destruct (String.eqb_spec k' k); [contradiction | reflexivity].
  - destruct (String.eqb_spec k k2) as [->|N2]; simpl.
    + destruct (String.eqb_spec k' k2); [contradiction | reflexivity].
    + rewrite IH. reflexivity.
Qed.

Section WithUnicode.
Context {X : UnicodeExt}.

(** The result of first_match comes from the first rule whose pattern is
    found. *)
Lemma first_match_inv text : forall rules a,
  first_match text rules = Ok (Some a) ->
  exists pre r post,
    rules = pre ++ r :: post
    /\ forallb (fun q => negb (found re_I (pattern q) text)) pre = true
    /\ found re_I (pattern r) text = true
    /\ action a = rule_action r
    /\ confirmation a = rule_confirmation r
    /\ refine (rule_action r) text (default_params r) = Ok (params a).
Proof.
  induction rules as [|r rules IH]; intros a H; simpl in H; [discriminate|].
  destruct (found re_I (pattern r) text) eqn:F.
  - destruct (refine (rule_action r) text (default_params r)) as [d|e] eqn:R;
      simpl in H; [|discriminate].
    injection H as <-. exists [], r, rules. simpl. auto 10.
  - destruct (IH a H) as (pre & q & post & -> & Hp & Hq).
    exists (r :: pre), q, post. simpl. rewrite F. simpl. auto.
Qed.

Lemma resolves_inv p a :
  resolves p a ->
  exists pre r post,
    COMMAND_PATTERNS = pre ++ r :: post
    /\ forallb (fun q => negb (has_keyword q p)) pre = true
    /\ has_keyword r p = true
    /\ action a = rule_action r
    /\ confirmation a = rule_confirmation r
    /\ refine (rule_action r) (normal p) (default_params r) = Ok (params a).
Proof.
  unfold resolves, _match_single. fold (normal p).
  destruct (is_empty (normal p)); [discriminate|]. apply first_match_inv.
Qed.

Lemma table_ok rule : In rule COMMAND_PATTERNS -> rule_ok rule = true.
Proof.
  assert (H : forallb rule_ok COMMAND_PATTERNS = true)
    by (vm_compute; reflexivity).
  rewrite forallb_forall in H. apply H.
Qed.

Lemma set_if_keys k o d :
  has_key k d = true -> map fst (set_if k o d) = map fst d.
Proof. destruct o; simpl; [apply dict_set_keys | reflexivity]. Qed.

Lemma set_if_other k k' o d :
  k' <> k -> dict_get k' (set_if k o d) = dict_get k' d.
Proof.
  intros N. destruct o; simpl; [apply dict_get_set_other; exact N | reflexivity].
Qed.

(** The refinement overwrites at most the value of [refined_key]. *)
Lemma refine_params act text d d' :
  refine act text d = Ok d' ->
  match refined_key act with Some k => has_key k d = true | None => True end ->
  map fst d' = map fst d
  /\ (forall k, refined_key act <> Some k -> dict_get k d' = dict_get k d).
Proof.
  unfold refine, refined_key.
  destruct (_extract_number_total text METERS_PATTERN) as [o1 E1].
  destruct (_extract_number_total text DEGREES_PATTERN) as [o2 E2].
  rewrite E1, E2.
  destruct (String.eqb_spec act "move") as [->|Nm]; simpl.
  - intros H K. injection H as <-. split; [apply set_if_keys; exact K|].
    intros k Hk. apply set_if_other. congruence.
  - destruct (String.eqb_spec act "turn") as [->|Nt]; simpl.
    + intros H K.
      assert (Hs : forall v, map fst (dict_set "angle" v d) = map fst d
                 /\ (forall k, Some "angle" <> Some k ->
                       dict_get k (dict_set "angle" v d) = dict_get k d)).
      { intros v. split; [apply dict_set_keys; exact K|].
        intros k Hk. apply dict_get_set_other. congruence. }
      destruct (found re_I FULL_TURN text);
        [injection H as <-; apply Hs|].
      destruct (found re_I HALF_TURN text);
        [injection H as <-; apply Hs|].
      destruct (found re_I QUARTER_TURN text);
        [injection H as <-; apply Hs|].
      simpl in H. injection H as <-. split; [apply set_if_keys; exact K|].
      intros k Hk. apply set_if_other. congruence.
    + destruct (String.eqb act "look_up" || String.eqb act "look_down");
        simpl; intros H K; injection H as <-.
      * split; [apply set_if_keys; exact K|].
        intros k Hk. apply set_if_other. congruence.
      * auto.
Qed.

Lemma join_nonempty sep (l : list str) :
  l <> [] -> Forall (fun c => c <> []) l -> join sep l <> [].
Proof.
  destruct l as [|c l]; [congruence|]. intros _ H.
  inversion H as [|? ? Hc _]; subst.
  destruct c as [|x c]; [congruence|]. destruct l; simpl; discriminate.
Qed.

Lemma filter_all A (f : A -> bool) (l : list A) :
  Forall (fun x => f x = true) l -> filter f l = l.
Proof.
  induction 1 as [|x l Hx _ IH]; simpl; [reflexivity|].
  rewrite Hx, IH. reflexivity.
Qed.

Lemma route_command_resolved t r :
  route_command t = Ok (Some r) ->
  matched r = true /\ segments t <> [] /\ Forall2 resolves (segments t) (actions r).
Proof.
  intros H. destruct (route_command_cases t) as [[E _]|(acts & E & F)];
    [congruence|].
  rewrite E in H. injection H as <-. simpl. split; [reflexivity|].
  split; [|exact F].
  intros Hs. apply segments_nil in Hs. revert E. unfold route_command.
  rewrite Hs. discriminate.
Qed.

(** Every result of route_command is marked as matched and has one action
    per fragment, in the order of the fragments; in particular it is never
    empty. *)
Theorem route_result_shape t r :
  route_command t = Ok (Some r) ->
  matched r = true
  /\ actions r <> []
  /\ length (actions r) = length (segments t)
  /\ Forall2 resolves (segments t) (actions r).
Proof.
  intros H. destruct (route_command_resolved t H) as (M & Hs & F).
  split; [exact M|]. split; [|split; [|exact F]].
  - intros E. rewrite E in F. inversion F. congruence.
  - symmetry. eapply Forall2_length. exact F.
Qed.

(** First match wins: the action returned for a fragment carries the name
    and the confirmation of the first rule of COMMAND_PATTERNS whose pattern
    is found in the fragment; no rule before it is found there. *)
Theorem action_of_first_matching_rule t r :
  route_command t = Ok (Some r) ->
  Forall2 (fun p a =>
             exists pre rule post,
               COMMAND_PATTERNS = pre ++ rule :: post
               /\ forallb (fun q => negb (has_keyword q p)) pre = true
               /\ has_keyword rule p = true
               /\ action a = rule_action rule
               /\ confirmation a = rule_confirmation rule)
          (segments t) (actions r).
Proof.
  intros H. destruct (route_command_resolved t H) as (_ & _ & F).
  eapply Forall2_impl; [|exact F]. intros p a Hr.
  destruct (resolves_inv Hr) as (pre & rule & post & E & Hp & Hk & Ha & Hc & _).
  exists pre, rule, post. auto.
Qed.

Lemma resolves_params p a :
  resolves p a ->
  exists rule,
    In rule COMMAND_PATTERNS
    /\ action a = rule_action rule
    /\ confirmation a = rule_confirmation rule
    /\ map fst (params a) = map fst (default_params rule)
    /\ (forall k, refined_key (action a) <> Some k ->
         dict_get k (params a) = dict_get k (default_params rule)).
Proof.
  intros Hr.
  destruct (resolves_inv Hr) as (pre & rule & post & E & _ & _ & Ha & Hc & R).
  assert (Hin : In rule COMMAND_PATTERNS).
  { rewrite E. apply in_or_app. right. left. reflexivity. }
  exists rule. split; [exact Hin|]. split; [exact Ha|]. split; [exact Hc|].
  rewrite Ha. apply (refine_params _ _ _ R).
  pose proof (@table_ok rule Hin) as Hok. unfold rule_ok in Hok.
  apply andb_true_iff in Hok. destruct Hok as [Hok _].
  destruct (refined_key (rule_action rule)); [exact Hok | exact I].
Qed.

(** The parameters of a returned action against the rule that matched its
    fragment, the first rule of the table found there: they have exactly
    the keys of the defaults of that rule, in the same order, and only the
    distance of a move and the angle of a turn or a look can differ from
    the default value of that rule: the refinement never adds, removes or
    touches another parameter. *)
Theorem params_keep_rule_keys t r :
  route_command t = Ok (Some r) ->
  Forall2 (fun p a =>
             exists pre rule post,
               COMMAND_PATTERNS = pre ++ rule :: post
               /\ forallb (fun q => negb (has_keyword q p)) pre = true
               /\ has_keyword rule p = true
               /\ action a = rule_action rule
               /\ map fst (params a) = map fst (default_params rule)
               /\ (forall k, refined_key (action a) <> Some k ->
                    dict_get k (params a)
                    = dict_get k (default_params rule)))
          (segments t) (actions r).
Proof.
  intros H. destruct (route_command_resolved t H) as (_ & _ & F).
  eapply Forall2_impl; [|exact F]. intros p a Hr.
  destruct (resolves_inv Hr) as (pre & rule & post & E & Hp & Hk & Ha & _ & R).
  assert (Hin : In rule COMMAND_PATTERNS).
  { rewrite E. apply in_or_app. right. left. reflexivity. }
  exists pre, rule, post.
  split; [exact E|]. split; [exact Hp|]. split; [exact Hk|].
  split; [exact Ha|]. rewrite Ha. apply (refine_params _ _ _ R).
  pose proof (@table_ok rule Hin) as Hok. unfold rule_ok in Hok.
  apply andb_true_iff in Hok. destruct Hok as [Hok _].
  destruct (refined_key (rule_action rule)); [exact Hok | exact I].
Qed.

Lemma value_eqb_eq a b : value_eqb a b = true -> a = b.
Proof.
  destruct a, b; simpl; try discriminate; intros H.
  - apply String.eqb_eq in H. congruence.
  - apply Z.eqb_eq in H. congruence.
  - apply andb_true_iff in H. destruct H as [H1 H2].
    apply N.eqb_eq in H1. apply Nat.eqb_eq in H2. congruence.
Qed.

Lemma table_default rule k v :
  In rule COMMAND_PATTERNS ->
  refined_key (rule_action rule) = Some k ->
  refined_default (rule_action rule) = Some v ->
  dict_get k (default_params rule) = Some v.
Proof.
  intros Hin Hk Hv.
  assert (H : forallb rule_default_ok COMMAND_PATTERNS = true)
    by (vm_compute; reflexivity).
  rewrite forallb_forall in H. specialize (H rule Hin).
  unfold rule_default_ok in H. rewrite Hk, Hv in H.
  destruct (dict_get k (default_params rule)) as [v'|]; [|discriminate].
  apply value_eqb_eq in H. congruence.
Qed.

Lemma dict_get_set_if k o d v :
  dict_get k d = Some v ->
  dict_get k (set_if k o d)
  = Some (match o with Some w => w | None => v end).
Proof.
  intros H. destruct o; simpl; [apply dict_get_set_same | exact H].
Qed.

(** The value the refinement leaves in the parameter of a move, a turn or a
    look.  For a turn the fixed phrases come first (full turn 360, half
    turn 180, quarter turn 90), then a quantity in degrees, then the
    default 90; a move has the quantity in metres or the default 1; a look
    has the quantity in degrees or the default 30. *)
Theorem refined_parameter p a :
  resolves p a ->
  (action a = "turn" ->
   exists o, _extract_number (normal p) DEGREES_PATTERN = Ok o /\
     dict_get "angle" (params a)
     = Some (if found re_I FULL_TURN (normal p) then VInt 360
             else if found re_I HALF_TURN (normal p) then VInt 180
             else if found re_I QUARTER_TURN (normal p) then VInt 90
             else match o with Some v => v | None => VInt 90 end))
  /\ (action a = "move" ->
      exists o, _extract_number (normal p) METERS_PATTERN = Ok o /\
        dict_get "distance" (params a)
        = Some (match o with Some v => v | None => VInt 1 end))
  /\ (action a = "look_up" \/ action a = "look_down" ->
      exists o, _extract_number (normal p) DEGREES_PATTERN = Ok o /\
        dict_get "angle" (params a)
        = Some (match o with Some v => v | None => VInt 30 end)).
Proof.
  intros Hr.
  destruct (resolves_inv Hr) as (pre & rule & post & E & _ & _ & Ha & _ & R).
  assert (Hin : In rule COMMAND_PATTERNS).
  { rewrite E. apply in_or_app. right. left. reflexivity. }
  rewrite <- Ha in R.
  destruct (_extract_number_total (normal p) METERS_PATTERN) as [o1 E1].
  destruct (_extract_number_total (normal p) DEGREES_PATTERN) as [o2 E2].
  assert (Hd : forall k v, refined_key (action a) = Some k ->
                 refined_default (action a) = Some v ->
                 dict_get k (default_params rule) = Some v).
  { intros k v. rewrite Ha. apply table_default. exact Hin. }
  unfold refine in R. rewrite E1, E2 in R.
  split; [|split].
  - intros Et. rewrite Et in *. exists o2. split; [exact E2|].
    specialize (Hd "angle" (VInt 90) eq_refl eq_refl). simpl in R.
    destruct (found re_I FULL_TURN (normal p));
      [injection R as <-; apply dict_get_set_same|].
    destruct (found re_I HALF_TURN (normal p));
      [injection R as <-; apply dict_get_set_same|].
    destruct (found re_I QUARTER_TURN (normal p));
      [injection R as <-; apply dict_get_set_same|].
    simpl in R. injection R as <-. apply dict_get_set_if. exact Hd.
  - intros Em. rewrite Em in *. exists o1. split; [exact E1|].
    specialize (Hd "distance" (VInt 1) eq_refl eq_refl). simpl in R.
    injection R as <-. apply dict_get_set_if. exact Hd.
  - intros [El|El]; rewrite El in *; exists o2; (split; [exact E2|]);
      specialize (Hd "angle" (VInt 30) eq_refl eq_refl); simpl in R;
      injection R as <-; apply dict_get_set_if; exact Hd.
Qed.

(** The combined confirmation of a result lists every action: no action of
    the table has an empty confirmation, so nothing is skipped, and the
    text is not empty. *)
Theorem confirmation_lists_every_action t r :
  route_command t = Ok (Some r) ->
  RouterResult_confirmation r = join (u ". ") (map confirmation (actions r))
  /\ RouterResult_confirmation r <> [].
Proof.
  intros H. destruct (route_command_resolved t H) as (_ & Hs & F).
  assert (Hne : Forall (fun c => c <> []) (map confirmation (actions r))).
  { apply Forall_map. clear Hs H.
    induction F as [|p a ps acts Hr _ IH]; constructor; [|exact IH].
    destruct (resolves_params Hr) as (rule & Hin & _ & Hc & _).
    pose proof (@table_ok rule Hin) as Hok. unfold rule_ok in Hok.
    apply andb_true_iff in Hok. destruct Hok as [_ Hok].
    rewrite Hc. destruct (rule_confirmation rule); [discriminate|].
    discriminate. }
  assert (E : RouterResult_confirmation r
              = join (u ". ") (map confirmation (actions r))).
  { unfold RouterResult_confirmation. rewrite filter_all; [reflexivity|].
    eapply Forall_impl; [|exact Hne]. intros c Hc.
    destruct c; [congruence | reflexivity]. }
  split; [exact E|]. rewrite E. apply join_nonempty; [|exact Hne].
  intros En. apply map_eq_nil in En. rewrite En in F. inversion F.
  congruence.
Qed.

End WithUnicode.
End RouterMore.

(** ** The engine: blocking generation, shape of the sentences *)

Module EngineMoreFacts.
Import Engine EngineSpec EngineFacts EngineMore.
Local Open Scope string_scope.
Local Open Scope list_scope.

Section WithUnicode.
Context {X : UnicodeExt}.

Lemma think_pattern_cat :
  THINK_PATTERN
  = Cat (cat_all (map Lit think_open))
        (Cat (Star false Dot) (cat_all (map Lit think_close))).
Proof. reflexivity. Qed.

Lemma match_think_none p i s :
  startswith think_open s = false ->
  match_at re_DOTALL THINK_PATTERN (start_cursor p i s) = None.
Proof.
  intros H. unfold match_at. rewrite think_pattern_cat. cbn [m].
  rewrite m_word by reflexivity. cbn [rest start_cursor]. rewrite H.
  reflexivity.
Qed.

(** Without "<think>" the substitution changes nothing. *)
Lemma sub_scan_no_open s : forall p i,
  contains think_open s = false ->
  sub_scan re_DOTALL THINK_PATTERN p i 0 s = s.
Proof.
  induction s as [|x s IH]; intros p i H; [reflexivity|].
  cbn [sub_scan].
  rewrite match_think_none by (apply contains_startswith; exact H).
  cbn [contains] in H. apply orb_false_iff in H. destruct H as [_ H].
  rewrite IH by assumption. reflexivity.
Qed.

(** generate on a completion without "<think>": the content is returned
    trimmed and otherwise unchanged; a missing content gives the empty
    string. *)
Theorem generate_without_block content :
  contains think_open content = false ->
  generate_content (Some content) = strip content
  /\ generate_content None = [].
Proof.
  intros H. split; [|reflexivity].
  unfold generate_content, sub_empty. rewrite sub_scan_no_open by assumption.
  reflexivity.
Qed.

Lemma lazy_until_word_tail (a tail : str) : forall b n c,
  rest c = b ++ a ++ tail ->
  length b <= n ->
  (forall b1 b2, b = b1 ++ b2 -> b2 <> [] -> startswith a (b2 ++ a) = false) ->
  exists e,
    star_loop (eat (dot_match re_DOTALL)) false n c
      (fun c2 => m re_DOTALL (cat_all (map Lit a)) c2 (fun c' => Some c'))
    = Some e
    /\ pos e = pos c + length b + length a.
Proof.
  induction b as [|y b IH]; intros n c Hr Hn Hb.
  - assert (Hk : m re_DOTALL (cat_all (map Lit a)) c (fun c' => Some c')
                 = Some (advance_over c a)).
    { rewrite m_word by reflexivity. rewrite Hr. simpl.
      rewrite startswith_self. reflexivity. }
    exists (advance_over c a). split.
    + destruct n; simpl; rewrite Hk; reflexivity.
    + simpl in Hr. destruct (advance_over_rest a c tail Hr) as [_ P].
      rewrite P. simpl. lia.
  - destruct n as [|n]; [simpl in Hn; lia|].
    assert (Hk : m re_DOTALL (cat_all (map Lit a)) c (fun c' => Some c')
                 = None).
    { rewrite m_word by reflexivity. rewrite Hr.
      rewrite (app_assoc (y :: b) a tail), startswith_short.
      - rewrite (Hb [] (y :: b) eq_refl) by discriminate. reflexivity.
      - rewrite length_app. lia. }
    cbn [star_loop]. rewrite Hk. cbn [orelse].
    unfold eat at 1. rewrite Hr. cbn [app].
    change (dot_match re_DOTALL y) with true. cbv iota.
    cbn [pos]. rewrite (proj2 (Nat.ltb_lt (pos c) (S (pos c)))) by lia.
    destruct (IH n {| prev := Some y; rest := b ++ a ++ tail;
                      pos := S (pos c); grp := grp c |} eq_refl)
      as (e & He & Pe).
    + simpl in Hn. lia.
    + intros b1 b2 E Hne. apply (Hb (y :: b1) b2); [rewrite E; reflexivity|].
      exact Hne.
    + exists e. split; [exact He|]. rewrite Pe. simpl. lia.
Qed.

(** Dropping the rest of a match and scanning on. *)
Lemma sub_scan_drop fl r w : forall p i s,
  w <> [] ->
  sub_scan fl r p i (length w) (w ++ s)
  = sub_scan fl r (Some (last w 0%N)) (i + length w) 0 s.
Proof.
  induction w as [|x w IH]; intros p i s H; [congruence|].
  cbn [length app sub_scan]. destruct w as [|y w].
  - simpl. replace (i + 1) with (S i) by lia. reflexivity.
  - rewrite IH by discriminate.
    replace (S i + length (y :: w)) with (i + S (length (y :: w))) by lia.
    reflexivity.
Qed.

(** generate on a completion that opens with one reasoning block: the block
    is removed and the answer is returned trimmed. *)
Theorem generate_drops_leading_block body answer :
  contains think_close body = false ->
  contains think_open answer = false ->
  generate_content (Some (think_open ++ body ++ think_close ++ answer))
  = strip answer.
Proof.
  intros Hc Ho. unfold generate_content, sub_empty. f_equal.
  set (full := think_open ++ body ++ think_close ++ answer).
  assert (Hm : exists e,
    match_at re_DOTALL THINK_PATTERN (start_cursor None 0 full) = Some e
    /\ pos e = length (think_open ++ body ++ think_close)).
  { unfold match_at. rewrite think_pattern_cat. cbn [m].
    rewrite m_word by reflexivity. cbn [rest start_cursor]. unfold full.
    rewrite startswith_self.
    set (c1 := advance_over _ think_open).
    destruct (advance_over_rest think_open
                (start_cursor None 0
                   (think_open ++ body ++ think_close ++ answer))
                (body ++ think_close ++ answer) eq_refl) as [R P].
    fold c1 in R, P.
    destruct (@lazy_until_word_tail think_close answer body
                (S (length (rest c1))) c1 R) as (e & He & Pe).
    - rewrite R, length_app. lia.
    - intros b1 b2. apply close_not_early. exact Hc.
    - exists e. split; [exact He|].
      rewrite Pe, P, !length_app. simpl. lia. }
  destruct Hm as (e & He & Pe).
  assert (Ef : full = 60%N :: (tl think_open ++ body ++ think_close) ++ answer).
  { unfold full. change think_open with (60%N :: tl think_open).
    cbn [app tl]. rewrite <- !app_assoc. reflexivity. }
  rewrite Ef at 1. cbn [sub_scan]. rewrite <- Ef, He, Pe, Nat.sub_0_r.
  change (length (think_open ++ body ++ think_close))
    with (S (length (tl think_open ++ body ++ think_close))).
  cbv iota beta.
  rewrite sub_scan_drop by (vm_compute; discriminate).
  apply sub_scan_no_open. exact Ho.
Qed.

(** *** The sentences are trimmed and not empty *)

Lemma lstrip_lclean s : lclean (lstrip s).
Proof.
  induction s as [|c s IH]; simpl; [exact I|].
  destruct (isspace c) eqn:E; [exact IH | exact E].
Qed.

Lemma lclean_lstrip s : lclean s -> lstrip s = s.
Proof. destruct s as [|c s]; simpl; [reflexivity|]. intros ->. reflexivity. Qed.

Lemma lstrip_suffix s : exists z, s = z ++ lstrip s.
Proof.
  induction s as [|c s [z IH]]; simpl; [exists []; reflexivity|].
  destruct (isspace c).
  - exists (c :: z). simpl. rewrite <- IH. reflexivity.
  - exists []. reflexivity.
Qed.

Lemma rstrip_prefix s : exists z, s = rstrip s ++ z.
Proof.
  unfold rstrip. destruct (lstrip_suffix (rev s)) as [z E].
  exists (rev z). rewrite <- rev_app_distr, <- E, rev_involutive. reflexivity.
Qed.

Lemma rstrip_lclean s : lclean s -> lclean (rstrip s).
Proof.
  intros H. destruct (rstrip_prefix s) as [z E].
  destruct (rstrip s) as [|c r]; [exact I|].
  rewrite E in H. exact H.
Qed.

Lemma rstrip_idem s : rstrip (rstrip s) = rstrip s.
Proof.
  unfold rstrip. rewrite rev_involutive.
  rewrite (lclean_lstrip _ (lstrip_lclean (rev s))). reflexivity.
Qed.

Lemma strip_idem s : strip (strip s) = strip s.
Proof.
  unfold strip.
  rewrite (lclean_lstrip _ (rstrip_lclean _ (lstrip_lclean s))).
  apply rstrip_idem.
Qed.

Lemma boundary_trimmed buf :
  Forall (fun s => s <> [] /\ strip s = s) (snd (boundary buf)).
Proof.
  unfold boundary.
  destruct (search re_none SENTENCE_END buf) as [[st e]|]; simpl;
    [|constructor].
  destruct (strip (firstn (pos e) buf)) eqn:E; simpl; constructor;
    [|constructor].
  split; [discriminate|]. rewrite <- E. apply strip_idem.
Qed.

Lemma step_trimmed st t :
  Forall (fun s => s <> [] /\ strip s = s) (snd (step st t)).
Proof.
  unfold step. destruct (Router.is_empty t); [constructor|].
  destruct (in_think_block st || contains think_open (buffer st ++ t));
    [|apply boundary_trimmed].
  destruct (contains think_close (buffer st ++ t));
    [apply boundary_trimmed | constructor].
Qed.

(** Every sentence generate_stream yields is non-empty and carries no
    white space at either end. *)
Theorem sentences_trimmed_nonempty ts :
  Forall (fun s => s <> [] /\ strip s = s) (generate_stream ts).
Proof.
  unfold generate_stream. generalize init.
  induction ts as [|t ts IH]; intros st.
  - rewrite run_nil. unfold finish.
    destruct (strip (buffer st)) eqn:E; simpl; [constructor|].
    destruct (in_think_block st); simpl; constructor; [|constructor].
    split; [discriminate|]. rewrite <- E. apply strip_idem.
  - rewrite run_cons. apply Forall_app. split; [apply step_trimmed | apply IH].
Qed.

(** *** An unterminated reasoning block *)

Lemma contains_prepend a p s :
  contains a s = true -> contains a (p ++ s) = true.
Proof.
  intros H. induction p as [|y p IH]; [exact H|].
  cbn [app contains]. rewrite IH. apply orb_true_r.
Qed.

Lemma before_block_no_marker pre rest buf q :
  has_marker pre = false ->
  buf ++ q = pre ++ think_open ++ rest ->
  contains think_open buf = false ->
  has_marker buf = false.
Proof.
  intros Hp E Hc. apply app_eq_app in E.
  destruct E as (l & [[-> E]|[E _]]).
  - rewrite has_marker_app, Hp. simpl.
    apply contains_suffix_false in Hc. symmetry in E.
    apply (@before_open_no_marker l q rest E Hc).
  - rewrite E, has_marker_app in Hp. apply orb_false_iff in Hp. tauto.
Qed.

Lemma loop_unterminated pre rest :
  has_marker pre = false ->
  contains think_close (pre ++ think_open ++ rest) = false ->
  forall ts p,
    p ++ concat ts = pre ++ think_open ++ rest ->
    loop {| buffer := p; in_think_block := contains think_open p |} ts
    = ({| buffer := pre ++ think_open ++ rest;
          in_think_block := contains think_open (pre ++ think_open ++ rest) |},
       []).
Proof.
  intros Hp Hc. induction ts as [|t ts IH]; intros p E.
  - cbn [concat] in E. rewrite app_nil_r in E. rewrite E. reflexivity.
  - cbn [concat] in E. cbn [loop]. destruct t as [|x t].
    + unfold step at 1. cbn [Router.is_empty]. rewrite (IH p E). reflexivity.
    + unfold step at 1. cbn [Router.is_empty buffer in_think_block].
      rewrite app_assoc in E.
      assert (Hs :
        (if contains think_open p || contains think_open (p ++ x :: t)
         then if contains think_close (p ++ x :: t)
              then boundary (sub_empty re_DOTALL THINK_PATTERN (p ++ x :: t))
              else ({| buffer := p ++ x :: t; in_think_block := true |}, [])
         else boundary (p ++ x :: t))
        = ({| buffer := p ++ x :: t;
              in_think_block := contains think_open (p ++ x :: t) |}, [])).
      { destruct (contains think_open (p ++ x :: t)) eqn:E1.
        - rewrite orb_true_r.
          assert (E2 : contains think_close (p ++ x :: t) = false).
          { rewrite <- E in Hc. apply contains_app_false in Hc. exact Hc. }
          rewrite E2. reflexivity.
        - rewrite (contains_app_false _ _ _ E1). cbn [orb].
          apply boundary_none.
          apply (@before_block_no_marker pre rest (p ++ x :: t) (concat ts)
                   Hp E E1). }
      rewrite Hs. cbv beta iota. rewrite (IH (p ++ x :: t) E). reflexivity.
Qed.

(** A reasoning block that is opened and never closed swallows the whole
    stream: nothing is yielded, not even the text that stood before the
    block and had not reached a sentence boundary. *)
Theorem unterminated_block_swallows pre rest ts :
  has_marker pre = false ->
  contains think_close (pre ++ think_open ++ rest) = false ->
  concat ts = pre ++ think_open ++ rest ->
  generate_stream ts = [].
Proof.
  intros Hp Hc E. unfold generate_stream, run, init.
  change false with (contains think_open []) at 1.
  rewrite (loop_unterminated pre rest Hp Hc ts [] E).
  unfold finish. cbn [in_think_block].
  rewrite (contains_prepend think_open pre (think_open ++ rest))
    by (apply contains_app; reflexivity).
  rewrite andb_false_r. reflexivity.
Qed.

(** *** Nothing is lost outside reasoning blocks *)

Lemma nonspace_app a b : nonspace (a ++ b) = nonspace a ++ nonspace b.
Proof. apply filter_app. Qed.

Lemma nonspace_lstrip s : nonspace (lstrip s) = nonspace s.
Proof.
  induction s as [|c s IH]; simpl; [reflexivity|].
  destruct (isspace c) eqn:E; simpl; [exact IH | rewrite E; reflexivity].
Qed.

Lemma nonspace_rev s : nonspace (rev s) = rev (nonspace s).
Proof. apply filter_rev. Qed.

Lemma nonspace_strip s : nonspace (strip s) = nonspace s.
Proof.
  unfold strip, rstrip.
  rewrite nonspace_rev, nonspace_lstrip, nonspace_rev, rev_involutive.
  apply nonspace_lstrip.
Qed.

Lemma nonspace_sentence s :
  nonspace (concat (if Router.is_empty (strip s) then [] else [strip s]))
  = nonspace s.
Proof.
  rewrite <- (nonspace_strip s).
  destruct (strip s); cbn [Router.is_empty concat]; [reflexivity|].
  rewrite app_nil_r. reflexivity.
Qed.

Lemma boundary_nonspace buf :
  nonspace (concat (snd (boundary buf)) ++ buffer (fst (boundary buf)))
  = nonspace buf
  /\ in_think_block (fst (boundary buf)) = false
  /\ exists z, buf = z ++ buffer (fst (boundary buf)).
Proof.
  unfold boundary.
  destruct (search re_none SENTENCE_END buf) as [[st e]|]; cbn [fst snd].
  - split; [|split; [reflexivity|]].
    + cbn [buffer]. rewrite nonspace_app, nonspace_sentence, <- nonspace_app.
      rewrite firstn_skipn. reflexivity.
    + exists (firstn (pos e) buf). symmetry. apply firstn_skipn.
  - split; [reflexivity|]. split; [reflexivity|]. exists []. reflexivity.
Qed.

Lemma run_nonspace ts : forall b,
  contains think_open (b ++ concat ts) = false ->
  nonspace (concat (run {| buffer := b; in_think_block := false |} ts))
  = nonspace (b ++ concat ts).
Proof.
  induction ts as [|t ts IH]; intros b H.
  - rewrite run_nil. cbn [concat]. rewrite app_nil_r. unfold finish.
    cbn [buffer in_think_block negb]. rewrite andb_true_r.
    replace (if negb (Router.is_empty (strip b)) then [strip b] else [])
      with (if Router.is_empty (strip b) then [] else [strip b])
      by (destruct (strip b); reflexivity).
    apply nonspace_sentence.
  - rewrite run_cons. cbn [concat] in *. unfold step.
    destruct t as [|x t]; cbn [Router.is_empty fst snd].
    + apply IH. exact H.
    + cbn [buffer in_think_block orb]. rewrite app_assoc in H.
      rewrite (contains_app_false _ _ _ H).
      destruct (boundary_nonspace (b ++ x :: t)) as (Hn & Hi & z & Hz).
      destruct (boundary (b ++ x :: t)) as [[b' i'] out].
      cbn [fst snd buffer in_think_block] in *. subst i'.
      rewrite concat_app, nonspace_app, IH.
      * rewrite <- nonspace_app, app_assoc, nonspace_app, Hn.
        rewrite <- nonspace_app, <- app_assoc. reflexivity.
      * rewrite Hz, <- app_assoc in H.
        apply contains_suffix_false in H. exact H.
Qed.

Lemma nonspace_join l : nonspace (join (u " ") l) = nonspace (concat l).
Proof.
  induction l as [|s l IH]; [reflexivity|].
  destruct l as [|s' l].
  - simpl. rewrite app_nil_r. reflexivity.
  - change (join (u " ") (s :: s' :: l))
      with (s ++ u " " ++ join (u " ") (s' :: l)).
    change (concat (s :: s' :: l)) with (s ++ concat (s' :: l)).
    rewrite !nonspace_app, IH. reflexivity.
Qed.

(** For a stream in which "<think>" never occurs, the sentences hold every
    character of the stream that is not white space, in order; so does the
    response text the assistant builds from them. *)
Theorem no_text_lost ts :
  contains think_open (concat ts) = false ->
  nonspace (concat (generate_stream ts)) = nonspace (concat ts)
  /\ nonspace (full_response ts) = nonspace (concat ts).
Proof.
  intros H.
  assert (E : nonspace (concat (generate_stream ts)) = nonspace (concat ts)).
  { apply (run_nonspace ts []). exact H. }
  split; [exact E|]. unfold full_response. rewrite nonspace_join. exact E.
Qed.

End WithUnicode.
End EngineMoreFacts.

(** ** The conversation manager: construction, the context of a request,
    a restart *)

Module ConversationMore.
Import Conversation ConversationSpec ConversationFacts.
Local Open Scope string_scope.
Local Open Scope list_scope.

Lemma load_items stored : forall d,
  valid d ->
  items (fold_left deque_append stored d)
  = window (maxlen d) (items d ++ stored).
Proof.
  induction stored as [|x stored IH]; intros d H; cbn [fold_left].
  - rewrite app_nil_r. symmetry. apply window_all. exact H.
  - rewrite IH by (apply deque_append_valid; exact H).
    rewrite deque_append_maxlen, deque_append_items by assumption.
    rewrite window_app, <- app_assoc. reflexivity.
Qed.

Lemma new_fields nm prompt turns path stored cm :
  new nm prompt turns path stored = Ok cm ->
  name cm = nm /\ system_prompt cm = prompt /\ persist cm = path
  /\ max_turns cm = turns /\ (0 <= turns * 2 <= PY_SSIZE_T_MAX)%Z.
Proof.
  unfold new.
  destruct (deque_new (turns * 2)) as [h|e] eqn:D; [|discriminate].
  apply deque_new_ok in D. destruct D as [L ->].
  cbn [bind]. intros H. injection H as <-.
  destruct path; cbn; repeat split; lia.
Qed.

Lemma apply_op_fields cm o :
  name (apply_op cm o) = name cm
  /\ system_prompt (apply_op cm o) = system_prompt cm
  /\ persist (apply_op cm o) = persist cm
  /\ max_turns (apply_op cm o) = max_turns cm.
Proof.
  destruct o; cbn [apply_op]; unfold add_exchange, clear, _save_to_disk;
    cbn [persist set_history]; destruct (persist cm) eqn:E; cbn;
    rewrite ?E; repeat split; reflexivity.
Qed.

Lemma run_ops_fields ops : forall cm,
  name (run_ops cm ops) = name cm
  /\ system_prompt (run_ops cm ops) = system_prompt cm
  /\ persist (run_ops cm ops) = persist cm
  /\ max_turns (run_ops cm ops) = max_turns cm.
Proof.
  induction ops as [|o ops IH]; intros cm; [auto|].
  change (run_ops cm (o :: ops)) with (run_ops (apply_op cm o) ops).
  destruct (IH (apply_op cm o)) as (A & B & C & D).
  destruct (apply_op_fields cm o) as (A' & B' & C' & D').
  rewrite A, B, C, D. auto.
Qed.

Lemma new_ok nm prompt turns path stored :
  (0 <= turns * 2 <= PY_SSIZE_T_MAX)%Z ->
  exists cm,
    new nm prompt turns path stored = Ok cm
    /\ maxlen (history cm) = 2 * Z.to_nat turns
    /\ items (history cm)
       = (if path then window (2 * Z.to_nat turns) stored else [])
    /\ system_prompt cm = prompt.
Proof.
  unfold new. intros L.
  destruct (deque_new_cases (turns * 2)) as [[A _]|[[A _]|[_ E]]];
    [lia | lia |].
  rewrite E. cbn [bind]. eexists. split; [reflexivity|].
  assert (V0 : valid {| items := []; maxlen := Z.to_nat (turns * 2) |}).
  { unfold valid. cbn. lia. }
  assert (M : Z.to_nat (turns * 2) = 2 * Z.to_nat turns) by lia.
  destruct path.
  - unfold _load_from_disk, set_history. cbn [history disk system_prompt].
    split; [|split; [|reflexivity]].
    + destruct (load_valid stored V0) as [_ M']. rewrite M'. exact M.
    + rewrite load_items by exact V0. cbn [maxlen items app].
      rewrite M. reflexivity.
  - cbn [history maxlen items system_prompt].
    split; [exact M | split; reflexivity].
Qed.

(** The constructor hands 2 * max_turns to the deque as its maxlen.  It
    raises OverflowError when that number does not fit a Py_ssize_t,
    ValueError when it fits and is negative.  Otherwise the manager starts
    with the last 2 * max_turns of the stored messages, in their order,
    when a path is given, and with an empty history when none is. *)
Theorem manager_construction nm prompt turns path stored :
  ((turns * 2 < - PY_SSIZE_T_MAX - 1 \/ PY_SSIZE_T_MAX < turns * 2)%Z ->
   new nm prompt turns path stored = Raise OverflowError)
  /\ ((- PY_SSIZE_T_MAX - 1 <= turns * 2 < 0)%Z ->
      new nm prompt turns path stored = Raise ValueError)
  /\ ((0 <= turns * 2 <= PY_SSIZE_T_MAX)%Z ->
      exists cm,
        new nm prompt turns path stored = Ok cm
        /\ maxlen (history cm) = 2 * Z.to_nat turns
        /\ items (history cm)
           = if path then window (2 * Z.to_nat turns) stored else []).
Proof.
  split; [|split]; intros L.
  - unfold new.
    destruct (deque_new_cases (turns * 2)) as [[_ E]|[[A _]|[A _]]];
      [rewrite E; reflexivity | lia | lia].
  - unfold new.
    destruct (deque_new_cases (turns * 2)) as [[A _]|[[_ E]|[A _]]];
      [lia | rewrite E; reflexivity | lia].
  - destruct (@new_ok nm prompt turns path stored L) as (cm & E & M & I & _).
    exists cm. auto.
Qed.

(** The messages sent to the model.  After any sequence of add_exchange and
    clear they are the system prompt, then the history, then the new user
    turn: at most 2 * max_turns + 2 messages.  For a manager that started
    without a history file the history part is the last max_turns
    exchanges, each a user message followed by the assistant's answer. *)
Theorem context_of_request nm prompt turns path stored cm ops user_text :
  new nm prompt turns path stored = Ok cm ->
  let n := Z.to_nat turns in
  let system := {| role := "system"; content := prompt |} in
  let user := {| role := "user"; content := user_text |} in
  let msgs := get_messages (run_ops cm ops) user_text in
  length msgs <= 2 * n + 2
  /\ hd_error msgs = Some system
  /\ last msgs system = user
  /\ (path = false ->
      msgs = system :: flat_map exchange (window n (pairs_ops [] ops))
             ++ [user]).
Proof.
  intros Hnew n system user msgs.
  destruct (new_valid _ _ _ _ _ Hnew) as (V & M & E0).
  destruct (new_fields _ _ _ _ _ Hnew) as (_ & P & _).
  destruct (run_ops_fields ops cm) as (_ & P' & _).
  assert (Hm : msgs = system :: items (history (run_ops cm ops)) ++ [user]).
  { unfold msgs, get_messages. rewrite P', P. reflexivity. }
  assert (Hh : items (history (run_ops cm ops))
               = window (2 * n) (log_ops (items (history cm)) ops)).
  { rewrite run_ops_items by assumption. rewrite M. reflexivity. }
  split; [|split; [|split]].
  - rewrite Hm. cbn [length]. rewrite length_app, Hh. cbn [length].
    pose proof (window_length (2 * n) (log_ops (items (history cm)) ops)).
    lia.
  - rewrite Hm. reflexivity.
  - rewrite Hm. change (system :: items (history (run_ops cm ops)) ++ [user])
      with ((system :: items (history (run_ops cm ops))) ++ [user]).
    apply last_last.
  - intros Hp. rewrite Hm, Hh, (E0 Hp).
    pose proof (log_ops_pairs ops []) as Hl. cbn [flat_map] in Hl.
    rewrite Hl, window_exchanges. reflexivity.
Qed.

Lemma apply_op_saved cm o :
  persist cm = true ->
  disk (apply_op cm o) = items (history (apply_op cm o)).
Proof.
  intros H. destruct o; cbn [apply_op]; unfold add_exchange, clear,
    _save_to_disk; cbn [persist set_history]; rewrite H; reflexivity.
Qed.

Lemma run_ops_saved ops : forall cm,
  persist cm = true ->
  disk cm = items (history cm) ->
  disk (run_ops cm ops) = items (history (run_ops cm ops)).
Proof.
  induction ops as [|o ops IH]; intros cm H E; [exact E|].
  change (run_ops cm (o :: ops)) with (run_ops (apply_op cm o) ops).
  apply IH.
  - destruct (apply_op_fields cm o) as (_ & _ & P & _). rewrite P. exact H.
  - apply apply_op_saved. exact H.
Qed.

(** A restart.  A manager with a history file has, after any non-empty
    sequence of add_exchange and clear, its history in the file; and a new
    manager built from that file with the same max_turns has the same
    history, so it sends the same messages to the model. *)
Theorem history_survives_restart nm prompt turns stored cm ops :
  new nm prompt turns true stored = Ok cm ->
  ops <> [] ->
  disk (run_ops cm ops) = items (history (run_ops cm ops))
  /\ exists cm',
       new nm prompt turns true (disk (run_ops cm ops)) = Ok cm'
       /\ history cm' = history (run_ops cm ops)
       /\ forall user_text,
            get_messages cm' user_text
            = get_messages (run_ops cm ops) user_text.
Proof.
  intros Hnew Hops.
  destruct (new_valid _ _ _ _ _ Hnew) as (V & M & _).
  destruct (new_fields _ _ _ _ _ Hnew) as (_ & P & Hp & _ & L).
  destruct (run_ops_valid ops cm V) as [V' M'].
  destruct (run_ops_fields ops cm) as (_ & P' & _).
  assert (D : disk (run_ops cm ops) = items (history (run_ops cm ops))).
  { destruct ops as [|o ops]; [congruence|].
    change (run_ops cm (o :: ops)) with (run_ops (apply_op cm o) ops).
    apply run_ops_saved.
    - destruct (apply_op_fields cm o) as (_ & _ & Q & _). congruence.
    - apply apply_op_saved. exact Hp. }
  split; [exact D|].
  destruct (@new_ok nm prompt turns true (disk (run_ops cm ops)) L)
    as (cm' & E & Em & Ei & Es).
  exists cm'. split; [exact E|].
  assert (Hh : history cm' = history (run_ops cm ops)).
  { assert (Hi : items (history cm') = items (history (run_ops cm ops))).
    { rewrite Ei, D. apply window_all. unfold valid in V'. lia. }
    assert (Hm : maxlen (history cm') = maxlen (history (run_ops cm ops)))
      by lia.
    destruct (history cm'), (history (run_ops cm ops)).
    cbn [items maxlen] in Hi, Hm. subst. reflexivity. }
  split; [exact Hh|].
  intros user_text. unfold get_messages. rewrite Hh, Es, P', P. reflexivity.
Qed.

End ConversationMore.

(** ** The chunked audio response *)

Module AssistantFacts.
Import Engine EngineSpec EngineFacts Conversation Assistant.
Local Open Scope string_scope.
Local Open Scope list_scope.

Lemma byte_of_to_N n : Byte.to_N (byte_of n) = (n mod 256)%N.
Proof.
  unfold byte_of. destruct (Byte.of_N (n mod 256)) eqn:E.
  - apply Byte.to_of_N. exact E.
  - apply Byte.of_N_None_iff in E.
    pose proof (N.mod_lt n 256). lia.
Qed.

Lemma pack_u32_some n :
  (n < 2 ^ 32)%N ->
  pack_u32 n = Some [byte_of n; byte_of (n / 256); byte_of (n / 65536);
                     byte_of (n / 16777216)].
Proof.
  intros H. unfold pack_u32.
  destruct (N.ltb_spec n (2 ^ 32)) as [L|L]; [reflexivity | lia].
Qed.

Lemma u32_digits a :
  (a < 2 ^ 32)%N ->
  a = (a mod 256 + 256 * ((a / 256) mod 256)
       + 65536 * ((a / 65536) mod 256)
       + 16777216 * ((a / 16777216) mod 256))%N.
Proof.
  intros H. change (2 ^ 32)%N with 4294967296%N in H.
  replace (a / 65536)%N with (a / 256 / 256)%N
    by (rewrite N.Div0.div_div; reflexivity).
  replace (a / 16777216)%N with (a / 256 / 256 / 256)%N
    by (rewrite !N.Div0.div_div; reflexivity).
  pose proof (N.div_mod a 256) as D0.
  pose proof (N.div_mod (a / 256) 256) as D1.
  pose proof (N.div_mod (a / 256 / 256) 256) as D2.
  pose proof (N.mod_lt a 256) as M0.
  pose proof (N.mod_lt (a / 256) 256) as M1.
  pose proof (N.mod_lt (a / 256 / 256) 256) as M2.
  assert (S : (a / 256 / 256 / 256 < 256)%N).
  { generalize dependent (a / 256 / 256 / 256)%N.
    generalize dependent (a / 256 / 256 mod 256)%N.
    generalize dependent (a / 256 / 256)%N.
    generalize dependent (a / 256 mod 256)%N.
    generalize dependent (a / 256)%N.
    generalize dependent (a mod 256)%N. intros. lia. }
  rewrite (N.mod_small _ _ S).
  generalize dependent (a / 256 / 256 / 256)%N.
  generalize dependent (a / 256 / 256 mod 256)%N.
  generalize dependent (a / 256 / 256)%N.
  generalize dependent (a / 256 mod 256)%N.
  generalize dependent (a / 256)%N.
  generalize dependent (a mod 256)%N. intros. lia.
Qed.

Lemma bytes_inj a b :
  (a < 2 ^ 32)%N -> (b < 2 ^ 32)%N ->
  byte_of a = byte_of b ->
  byte_of (a / 256) = byte_of (b / 256) ->
  byte_of (a / 65536) = byte_of (b / 65536) ->
  byte_of (a / 16777216) = byte_of (b / 16777216) ->
  a = b.
Proof.
  intros Ha Hb E0 E1 E2 E3.
  apply (f_equal Byte.to_N) in E0, E1, E2, E3.
  rewrite !byte_of_to_N in E0, E1, E2, E3.
  rewrite (u32_digits Ha), (u32_digits Hb), E0, E1, E2, E3. reflexivity.
Qed.

Lemma stream_bytes_cons (sentence : str) (wav_bytes : bytes)
    (results : list (str * bytes)) :
  (N.of_nat (length wav_bytes) < 2 ^ 32)%N ->
  stream_bytes ((sentence, wav_bytes) :: results)
  = [byte_of (N.of_nat (length wav_bytes));
     byte_of (N.of_nat (length wav_bytes) / 256);
     byte_of (N.of_nat (length wav_bytes) / 65536);
     byte_of (N.of_nat (length wav_bytes) / 16777216)]
    ++ wav_bytes ++ stream_bytes results.
Proof.
  intros H. unfold stream_bytes. cbn [yield_frames].
  rewrite (pack_u32_some H).
  destruct (yield_frames results) as [chunks done]. cbn [fst concat].
  rewrite <- !app_assoc. reflexivity.
Qed.

Lemma byte_of_0 : byte_of 0 = Byte.x00.
Proof. reflexivity. Qed.

Lemma app_same_length A (a b c d : list A) :
  length a = length b -> a ++ c = b ++ d -> a = b /\ c = d.
Proof.
  revert b. induction a as [|x a IH]; intros [|y b] L E;
    try discriminate; [auto|].
  cbn in L, E. injection E as -> E. injection L as L.
  destruct (IH b L E) as [-> ->]. auto.
Qed.

(** The chunked response delimits itself.  When every WAV chunk is
    non-empty and shorter than 2^32 bytes, the bytes of a complete response
    determine the chunks and where the response ends: two responses of
    which one is a prefix of the other carry the same chunks. *)
Theorem stream_delimits_itself results : forall results' x y,
  Forall framed (map snd results) ->
  Forall framed (map snd results') ->
  stream_bytes results ++ x = stream_bytes results' ++ y ->
  map snd results = map snd results' /\ x = y.
Proof.
  induction results as [|[s w] results IH];
    intros [|[s' w'] results'] x y F F' E.
  - split; [reflexivity|]. apply (app_inv_head _ _ _ E).
  - exfalso. cbn [map snd] in F'. inversion F' as [|? ? [Hne Hlt] _]; subst.
    rewrite (@stream_bytes_cons s' w' results' Hlt) in E.
    unfold stream_bytes in E at 1. cbn [yield_frames fst concat app] in E.
    unfold end_marker in E. cbn [app] in E.
    injection E as E0 E1 E2 E3 _.
    rewrite <- byte_of_0 in E0.
    assert (Z : 0%N = N.of_nat (length w')).
    { apply bytes_inj; try assumption; reflexivity. }
    destruct w'; [congruence | cbn in Z; lia].
  - exfalso. cbn [map snd] in F. inversion F as [|? ? [Hne Hlt] _]; subst.
    rewrite (@stream_bytes_cons s w results Hlt) in E.
    unfold stream_bytes in E at 2. cbn [yield_frames fst concat app] in E.
    unfold end_marker in E. cbn [app] in E.
    injection E as E0 E1 E2 E3 _.
    rewrite <- byte_of_0 in E0.
    assert (Z : N.of_nat (length w) = 0%N).
    { apply bytes_inj; try assumption; reflexivity. }
    destruct w; [congruence | cbn in Z; lia].
  - cbn [map snd] in F, F'.
    inversion F as [|? ? [Hne Hlt] Fr]; subst.
    inversion F' as [|? ? [Hne' Hlt'] Fr']; subst.
    rewrite (@stream_bytes_cons s w results Hlt),
            (@stream_bytes_cons s' w' results' Hlt') in E.
    cbn [app] in E. injection E as E0 E1 E2 E3 E.
    assert (L : N.of_nat (length w) = N.of_nat (length w')).
    { apply bytes_inj; assumption. }
    apply Nat2N.inj in L.
    rewrite <- !app_assoc in E.
    destruct (app_same_length _ _ _ _ L E) as [-> E'].
    destruct (IH results' x y Fr Fr' E') as [Hr Hx].
    cbn [map snd]. rewrite Hr. auto.
Qed.

Section WithUnicode.
Context {X : UnicodeExt}.

(** A reply that is one reasoning block.  However the model cuts
    "<think>" body "</think>" into tokens, the response is the end marker
    alone, and the exchange is recorded with an empty answer. *)
Theorem reasoning_only_reply llm synthesize convo text body :
  Router.is_empty (strip text) = false ->
  contains think_close body = false ->
  concat (llm (get_messages convo text)) = think_open ++ body ++ think_close ->
  assistant_chat_stream llm synthesize convo text
  = Some ([end_marker], add_exchange convo text []).
Proof.
  intros Ht Hc E. unfold assistant_chat_stream. rewrite Ht.
  rewrite (reasoning_only_stream body _ Hc E). reflexivity.
Qed.

End WithUnicode.
End AssistantFacts.

(** ** The configured names *)

Module MainFacts.
Import Main EngineMoreFacts.
Local Open Scope string_scope.
Local Open Scope list_scope.

Lemma split_on_cons sep s : exists w ws, split_on sep s = w :: ws.
Proof.
  induction s as [|c s (w & ws & IH)]; cbn [split_on]; [eauto|].
  destruct (c =? sep)%N; [eauto|]. rewrite IH. eauto.
Qed.

Lemma split_on_no_sep sep s :
  Forall (fun w => ~ In sep w) (split_on sep s).
Proof.
  induction s as [|c s IH]; cbn [split_on].
  - constructor; [intros []|constructor].
  - destruct (N.eqb_spec c sep) as [E|E].
    + constructor; [intros []|exact IH].
    + destruct (split_on sep s) as [|w ws].
      * constructor; [|constructor]. intros [H|[]]. congruence.
      * inversion IH as [|? ? Hw Hws]; subst. constructor; [|exact Hws].
        intros [H|H]; [congruence | exact (Hw H)].
Qed.

Lemma join_split_on sep s : join [sep] (split_on sep s) = s.
Proof.
  induction s as [|c s IH]; [reflexivity|]. cbn [split_on].
  destruct (split_on_cons sep s) as (w & ws & Es). rewrite Es in *.
  destruct (N.eqb_spec c sep) as [E|E].
  - change (join [sep] ([] :: w :: ws))
      with ([] ++ [sep] ++ join [sep] (w :: ws)).
    rewrite IH, E. reflexivity.
  - rewrite <- IH. destruct ws; reflexivity.
Qed.

Lemma split_on_free sep w : ~ In sep w -> split_on sep w = [w].
Proof.
  induction w as [|c w IH]; intros H; [reflexivity|]. cbn [split_on].
  destruct (N.eqb_spec c sep) as [E|E]; [exfalso; apply H; left; exact E|].
  rewrite IH by (intros H'; apply H; right; exact H'). reflexivity.
Qed.

Lemma split_on_app sep w r :
  ~ In sep w -> split_on sep (w ++ sep :: r) = w :: split_on sep r.
Proof.
  induction w as [|c w IH]; intros H.
  - cbn [app split_on]. rewrite N.eqb_refl. reflexivity.
  - cbn [app split_on].
    destruct (N.eqb_spec c sep) as [E|E]; [exfalso; apply H; left; exact E|].
    rewrite IH by (intros H'; apply H; right; exact H'). reflexivity.
Qed.

Lemma split_on_join sep names :
  names <> [] -> Forall (fun w => ~ In sep w) names ->
  split_on sep (join [sep] names) = names.
Proof.
  induction names as [|n names IH]; intros Hne F; [congruence|].
  inversion F as [|? ? Hn Hr]; subst.
  destruct names as [|n' names].
  - apply split_on_free. exact Hn.
  - change (join [sep] (n :: n' :: names))
      with (n ++ sep :: join [sep] (n' :: names)).
    rewrite split_on_app by exact Hn.
    rewrite IH by (try discriminate; exact Hr). reflexivity.
Qed.

Section WithUnicode.
Context {X : UnicodeExt}.

Lemma In_strip c s : In c (strip s) -> In c s.
Proof.
  generalize (strip_Subseq s). generalize (strip s). intros a Hs.
  induction Hs as [|x a b Hs IH|x a b Hs IH]; intros H; [exact H| |].
  - right. exact (IH H).
  - destruct H as [H|H]; [left; exact H | right; exact (IH H)].
Qed.

(** The configured pipeline names are never empty, carry no white space at
    either end and hold no comma, whatever the PIPELINES setting is. *)
Theorem pipeline_names_clean PIPELINES :
  Forall (fun n => n <> [] /\ strip n = n /\ ~ In 44%N n)
         (pipeline_names PIPELINES).
Proof.
  unfold pipeline_names. apply Forall_forall. intros n Hn.
  apply in_map_iff in Hn. destruct Hn as (w & <- & Hw).
  apply filter_In in Hw. destruct Hw as [Hw He].
  split; [|split].
  - destruct (strip w); [discriminate He | discriminate].
  - apply strip_idem.
  - intros H. apply In_strip in H.
    pose proof (split_on_no_sep 44%N PIPELINES) as F.
    rewrite Forall_forall in F. exact (F w Hw H).
Qed.

(** Names that are not empty, trimmed and free of commas are read back
    from their comma-separated list, in order and with repetitions. *)
Theorem pipeline_names_of_join names :
  Forall (fun n => n <> [] /\ strip n = n /\ ~ In 44%N n) names ->
  pipeline_names (join (u ",") names) = names.
Proof.
  intros F. unfold pipeline_names. change (u ",") with [44%N].
  destruct names as [|n names]; [reflexivity|].
  rewrite split_on_join; [|discriminate|].
  - induction F as [|m l (Hne & Hs & _) F IH]; [reflexivity|].
    cbn [filter map]. rewrite Hs.
    destruct m; [congruence|]. cbn [Router.is_empty negb map].
    rewrite Hs, IH. reflexivity.
  - apply Forall_forall. intros m Hm. rewrite Forall_forall in F.
    destruct (F m Hm) as (_ & _ & H). exact H.
Qed.

End WithUnicode.

Lemma join_last sep : forall l : list str,
  l <> [] ->
  exists dir,
    join [sep] l = dir ++ last l []
    /\ (dir = [] \/ exists d, dir = d ++ [sep]).
Proof.
  induction l as [|w l IH]; intros Hne; [congruence|].
  destruct l as [|w' l].
  - exists []. split; [reflexivity | left; reflexivity].
  - destruct IH as (dir & E & Hd); [discriminate|].
    change (join [sep] (w :: w' :: l))
      with (w ++ sep :: join [sep] (w' :: l)).
    change (last (w :: w' :: l) []) with (last (w' :: l) []).
    exists (w ++ sep :: dir). split.
    + rewrite E, <- app_assoc. reflexivity.
    + right. destruct Hd as [->|(d & ->)].
      * exists w. reflexivity.
      * exists (w ++ sep :: d). rewrite <- app_assoc. reflexivity.
Qed.

(** The model name the health answer reports is the part of MODEL_PATH
    after its last "/": it holds no "/", and what stands before it in the
    path is empty or ends with "/". *)
Theorem model_file_is_last_component MODEL_PATH :
  ~ In 47%N (model_file MODEL_PATH)
  /\ exists dir,
       MODEL_PATH = dir ++ model_file MODEL_PATH
       /\ (dir = [] \/ exists d, dir = d ++ [47%N]).
Proof.
  unfold model_file.
  destruct (split_on_cons 47%N MODEL_PATH) as (w & ws & E).
  split.
  - pose proof (split_on_no_sep 47%N MODEL_PATH) as F.
    rewrite Forall_forall in F. apply F. rewrite E.
    destruct (exists_last (l := w :: ws)) as (l' & a & El); [discriminate|].
    rewrite El, last_last. apply in_or_app. right. left. reflexivity.
  - destruct (@join_last 47%N (split_on 47%N MODEL_PATH)) as (dir & Ej & Hd).
    + rewrite E. discriminate.
    + exists dir. rewrite join_split_on in Ej. auto.
Qed.

End MainFacts.

(** ** The command handler *)

Module RobotFacts.
Import Router RouterSpec RouterFacts RouterMethods Conversation EngineMore Robot.
Local Open Scope string_scope.
Local Open Scope list_scope.

Lemma str_eqb_refl k : str_eqb k k = true.
Proof. apply str_eqb_eq. reflexivity. Qed.

Lemma str_eqb_neq a b : a <> b -> str_eqb a b = false.
Proof.
  intros H. destruct (str_eqb a b) eqn:E; [|reflexivity].
  apply str_eqb_eq in E. contradiction.
Qed.

Lemma obj_get_set_same k v d : obj_get k (obj_set k v d) = Some v.
Proof.
  induction d as [|[k' v'] d IH]; cbn [obj_set obj_get].
  - rewrite str_eqb_refl. reflexivity.
  - destruct (str_eqb k k') eqn:E; cbn [obj_get].
    + rewrite str_eqb_refl. reflexivity.
    + rewrite E. exact IH.
Qed.

Lemma obj_get_set_other k k' v d :
  k <> k' -> obj_get k (obj_set k' v d) = obj_get k d.
Proof.
  intros H. induction d as [|[k2 v2] d IH]; cbn [obj_set obj_get].
  - rewrite str_eqb_neq by exact H. reflexivity.
  - destruct (str_eqb k' k2) eqn:E; cbn [obj_get].
    + apply str_eqb_eq in E. subst k2.
      rewrite !str_eqb_neq by exact H. reflexivity.
    + destruct (str_eqb k k2); [reflexivity | exact IH].
Qed.

Lemma obj_get_set_keeps k k' v d :
  obj_get k d <> None -> obj_get k (obj_set k' v d) <> None.
Proof.
  intros H. destruct (list_eq_dec N.eq_dec k k') as [<-|E].
  - rewrite obj_get_set_same. discriminate.
  - rewrite obj_get_set_other by exact E. exact H.
Qed.

Lemma update_keeps k entries : forall d,
  obj_get k d <> None ->
  obj_get k (fold_left (fun d kv => obj_set (fst kv) (snd kv) d) entries d)
  <> None.
Proof.
  induction entries as [|[k' v] entries IH]; intros d H; [exact H|].
  cbn [fold_left fst snd]. apply IH. apply obj_get_set_keeps. exact H.
Qed.

Lemma update_sets k entries : forall d,
  existsb (fun kv => str_eqb k (fst kv)) entries = true ->
  obj_get k (fold_left (fun d kv => obj_set (fst kv) (snd kv) d) entries d)
  <> None.
Proof.
  induction entries as [|[k' v] entries IH]; intros d H; [discriminate|].
  cbn [fold_left fst snd existsb] in *.
  destruct (str_eqb k k') eqn:E.
  - apply str_eqb_eq in E. subst k'. apply update_keeps.
    rewrite obj_get_set_same. discriminate.
  - apply IH. exact H.
Qed.

Lemma command_data_actions reply response_text d :
  command_data reply response_text = Some (ODict d) ->
  existsb (fun kv => str_eqb (u "actions") (fst kv)) d = true.
Proof.
  unfold command_data. destruct reply as [x| |].
  - destruct (obj_in (u "actions") x) as [[|]|] eqn:I; intros H;
      [|injection H as <-; reflexivity|discriminate].
    injection H as ->. cbn [obj_in] in I. injection I as I. exact I.
  - intros H. injection H as <-. reflexivity.
  - discriminate.
Qed.

Lemma JSONResponse_cases w content :
  (JSONResponse w content = JSONContent content /\ renders w content = true)
  \/ (JSONResponse w content = Unhandled /\ renders w content = false).
Proof. unfold JSONResponse. destruct (renders w content); auto. Qed.

Lemma command_data_dict reply response_text :
  (exists d, command_data reply response_text = Some (ODict d))
  \/ ((forall d, command_data reply response_text <> Some (ODict d))
      /\ (reply = OtherError
          \/ exists x, reply = Loaded x /\ fatal_reply x = true)).
Proof.
  unfold command_data. destruct reply as [x| |].
  - destruct x; cbn [obj_in fatal_reply];
      try (right; split; [intros d0; discriminate|];
           right; eexists; split; reflexivity).
    + destruct (contains (u "actions") s) eqn:C.
      * right. split; [intros d0; discriminate|].
        right. eexists. split; [reflexivity | exact C].
      * left. eexists. reflexivity.
    + destruct (existsb (is_str (u "actions")) l) eqn:C.
      * right. split; [intros d0; discriminate|].
        right. eexists. split; [reflexivity | exact C].
      * left. eexists. reflexivity.
    + destruct (existsb _ d); left; eexists; reflexivity.
  - left. eexists. reflexivity.
  - right. split; [intros d0; discriminate | left; reflexivity].
Qed.


Section WithUnicode.
Context {X : UnicodeExt}.

(** Every JSON answer of the handler has the keys "transcription" and
    "actions".  On the keyword path it carries the transcription, one
    dict per action of the router result, the confirmation, and
    "_routed_by": "keyword".  On the fallback path "_routed_by" is "llm"
    and "_timing" is the handler's, whatever keys the model's reply
    holds. *)
Theorem reply_shape w convo text content convo' :
  robot_command w convo text = (JSONContent content, convo') ->
  exists d,
    content = ODict d
    /\ obj_get (u "transcription") d <> None
    /\ obj_get (u "actions") d <> None
    /\ ((exists r,
          route_command text = Ok (Some r)
          /\ obj_get (u "transcription") d = Some (OStr text)
          /\ obj_get (u "actions") d = Some (OList (map to_dict (actions r)))
          /\ obj_get (u "confirmation") d
             = Some (OStr (RouterResult_confirmation r))
          /\ obj_get (u "_routed_by") d = Some (OStr (u "keyword"))
          /\ obj_get (u "_timing") d = Some (keyword_timing w))
        \/ (route_command text = Ok None
            /\ obj_get (u "_routed_by") d = Some (OStr (u "llm"))
            /\ obj_get (u "_timing") d = Some (llm_timing w))).
Proof.
  unfold robot_command. destruct (is_empty (strip text)); [discriminate|].
  destruct (route_command text) as [[r|]|e]; [| |discriminate].
  - unfold to_actions_json. cbv iota.
    match goal with
    | |- (JSONResponse w ?c, _) = _ -> _ =>
        destruct (JSONResponse_cases w c) as [[E _]|[E _]]; rewrite E
    end; [|discriminate].
    intros H. injection H as <- _.
    eexists. split; [reflexivity|].
    split; [vm_compute; discriminate|]. split; [vm_compute; discriminate|].
    left. exists r. repeat split; reflexivity.
  - destruct (command_data_dict (loads w (generate_content
                 (completion w (get_messages convo text))))
                (generate_content (completion w (get_messages convo text))))
      as [[d C]|[C _]].
    + rewrite C.
      destruct (JSONResponse_cases w (llm_content w text d))
        as [[E _]|[E _]]; rewrite E; [|discriminate].
      intros H. injection H as <- _. unfold llm_content.
      eexists. split; [reflexivity|].
      unfold dict_of. cbn [app fold_left fst snd]. rewrite fold_left_app.
      apply command_data_actions in C.
      split; [|split].
      * apply update_keeps, update_keeps. vm_compute. discriminate.
      * apply update_keeps, update_sets. exact C.
      * right. split; [reflexivity|]. cbn [fold_left fst snd]. split.
        -- rewrite obj_get_set_other
             by (intros H; vm_compute in H; discriminate H).
           apply obj_get_set_same.
        -- apply obj_get_set_same.
    + destruct (command_data _ _) as [[]|]; try discriminate.
      exfalso. eapply C. reflexivity.
Qed.

(** A blank transcription is answered with HTTP 400 and leaves the history
    as it was.  Every other transcription adds exactly one exchange to the
    history, whatever the outcome: the JSON text of the actions on the
    keyword path, the model's reply on the fallback path. *)
Theorem exchange_recorded w convo text :
  (is_empty (strip text) = true
   /\ robot_command w convo text = (HTTP400, convo))
  \/ (is_empty (strip text) = false
      /\ fst (robot_command w convo text) <> HTTP400
      /\ exists reply,
           snd (robot_command w convo text) = add_exchange convo text reply
           /\ ((exists r, route_command text = Ok (Some r)
                          /\ reply = dumps w (to_actions_json r))
               \/ (route_command text = Ok None
                   /\ reply = generate_content
                                (completion w (get_messages convo text))))).
Proof.
  unfold robot_command. destruct (is_empty (strip text)); [left; auto|].
  right. split; [reflexivity|].
  destruct (route_command_cases text) as [[E _]|(acts & E & _)]; rewrite E.
  - destruct (command_data _ _) as [[]|]; cbn [fst snd];
      (split; [try discriminate|]);
      try (eexists; (split; [reflexivity|]); right; auto).
    unfold JSONResponse. destruct (renders w _); discriminate.
  - unfold to_actions_json. cbv iota. cbn [fst snd].
    split; [unfold JSONResponse; destruct (renders w _); discriminate|].
    eexists. split; [reflexivity|].
    left. eexists. split; reflexivity.
Qed.


End WithUnicode.
End RobotFacts.

(** ** More evaluations *)

Module MoreExamples.
Import Router RouterSpec RouterFacts RouterMethods RouterMore.
Import Engine EngineSpec EngineFacts EngineMore EngineMoreFacts.
Import Conversation ConversationSpec ConversationFacts ConversationMore.
Import Assistant AssistantFacts Main MainFacts Robot RobotFacts.
Local Open Scope string_scope.
Local Open Scope list_scope.

#[local] Existing Instance py_ext.

Ltac route_of t :=
  let r := eval vm_compute in (route_command t) in
  match r with
  | Ok (Some ?x) =>
      assert (route_command t = Ok (Some x)) by (vm_compute; reflexivity)
  end.

Lemma route_result_shape_witness :
  exists r,
    route_command (u "avanza 3 metros y gira a la derecha") = Ok (Some r)
    /\ matched r = true
    /\ actions r <> []
    /\ length (actions r)
       = length (segments (u "avanza 3 metros y gira a la derecha"))
    /\ Forall2 resolves (segments (u "avanza 3 metros y gira a la derecha"))
               (actions r).
Proof.
  route_of (u "avanza 3 metros y gira a la derecha").
  eexists. split; [eassumption|].
  eapply (@route_result_shape py_ext). eassumption.
Defined.

Lemma action_of_first_matching_rule_witness :
  exists r,
    route_command (u "oye robot baila") = Ok (Some r)
    /\ Forall2 (fun p a =>
                  exists pre rule post,
                    COMMAND_PATTERNS = pre ++ rule :: post
                    /\ forallb (fun q => negb (has_keyword q p)) pre = true
                    /\ has_keyword rule p = true
                    /\ action a = rule_action rule
                    /\ confirmation a = rule_confirmation rule)
               (segments (u "oye robot baila")) (actions r).
Proof.
  route_of (u "oye robot baila").
  eexists. split; [eassumption|].
  eapply (@action_of_first_matching_rule py_ext). eassumption.
Defined.

Lemma params_keep_rule_keys_witness :
  exists r,
    route_command (u "retrocede 2 metros") = Ok (Some r)
    /\ Forall2 (fun p a =>
                  exists pre rule post,
                    COMMAND_PATTERNS = pre ++ rule :: post
                    /\ forallb (fun q => negb (has_keyword q p)) pre = true
                    /\ has_keyword rule p = true
                    /\ action a = rule_action rule
                    /\ map fst (params a) = map fst (default_params rule)
                    /\ (forall k, refined_key (action a) <> Some k ->
                         dict_get k (params a)
                         = dict_get k (default_params rule)))
               (segments (u "retrocede 2 metros")) (actions r).
Proof.
  route_of (u "retrocede 2 metros").
  eexists. split; [eassumption|].
  eapply (@params_keep_rule_keys py_ext). eassumption.
Defined.

Lemma refined_parameter_witness :
  exists a,
    resolves (u "gira 45 grados") a
    /\ action a = "turn"
    /\ dict_get "angle" (params a) = Some (VFloat 45 0).
Proof.
  assert (H : {a | resolves (u "gira 45 grados") a /\ action a = "turn"}).
  { unfold resolves.
    let r := eval vm_compute in (_match_single (u "gira 45 grados")) in
    match r with
    | Ok (Some ?x) => exists x
    end.
    split; vm_compute; reflexivity. }
  destruct H as (a & Hr & Ha). exists a. split; [exact Hr|].
  split; [exact Ha|].
  destruct (@refined_parameter py_ext (u "gira 45 grados") a Hr) as [Ht _].
  destruct (Ht Ha) as (o & Eo & Ea). rewrite Ea. clear Ea Ht.
  vm_compute in Eo. injection Eo as <-. vm_compute. reflexivity.
Defined.

Lemma confirmation_lists_every_action_witness :
  exists r,
    route_command (u "avanza y gira a la izquierda") = Ok (Some r)
    /\ RouterResult_confirmation r
       = join (u ". ") (map confirmation (actions r))
    /\ RouterResult_confirmation r <> [].
Proof.
  route_of (u "avanza y gira a la izquierda").
  eexists. split; [eassumption|].
  eapply (@confirmation_lists_every_action py_ext). eassumption.
Defined.

Lemma generate_without_block_witness :
  generate_content (Some (u " Son las tres. ")) = strip (u " Son las tres. ")
  /\ generate_content None = [].
Proof.
  apply (@generate_without_block py_ext (u " Son las tres. ")).
  vm_compute. reflexivity.
Defined.

Lemma generate_drops_leading_block_witness :
  generate_content
    (Some (think_open ++ u "el usuario saluda" ++ think_close ++ u " Hola."))
  = strip (u " Hola.").
Proof.
  apply (@generate_drops_leading_block py_ext (u "el usuario saluda")
           (u " Hola.")); vm_compute; reflexivity.
Defined.

Lemma unterminated_block_swallows_witness :
  generate_stream [u "Hola "; u "<think>pien"; u "so"] = [].
Proof.
  apply (@unterminated_block_swallows py_ext (u "Hola ") (u "pienso")
           [u "Hola "; u "<think>pien"; u "so"]); vm_compute; reflexivity.
Defined.

Lemma no_text_lost_witness :
  nonspace (concat (generate_stream [u "Hola. "; u "Que "; u "tal"]))
  = nonspace (concat [u "Hola. "; u "Que "; u "tal"])
  /\ nonspace (full_response [u "Hola. "; u "Que "; u "tal"])
     = nonspace (concat [u "Hola. "; u "Que "; u "tal"]).
Proof.
  apply (@no_text_lost py_ext [u "Hola. "; u "Que "; u "tal"]).
  vm_compute. reflexivity.
Defined.

Lemma context_of_request_witness :
  get_messages (run_ops demo_manager demo_ops) (u "cuatro")
  = {| role := "system"; content := u "Eres un asistente." |}
    :: flat_map exchange (window 2 (pairs_ops [] demo_ops))
    ++ [{| role := "user"; content := u "cuatro" |}].
Proof.
  destruct (context_of_request "assistant" (u "Eres un asistente.") 2
              false [] demo_ops (u "cuatro") (cm := demo_manager) eq_refl)
    as (_ & _ & _ & H).
  apply H. reflexivity.
Defined.

Lemma history_survives_restart_witness :
  exists cm cm',
    new "assistant" (u "Eres un asistente.") 2 true [] = Ok cm
    /\ new "assistant" (u "Eres un asistente.") 2 true
           (disk (run_ops cm demo_ops)) = Ok cm'
    /\ history cm' = history (run_ops cm demo_ops).
Proof.
  let r := eval vm_compute in
      (new "assistant" (u "Eres un asistente.") 2 true []) in
  match r with
  | Ok ?c => pose (cm := c)
  end.
  assert (Hn : new "assistant" (u "Eres un asistente.") 2 true [] = Ok cm)
    by (vm_compute; reflexivity).
  assert (Ho : demo_ops <> []) by discriminate.
  destruct (@history_survives_restart _ _ _ _ cm demo_ops Hn Ho)
    as (_ & cm' & E & H & _).
  exists cm, cm'. split; [exact Hn|]. split; [exact E | exact H].
Defined.

Lemma stream_delimits_itself_witness :
  map snd [(u "Hola.", [Byte.x52; Byte.x49])]
  = map snd [(u "Adios.", [Byte.x52; Byte.x49])]
  /\ [Byte.x07] = [Byte.x07].
Proof.
  apply (@stream_delimits_itself
           [(u "Hola.", [Byte.x52; Byte.x49])]
           [(u "Adios.", [Byte.x52; Byte.x49])] [Byte.x07] [Byte.x07]).
  - repeat constructor. discriminate.
  - repeat constructor. discriminate.
  - reflexivity.
Defined.

Lemma reasoning_only_reply_witness :
  assistant_chat_stream
    (fun _ => [u "<think>"; u "el usuario "; u "saluda</think>"])
    (fun _ => [Byte.x52]) demo_manager (u "hola")
  = Some ([end_marker], add_exchange demo_manager (u "hola") []).
Proof.
  apply (@reasoning_only_reply py_ext
           (fun _ => [u "<think>"; u "el usuario "; u "saluda</think>"])
           (fun _ => [Byte.x52]) demo_manager (u "hola")
           (u "el usuario saluda")); vm_compute; reflexivity.
Defined.

Lemma pipeline_names_of_join_witness :
  pipeline_names (join (u ",") [u "robot"; u "assistant"])
  = [u "robot"; u "assistant"].
Proof.
  apply (@pipeline_names_of_join py_ext [u "robot"; u "assistant"]).
  repeat constructor; try discriminate; try (vm_compute; reflexivity);
    intros H; vm_compute in H; intuition discriminate.
Defined.

Lemma reply_shape_witness :
  exists content convo' d,
    robot_command demo_world demo_manager (u "avanza")
    = (JSONContent content, convo')
    /\ content = ODict d
    /\ obj_get (u "_routed_by") d = Some (OStr (u "keyword")).
Proof.
  assert (E : {cc | robot_command demo_world demo_manager (u "avanza")
                    = (JSONContent (fst cc), snd cc)}).
  { let r := eval vm_compute in
        (robot_command demo_world demo_manager (u "avanza")) in
    match r with
    | (JSONContent ?c, ?m) => exists (c, m)
    end.
    vm_compute. reflexivity. }
  destruct E as [[c m] E]. cbn [fst snd] in E.
  destruct (@reply_shape py_ext _ _ _ _ _ E) as (d & Ed & _ & _ & H).
  exists c, m, d. split; [exact E|]. split; [exact Ed|].
  destruct H as [(r & _ & _ & _ & _ & H & _)|(H & _)]; [exact H|].
  vm_compute in H. discriminate H.
Defined.


End MoreExamples.
